(** * Placement geometry and compositing of the vehicle background swap app

    A shallow embedding of the coordinate mapping, the compositing step, the
    depth hint and the upload handlers of [App.tsx], [ImageDisplay.tsx] and
    [ImageUploader.tsx].

    JavaScript numbers are kept abstract behind the interface [JsNumber]:
    every handler is written once, over any carrier with the arithmetic the
    source uses.  Two carriers are provided:
    - [float], the kernel's binary64 numbers, which is what a JavaScript
      engine computes with; the laws of the geometry (centre to centre,
      quarter width, contain-fit, the pin) are proved on it, each with the
      rounding error it allows, and concrete runs are evaluated on it;
    - [Q], exact rationals, the idealisation, for the laws that rounding
      cannot change (monotonicity, the fallbacks of a width). *)

From Stdlib Require Import ZArith QArith Qpower Qabs Qfield Lqa Lia Floats Uint63
  String List Bool.
Import ListNotations.

Set Implicit Arguments.
#[local] Set Warnings "-inexact-float".

(** ** JavaScript numbers *)

Class JsNumber (num : Type) : Type := {
  lit : Q -> num;                 (* a numeric literal of the source text *)
  add : num -> num -> num;        (* a + b *)
  sub : num -> num -> num;        (* a - b *)
  mul : num -> num -> num;        (* a * b *)
  div : num -> num -> num;        (* a / b *)
  gtb : num -> num -> bool;       (* a > b *)
  mathMin : num -> num -> num;    (* Math.min(a, b) *)
  mathMax : num -> num -> num;    (* Math.max(a, b) *)
  truthy : num -> bool            (* ToBoolean(a): false on 0 and NaN *)
}.

Declare Scope js_scope.
Delimit Scope js_scope with js.
Notation "a + b" := (add a b) : js_scope.
Notation "a - b" := (sub a b) : js_scope.
Notation "a * b" := (mul a b) : js_scope.
Notation "a / b" := (div a b) : js_scope.
Notation "a >? b" := (gtb a b) (at level 70, no associativity) : js_scope.

(** *** Exact rationals *)

Definition Qgtb (a b : Q) : bool := negb (Qle_bool a b).
Definition Qmin_js (a b : Q) : Q := if Qle_bool a b then a else b.
Definition Qmax_js (a b : Q) : Q := if Qle_bool a b then b else a.
Definition Qtruthy (a : Q) : bool := negb (Qeq_bool a 0).

(** [Math.min(Math.max(r, 0), 1)] on rationals. *)
Definition clamp01 (r : Q) : Q := Qmin_js (Qmax_js r 0) 1.

#[export] Instance Q_JsNumber : JsNumber Q := {
  lit := fun q => q;
  add := Qplus;
  sub := Qminus;
  mul := Qmult;
  div := Qdiv;
  gtb := Qgtb;
  mathMin := Qmin_js;
  mathMax := Qmax_js;
  truthy := Qtruthy
}.

(** *** binary64 *)

Definition float_of_Z (z : Z) : float :=
  match z with
  | Zneg _ => PrimFloat.opp (PrimFloat.of_uint63 (Uint63.of_Z (Z.opp z)))
  | _ => PrimFloat.of_uint63 (Uint63.of_Z z)
  end.

(** A decimal literal [n/d] with [n] and [d] below 2^53 denotes the double
    nearest to it, which is what one correctly rounded division yields. *)
Definition float_lit (q : Q) : float :=
  PrimFloat.div (float_of_Z (Qnum q)) (float_of_Z (Zpos (Qden q))).

(** [Math.min] and [Math.max]: NaN if either argument is, and -0 below +0. *)
Definition float_min (a b : float) : float :=
  if PrimFloat.is_nan a || PrimFloat.is_nan b then PrimFloat.nan
  else if PrimFloat.ltb a b then a
  else if PrimFloat.ltb b a then b
  else if PrimFloat.get_sign a then a else b.

Definition float_max (a b : float) : float :=
  if PrimFloat.is_nan a || PrimFloat.is_nan b then PrimFloat.nan
  else if PrimFloat.ltb a b then b
  else if PrimFloat.ltb b a then a
  else if PrimFloat.get_sign a then b else a.

Definition float_truthy (a : float) : bool :=
  negb (PrimFloat.is_zero a || PrimFloat.is_nan a).

#[export] Instance float_JsNumber : JsNumber float := {
  lit := float_lit;
  add := PrimFloat.add;
  sub := PrimFloat.sub;
  mul := PrimFloat.mul;
  div := PrimFloat.div;
  gtb := fun a b => PrimFloat.ltb b a;
  mathMin := float_min;
  mathMax := float_max;
  truthy := float_truthy
}.

(** ** Data model ([types.ts], [App.tsx]) *)

Section DataModel.
Variable num : Type.

(** [FileInfo] of [types.ts]; [width] and [height] are optional. *)
Record FileInfo : Type := {
  fi_name : string;
  fi_type : string;
  fi_size : num;
  fi_base64 : string;
  fi_width : option num;
  fi_height : option num
}.

(** [PinPosition] of [types.ts]. *)
Record PinPosition : Type := { pin_x : num; pin_y : num }.

(** [ExtractedVehicle] of [App.tsx]. *)
Record ExtractedVehicle : Type := {
  ev_src : string;
  ev_width : num;
  ev_height : num
}.

(** A decoded [HTMLImageElement]: its source and natural size. *)
Record Image : Type := {
  img_src : string;
  naturalWidth : num;
  naturalHeight : num
}.

(** The calls made on the 2d context.  [DrawImage img dx dy None] is
    [ctx.drawImage(img, dx, dy)]; with [Some (dw, dh)] it is the five
    argument form. *)
Inductive DrawOp : Type :=
| DrawImage (img : Image) (dx dy : num) (dsize : option (num * num)).

(** The off-screen canvas: its size attributes and the draws, in order. *)
Record Canvas : Type := {
  cv_width : num;
  cv_height : num;
  cv_ops : list DrawOp
}.

(** The [useState] cells of [App]. *)
Record AppState : Type := {
  subjectVehicle : option FileInfo;
  backgroundScene : option FileInfo;
  isExtracting : bool;
  extractedVehicle : option ExtractedVehicle;
  vehiclePosition : option PinPosition;
  vehicleScale : num;
  generatedImage : option string;
  isLoading : bool;
  error : option string
}.

End DataModel.

Arguments DrawImage {num} img dx dy dsize.

(** What the handlers read from the page and from the services: the DOM
    elements behind the two refs, image decoding, the canvas export and the
    two calls of [geminiService]. *)

Section Environment.
Variable num : Type.

(** The layout of a mounted element. *)
Record Element : Type := {
  offsetWidth : num;
  offsetHeight : num;
  rect_left : num;
  rect_top : num
}.

(** A [File] handed over by the picker or by a drop. *)
Record File : Type := {
  file_name : string;
  file_type : string;
  file_size : num
}.

Record Browser : Type := {
  (* [backgroundImageRef.current], [None] while the <img> is not mounted *)
  backgroundImageRef : option Element;
  (* [backgroundContainerRef.current] *)
  backgroundContainerRef : option Element;
  (* [canvas.getContext('2d')] is not null *)
  getContext2d : bool;
  (* the natural size with which [onload] fires for a source; [None] when
     it never fires *)
  decodeImage : string -> option (num * num);
  (* [canvas.toDataURL('image/png')] *)
  toDataURL : Canvas num -> string;
  (* the message of the TypeError raised on destructuring a null ref *)
  nullRefMessage : string;
  (* [extractVehicle]: the cutout, or the message of the rejection *)
  extractVehicle : FileInfo num -> string + string;
  (* [blendVehicleIntoScene]: the blend, or the message of the rejection *)
  blendVehicleIntoScene : FileInfo num -> string + string;
  (* [FileReader.readAsDataURL]: the data URL, [None] when [onload] never fires *)
  readAsDataURL : File -> option string
}.

End Environment.

(** ** [App.tsx] *)

Notation "st |> f" := (f st) (at level 50, left associativity, only parsing).

Section App.
Context {num : Type} `{JsNumber num}.
Local Open Scope js_scope.
Local Open Scope string_scope.

(** *** State setters *)

Definition setSubjectVehicle (v : option (FileInfo num)) (st : AppState num) : AppState num :=
  {| subjectVehicle := v; backgroundScene := backgroundScene st;
     isExtracting := isExtracting st; extractedVehicle := extractedVehicle st;
     vehiclePosition := vehiclePosition st; vehicleScale := vehicleScale st;
     generatedImage := generatedImage st; isLoading := isLoading st;
     error := error st |}.

Definition setBackgroundScene (v : option (FileInfo num)) (st : AppState num) : AppState num :=
  {| subjectVehicle := subjectVehicle st; backgroundScene := v;
     isExtracting := isExtracting st; extractedVehicle := extractedVehicle st;
     vehiclePosition := vehiclePosition st; vehicleScale := vehicleScale st;
     generatedImage := generatedImage st; isLoading := isLoading st;
     error := error st |}.

Definition setIsExtracting (v : bool) (st : AppState num) : AppState num :=
  {| subjectVehicle := subjectVehicle st; backgroundScene := backgroundScene st;
     isExtracting := v; extractedVehicle := extractedVehicle st;
     vehiclePosition := vehiclePosition st; vehicleScale := vehicleScale st;
     generatedImage := generatedImage st; isLoading := isLoading st;
     error := error st |}.

Definition setExtractedVehicle (v : option (ExtractedVehicle num)) (st : AppState num) : AppState num :=
  {| subjectVehicle := subjectVehicle st; backgroundScene := backgroundScene st;
     isExtracting := isExtracting st; extractedVehicle := v;
     vehiclePosition := vehiclePosition st; vehicleScale := vehicleScale st;
     generatedImage := generatedImage st; isLoading := isLoading st;
     error := error st |}.

Definition setVehiclePosition (v : option (PinPosition num)) (st : AppState num) : AppState num :=
  {| subjectVehicle := subjectVehicle st; backgroundScene := backgroundScene st;
     isExtracting := isExtracting st; extractedVehicle := extractedVehicle st;
     vehiclePosition := v; vehicleScale := vehicleScale st;
     generatedImage := generatedImage st; isLoading := isLoading st;
     error := error st |}.

Definition setVehicleScale (v : num) (st : AppState num) : AppState num :=
  {| subjectVehicle := subjectVehicle st; backgroundScene := backgroundScene st;
     isExtracting := isExtracting st; extractedVehicle := extractedVehicle st;
     vehiclePosition := vehiclePosition st; vehicleScale := v;
     generatedImage := generatedImage st; isLoading := isLoading st;
     error := error st |}.

Definition setGeneratedImage (v : option string) (st : AppState num) : AppState num :=
  {| subjectVehicle := subjectVehicle st; backgroundScene := backgroundScene st;
     isExtracting := isExtracting st; extractedVehicle := extractedVehicle st;
     vehiclePosition := vehiclePosition st; vehicleScale := vehicleScale st;
     generatedImage := v; isLoading := isLoading st;
     error := error st |}.

Definition setIsLoading (v : bool) (st : AppState num) : AppState num :=
  {| subjectVehicle := subjectVehicle st; backgroundScene := backgroundScene st;
     isExtracting := isExtracting st; extractedVehicle := extractedVehicle st;
     vehiclePosition := vehiclePosition st; vehicleScale := vehicleScale st;
     generatedImage := generatedImage st; isLoading := v;
     error := error st |}.

Definition setError (v : option string) (st : AppState num) : AppState num :=
  {| subjectVehicle := subjectVehicle st; backgroundScene := backgroundScene st;
     isExtracting := isExtracting st; extractedVehicle := extractedVehicle st;
     vehiclePosition := vehiclePosition st; vehicleScale := vehicleScale st;
     generatedImage := generatedImage st; isLoading := isLoading st;
     error := v |}.

(** The state of a freshly mounted [App]. *)
Definition initialState : AppState num :=
  {| subjectVehicle := None; backgroundScene := None; isExtracting := false;
     extractedVehicle := None; vehiclePosition := None; vehicleScale := lit 1;
     generatedImage := None; isLoading := false; error := None |}.

(** *** [handleSubjectUpload] *)

(** [a || b] where [a] is the width of an element that may be missing. *)
Definition orElse (a : option num) (b : num) : num :=
  match a with
  | Some v => if truthy v then v else b
  | None => b
  end.

(** [bgImage?.offsetWidth || container?.offsetWidth || 512] *)
Definition backgroundRenderWidth (env : Browser num) : num :=
  orElse (option_map (@offsetWidth num) (backgroundImageRef env))
         (orElse (option_map (@offsetWidth num) (backgroundContainerRef env))
                 (lit 512)).

Definition baseScale (env : Browser num) (imgNaturalWidth : num) : num :=
  (backgroundRenderWidth env / lit 4) / imgNaturalWidth.

Definition handleSubjectUpload (env : Browser num) (fileInfo : FileInfo num)
    (st : AppState num) : AppState num :=
  let st := st |> setSubjectVehicle (Some fileInfo) |> setExtractedVehicle None
               |> setGeneratedImage None |> setError None |> setIsExtracting true in
  match extractVehicle env fileInfo with
  | inl resultSrc =>
      let st := st |> setIsExtracting false in
      match decodeImage env resultSrc with
      | Some (imgNaturalWidth, imgNaturalHeight) =>
          st |> setExtractedVehicle
                  (Some {| ev_src := resultSrc; ev_width := imgNaturalWidth;
                           ev_height := imgNaturalHeight |})
             |> setVehicleScale (baseScale env imgNaturalWidth)
      | None => st
      end
  | inr message =>
      st |> setError (Some ("Failed to extract vehicle: " ++ message))
         |> setIsExtracting false
  end.

(** *** [handleBackgroundUpload] *)

Definition handleBackgroundUpload (fileInfo : FileInfo num) (st : AppState num)
    : AppState num :=
  st |> setBackgroundScene (Some fileInfo)
     |> setVehiclePosition None (* Reset position on new background *)
     |> setGeneratedImage None
     |> setError None.

(** *** [handleVehicleDrop] *)

Definition handleVehicleDrop (env : Browser num) (vehicleId : string)
    (clientX clientY : num) (st : AppState num) : AppState num :=
  match backgroundContainerRef env with
  | Some container =>
      if (vehicleId =? "extracted-vehicle")%string then
        let x := clientX - rect_left container in
        let y := clientY - rect_top container in
        st |> setVehiclePosition (Some {| pin_x := x; pin_y := y |})
      else st
  | None => st
  end.

(** *** [handleGenerate] *)

(** Lines 116-126: the size at which the background is painted inside its
    box under [object-contain]. *)
Definition actualRendered (renderedWidth renderedHeight originalWidth originalHeight : num)
    : num * num :=
  let originalAspectRatio := originalWidth / originalHeight in
  let containerAspectRatio := renderedWidth / renderedHeight in
  if originalAspectRatio >? containerAspectRatio then
    (renderedWidth, renderedWidth / originalAspectRatio)
  else
    (renderedHeight * originalAspectRatio, renderedHeight).

(** Lines 112-138: the vehicle position on the original image dimensions. *)
Definition finalXY (vehiclePosition : PinPosition num)
    (renderedWidth renderedHeight originalWidth originalHeight : num) : num * num :=
  let '(actualRenderedWidth, actualRenderedHeight) :=
    actualRendered renderedWidth renderedHeight originalWidth originalHeight in
  let paddingX := (renderedWidth - actualRenderedWidth) / lit 2 in
  let paddingY := (renderedHeight - actualRenderedHeight) / lit 2 in
  let pinXOnImage := pin_x vehiclePosition - paddingX in
  let pinYOnImage := pin_y vehiclePosition - paddingY in
  let relativeX := pinXOnImage / actualRenderedWidth in
  let relativeY := pinYOnImage / actualRenderedHeight in
  let finalX := relativeX * originalWidth in
  let finalY := relativeY * originalHeight in
  (finalX, finalY).

(** Lines 105-109 and 140-150: the canvas takes the size of the background,
    the background is drawn at the origin and the vehicle is drawn around
    the final position. *)
Definition compose (bgImg vehicleImg : Image num) (final : num * num)
    (vehicleScale : num) : Canvas num :=
  let '(finalX, finalY) := final in
  let vehicleDrawWidth := naturalWidth vehicleImg * vehicleScale in
  let vehicleDrawHeight := naturalHeight vehicleImg * vehicleScale in
  {| cv_width := naturalWidth bgImg;
     cv_height := naturalHeight bgImg;
     cv_ops :=
       [ DrawImage bgImg (lit 0) (lit 0) None;
         DrawImage vehicleImg
                   (finalX - vehicleDrawWidth / lit 2)
                   (finalY - vehicleDrawHeight / lit 2)
                   (Some (vehicleDrawWidth, vehicleDrawHeight)) ] |}.

(** How the [try] block of [handleGenerate] ends. *)
Inductive Attempt : Type :=
| Blended (canvas : Canvas num) (sent : FileInfo num) (result : string)
| BlendRejected (canvas : Canvas num) (sent : FileInfo num) (message : string)
| Threw (message : string)   (* before the canvas is exported *)
| Pending.                   (* an image never fires [onload] *)

(** Lines 90-163, the [try] block. *)
Definition generateAttempt (env : Browser num) (vehicleSrc : string)
    (backgroundScene : FileInfo num) (vehiclePosition : PinPosition num)
    (vehicleScale : num) : Attempt :=
  if negb (getContext2d env) then Threw "Could not create canvas context."
  else
    match decodeImage env (fi_base64 backgroundScene), decodeImage env vehicleSrc with
    | Some (originalWidth, originalHeight), Some (vehicleWidth, vehicleHeight) =>
        let bgImg := {| img_src := fi_base64 backgroundScene;
                        naturalWidth := originalWidth;
                        naturalHeight := originalHeight |} in
        let vehicleImg := {| img_src := vehicleSrc;
                             naturalWidth := vehicleWidth;
                             naturalHeight := vehicleHeight |} in
        match backgroundImageRef env with
        | None => Threw (nullRefMessage env)
        | Some renderedBg =>
            let final := finalXY vehiclePosition
                           (offsetWidth renderedBg) (offsetHeight renderedBg)
                           originalWidth originalHeight in
            let canvas := compose bgImg vehicleImg final vehicleScale in
            let compositeBase64 := toDataURL env canvas in
            let compositeFileInfo :=
              {| fi_name := "composite.png";
                 fi_type := "image/png";
                 fi_size := lit 0;
                 fi_base64 := compositeBase64;
                 fi_width := Some (cv_width canvas);
                 fi_height := Some (cv_height canvas) |} in
            match blendVehicleIntoScene env compositeFileInfo with
            | inl result => Blended canvas compositeFileInfo result
            | inr message => BlendRejected canvas compositeFileInfo message
            end
        end
    | _, _ => Pending
    end.

(** What one click on "Generate Image" leaves behind: the state, the
    composite that was exported (if any), the requests sent to the blend
    service, and whether the handler ran to its end. *)
Record GenerateRun : Type := {
  final_state : AppState num;
  composite : option (Canvas num);
  blendCalls : list (FileInfo num);
  settled : bool
}.

(** [extractedVehicle?.src] when it is truthy. *)
Definition vehicleSrcOf (st : AppState num) : option string :=
  match extractedVehicle st with
  | Some ev => if (ev_src ev =? "")%string then None else Some (ev_src ev)
  | None => None
  end.

Definition notReadyMessage : string :=
  "Please upload both images and place the vehicle on the scene.".

Definition handleGenerate (env : Browser num) (st : AppState num) : GenerateRun :=
  match vehicleSrcOf st, backgroundScene st, vehiclePosition st with
  | Some vehicleSrc, Some bg, Some pos =>
      let st := st |> setError None |> setIsLoading true |> setGeneratedImage None in
      match generateAttempt env vehicleSrc bg pos (vehicleScale st) with
      | Blended canvas sent result =>
          {| final_state := st |> setGeneratedImage (Some result) |> setIsLoading false;
             composite := Some canvas; blendCalls := [sent]; settled := true |}
      | BlendRejected canvas sent message =>
          {| final_state :=
               st |> setError (Some ("An error occurred during generation: " ++ message))
                  |> setIsLoading false;
             composite := Some canvas; blendCalls := [sent]; settled := true |}
      | Threw message =>
          {| final_state :=
               st |> setError (Some ("An error occurred during generation: " ++ message))
                  |> setIsLoading false;
             composite := None; blendCalls := []; settled := true |}
      | Pending =>
          {| final_state := st; composite := None; blendCalls := []; settled := false |}
      end
  | _, _, _ =>
      {| final_state := st |> setError (Some notReadyMessage);
         composite := None; blendCalls := []; settled := true |}
  end.

(** [isGenerateDisabled] *)
Definition isGenerateDisabled (st : AppState num) : bool :=
  match vehicleSrcOf st, backgroundScene st, vehiclePosition st with
  | Some _, Some _, Some _ => isLoading st
  | _, _, _ => true
  end.

(** The guard of [handleGenerate], as a test on the state. *)
Definition notReady (st : AppState num) : bool :=
  match vehicleSrcOf st, backgroundScene st, vehiclePosition st with
  | Some _, Some _, Some _ => false
  | _, _, _ => true
  end.

(** *** The mapping as the design document words it (section 4.1) *)

Definition spec_toNativeSpace (point : PinPosition num)
    (boxWidth boxHeight nativeWidth nativeHeight : num) : num * num :=
  let nativeAspect := nativeWidth / nativeHeight in
  let boxAspect := boxWidth / boxHeight in
  let renderedWidth :=
    if nativeAspect >? boxAspect then boxWidth else boxHeight * nativeAspect in
  let renderedHeight :=
    if nativeAspect >? boxAspect then boxWidth / nativeAspect else boxHeight in
  let paddingX := (boxWidth - renderedWidth) / lit 2 in
  let paddingY := (boxHeight - renderedHeight) / lit 2 in
  let imgX := pin_x point - paddingX in
  let imgY := pin_y point - paddingY in
  let relX := imgX / renderedWidth in
  let relY := imgY / renderedHeight in
  (relX * nativeWidth, relY * nativeHeight).

(** The rectangle covered by a draw: its top-left and bottom-right corners. *)
Definition drawRect (op : DrawOp num) : (num * num) * (num * num) :=
  match op with
  | DrawImage img dx dy (Some (dw, dh)) => ((dx, dy), (dx + dw, dy + dh))
  | DrawImage img dx dy None =>
      ((dx, dy), (dx + naturalWidth img, dy + naturalHeight img))
  end.

End App.

(** ** [ImageDisplay.tsx]: the depth hint *)

Section ImageDisplay.
Context {num : Type} `{JsNumber num}.
Local Open Scope js_scope.

(** The four tuning constants of the hint. *)
Record DepthConfig : Type := {
  minScale : num;
  maxScale : num;
  minRotation : num;
  maxRotation : num
}.

(** The values written in the source. *)
Definition defaultDepthConfig : DepthConfig :=
  {| minScale := lit 0.2;
     maxScale := lit 1.2;
     maxRotation := lit 75;  (* degrees, for items far away (top of screen) *)
     minRotation := lit 20   (* degrees, for items close up (bottom of screen) *)
  |}.

(** Lines 441-448 without line 443: scale and rotation from [relativeY]. *)
Definition estimateDepthWith (cfg : DepthConfig) (relativeY : num) : num * num :=
  let scale :=
    minScale cfg + (maxScale cfg - minScale cfg) * mathMin (mathMax relativeY (lit 0)) (lit 1) in
  let rotation :=
    maxRotation cfg - (maxRotation cfg - minRotation cfg) * relativeY in
  (scale, rotation).

Definition estimateDepth : num -> num * num := estimateDepthWith defaultDepthConfig.

(** The hint as the design document words it (section 4.2): [relativeY] is
    clamped to [0, 1] and both outputs interpolate on the clamped value. *)
Definition spec_estimateDepth (relativeY : num) : num * num :=
  let clamped := mathMin (mathMax relativeY (lit 0)) (lit 1) in
  (lit 0.2 + (lit 1.2 - lit 0.2) * clamped,
   lit 75 - (lit 75 - lit 20) * clamped).

(** The props of [ImageDisplay] the overlay depends on. *)
Record ImageDisplayProps : Type := {
  pinPosition : option (PinPosition num);
  isInteractive : bool;
  overlayDimensions : option (num * num);
  showOverlay : bool
}.

(** The computed part of [overlayStyle]. *)
Record OverlayStyle : Type := {
  ov_left : num;
  ov_top : num;
  ov_width : num;
  ov_height : num;
  ov_rotation : num;
  ov_scale : num
}.

(** Lines 435-462; [None] is [{ display: 'none' }]. *)
Definition overlayStyleWith (cfg : DepthConfig) (props : ImageDisplayProps)
    (imgDims : num * num) : option OverlayStyle :=
  match pinPosition props, overlayDimensions props with
  | Some pin, Some (overlayWidth, overlayHeight) =>
      if showOverlay props && (fst imgDims >? lit 0) && isInteractive props then
        let aspectRatio := overlayWidth / overlayHeight in
        let baseWidth := fst imgDims * lit 0.25 in
        let baseHeight := baseWidth / aspectRatio in
        let relativeY := pin_y pin / snd imgDims in
        let '(scale, rotation) := estimateDepthWith cfg relativeY in
        Some {| ov_left := pin_x pin; ov_top := pin_y pin;
                ov_width := baseWidth; ov_height := baseHeight;
                ov_rotation := rotation; ov_scale := scale |}
      else None
  | _, _ => None
  end.

Definition overlayStyle : ImageDisplayProps -> num * num -> option OverlayStyle :=
  overlayStyleWith defaultDepthConfig.

End ImageDisplay.

Arguments DepthConfig num : clear implicits.
Arguments ImageDisplayProps num : clear implicits.
Arguments OverlayStyle num : clear implicits.

(** ** [ImageUploader.tsx] *)

Section ImageUploader.
Context {num : Type}.
Local Open Scope string_scope.

(** What [handleFile] does to the outside, in order. *)
Inductive UploaderEffect : Type :=
| ReadAsDataURL (file : File num)
| LoadImage (src : string)
| OnImageUpload (fileInfo : FileInfo num).

(** Lines 15-36.  The argument is [None] for a null or undefined file. *)
Definition handleFile (env : Browser num) (file : option (File num))
    : list UploaderEffect :=
  match file with
  | Some file =>
      if String.prefix "image/" (file_type file) then
        ReadAsDataURL file ::
        match readAsDataURL env file with
        | Some base64 =>
            LoadImage base64 ::
            match decodeImage env base64 with
            | Some (imgNaturalWidth, imgNaturalHeight) =>
                [ OnImageUpload
                    {| fi_name := file_name file;
                       fi_type := file_type file;
                       fi_size := file_size file;
                       fi_base64 := base64;
                       fi_width := Some imgNaturalWidth;
                       fi_height := Some imgNaturalHeight |} ]
            | None => []
            end
        | None => []
        end
      else []
  | None => []
  end.

(** The calls of [onImageUpload] among the effects. *)
Fixpoint uploads (effects : list UploaderEffect) : list (FileInfo num) :=
  match effects with
  | [] => []
  | OnImageUpload fileInfo :: rest => fileInfo :: uploads rest
  | _ :: rest => uploads rest
  end.

End ImageUploader.

Arguments UploaderEffect num : clear implicits.

(** ** The page as a whole *)

Section Page.
Context {num : Type} `{JsNumber num}.

(** Everything a render of the page depends on: the browser, the state of
    [App], and the configuration and inputs of the depth hint. *)
Record Page : Type := {
  pg_browser : Browser num;
  pg_app : AppState num;
  pg_depth : DepthConfig num;
  pg_display : ImageDisplayProps num;
  pg_imgDims : num * num
}.

Definition pageHint (pg : Page) : option (OverlayStyle num) :=
  overlayStyleWith (pg_depth pg) (pg_display pg) (pg_imgDims pg).

Definition pageGenerate (pg : Page) : GenerateRun :=
  handleGenerate (pg_browser pg) (pg_app pg).

(** The four arguments of the compositing step, when the state and the
    browser provide them: decoded background, decoded foreground, the
    anchor in native coordinates, and the user scale. *)
Definition composeInputs (env : Browser num) (st : AppState num)
    : option (Image num * Image num * (num * num) * num) :=
  match vehicleSrcOf st, backgroundScene st, vehiclePosition st, backgroundImageRef env with
  | Some vehicleSrc, Some bg, Some pos, Some renderedBg =>
      match decodeImage env (fi_base64 bg), decodeImage env vehicleSrc with
      | Some (originalWidth, originalHeight), Some (vehicleWidth, vehicleHeight) =>
          Some ({| img_src := fi_base64 bg; naturalWidth := originalWidth;
                   naturalHeight := originalHeight |},
                {| img_src := vehicleSrc; naturalWidth := vehicleWidth;
                   naturalHeight := vehicleHeight |},
                finalXY pos (offsetWidth renderedBg) (offsetHeight renderedBg)
                        originalWidth originalHeight,
                vehicleScale st)
      | _, _ => None
      end
  | _, _, _, _ => None
  end.

End Page.

Arguments Page num : clear implicits.
Arguments GenerateRun num : clear implicits.
Arguments Attempt num : clear implicits.

(** Componentwise equality of rational points. *)
Definition Qeq2 (p q : Q * Q) : Prop := fst p == fst q /\ snd p == snd q.

(** The error kinds of the design document (section 7). *)
Inductive ErrorKind : Type :=
| ImageNotReady
| NoAnchor
| ExternalServiceFailure
| DecodeFailure.

(** ** A concrete page, on binary64 *)

Module Demo.
Local Open Scope float_scope.
Local Open Scope string_scope.

(** A 400x400 box around the background image. *)
Definition box : Element float :=
  {| offsetWidth := 400; offsetHeight := 400; rect_left := 0; rect_top := 0 |}.

(** The background decodes to 1000x500, the cutout to 200x100. *)
Definition decode (src : string) : option (float * float) :=
  if src =? "data:bg" then Some (1000, 500)%float
  else if src =? "data:car" then Some (200, 100)%float
  else None.

Definition browser : Browser float :=
  {| backgroundImageRef := Some box;
     backgroundContainerRef := Some box;
     getContext2d := true;
     decodeImage := decode;
     toDataURL := fun _ => "data:composite";
     nullRefMessage := "Cannot destructure property 'offsetWidth' of null";
     extractVehicle := fun _ => inl "data:car";
     blendVehicleIntoScene := fun _ => inl "data:blend";
     readAsDataURL := fun f => Some ("data:" ++ file_name f) |}.

Definition subject : FileInfo float :=
  {| fi_name := "car.jpg"; fi_type := "image/jpeg"; fi_size := 1000;
     fi_base64 := "data:photo"; fi_width := Some 640%float; fi_height := Some 480%float |}.

Definition background : FileInfo float :=
  {| fi_name := "bg.jpg"; fi_type := "image/jpeg"; fi_size := 2000;
     fi_base64 := "data:bg"; fi_width := Some 1000%float; fi_height := Some 500%float |}.

Definition car : ExtractedVehicle float :=
  {| ev_src := "data:car"; ev_width := 200; ev_height := 100 |}.

(** Both images are there, the vehicle is dropped on the centre of the box
    and the scale slider stands at 1. *)
Definition placed : AppState float :=
  {| subjectVehicle := Some subject; backgroundScene := Some background;
     isExtracting := false; extractedVehicle := Some car;
     vehiclePosition := Some {| pin_x := 200; pin_y := 200 |};
     vehicleScale := 1;
     generatedImage := None; isLoading := false; error := None |}.

(** The same without a placement. *)
Definition noAnchor : AppState float := setVehiclePosition None placed.

(** A placement, but no extracted vehicle. *)
Definition noForeground : AppState float := setExtractedVehicle None placed.

(** A file that is not an image. *)
Definition textFile : File float :=
  {| file_name := "notes.txt"; file_type := "text/plain"; file_size := 12 |}.

Definition photoFile : File float :=
  {| file_name := "bg"; file_type := "image/png"; file_size := 2000 |}.

(** The decoded images of the page. *)
Definition bgImage : Image float :=
  {| img_src := "data:bg"; naturalWidth := 1000; naturalHeight := 500 |}.

Definition carImage : Image float :=
  {| img_src := "data:car"; naturalWidth := 200; naturalHeight := 100 |}.

Definition display : ImageDisplayProps float :=
  {| pinPosition := Some {| pin_x := 200; pin_y := 200 |};
     isInteractive := true;
     overlayDimensions := Some (200, 100)%float;
     showOverlay := true |}.

Definition page : Page float :=
  {| pg_browser := browser; pg_app := placed;
     pg_depth := defaultDepthConfig;
     pg_display := display;
     pg_imgDims := (400, 400)%float |}.

(** The same page with the hint retuned, its overlay measured on another
    image size, and a stale error message in the state. *)
Definition retuned : Page float :=
  {| pg_browser := browser;
     pg_app := setError (Some "stale") placed;
     pg_depth := {| minScale := 0.5; maxScale := 2; minRotation := 0;
                    maxRotation := 90 |};
     pg_display := display;
     pg_imgDims := (400, 300)%float |}.

(** The same browser when no image ever fires [onload]. *)
Definition stalled : Browser float :=
  {| backgroundImageRef := Some box;
     backgroundContainerRef := Some box;
     getContext2d := true;
     decodeImage := fun _ => None;
     toDataURL := fun _ => "data:composite";
     nullRefMessage := "Cannot destructure property 'offsetWidth' of null";
     extractVehicle := fun _ => inl "data:car";
     blendVehicleIntoScene := fun _ => inl "data:blend";
     readAsDataURL := fun f => Some ("data:" ++ file_name f) |}.

(** What [handleGenerate] draws on [page]. *)
Definition canvas : Canvas float :=
  {| cv_width := 1000; cv_height := 500;
     cv_ops := [ DrawImage bgImage 0 0 None;
                 DrawImage carImage 400 200 (Some (200, 100)%float) ] |}.

End Demo.

(** ** [ImageUploader.tsx]: the drop zone *)

Section DropZone.
Context {num : Type}.

(** What reaches the drop zone, with the files the event carries ([None]
    when the file list itself is missing). *)
Inductive UploaderEvent : Type :=
| DragEnter
| DragLeave
| DragOver
| DropFiles (files : option (list (File num)))
| FileChange (files : option (list (File num))).

(** [files && files[0]], handed to [handleFile]. *)
Definition firstFile (files : option (list (File num))) : option (File num) :=
  match files with
  | Some (file :: _) => Some file
  | _ => None
  end.

(** Lines 38-72: the new value of [isDragging] and the effects of the
    handler of each event. *)
Definition uploaderHandle (env : Browser num) (isDragging : bool)
    (event : UploaderEvent) : bool * list (UploaderEffect num) :=
  match event with
  | DragEnter => (true, [])
  | DragLeave => (false, [])
  | DragOver => (isDragging, [])
  | DropFiles files =>
      (false,
       match firstFile files with
       | Some file => handleFile env (Some file)
       | None => []
       end)
  | FileChange files =>
      (isDragging,
       match firstFile files with
       | Some file => handleFile env (Some file)
       | None => []
       end)
  end.

(** A session at the drop zone: the events in order, from [isDragging]. *)
Fixpoint uploaderRun (env : Browser num) (isDragging : bool)
    (events : list UploaderEvent) : bool * list (UploaderEffect num) :=
  match events with
  | [] => (isDragging, [])
  | event :: rest =>
      let '(isDragging, effects) := uploaderHandle env isDragging event in
      let '(isDragging, later) := uploaderRun env isDragging rest in
      (isDragging, effects ++ later)
  end.

(** The files an event hands over, all of them. *)
Definition eventFiles (event : UploaderEvent) : list (File num) :=
  match event with
  | DropFiles (Some files) | FileChange (Some files) => files
  | _ => []
  end.

(** An event with every file but the first removed. *)
Definition firstOnly (event : UploaderEvent) : UploaderEvent :=
  match event with
  | DropFiles (Some (file :: _)) => DropFiles (Some [file])
  | FileChange (Some (file :: _)) => FileChange (Some [file])
  | other => other
  end.

(** Does the event hand over a file at all? *)
Definition carriesFile (event : UploaderEvent) : bool :=
  match event with
  | DropFiles (Some (_ :: _)) | FileChange (Some (_ :: _)) => true
  | _ => false
  end.

End DropZone.

Arguments UploaderEvent num : clear implicits.

(** ** [DirectionalPad.tsx] *)

Section DirectionalPad.
Local Open Scope string_scope.

Record Direction : Type := {
  dir_label : string;
  dir_rotation : string;
  dir_position : string
}.

(** Lines 108-117, as written. *)
Definition directions : list Direction :=
  [ {| dir_label := "facing opposite"; dir_rotation := "rotate-0";
       dir_position := "col-start-2 row-start-1" |};
    {| dir_label := "135 degree back right quarter"; dir_rotation := "rotate-45";
       dir_position := "col-start-3 row-start-1" |};
    {| dir_label := "facing right"; dir_rotation := "rotate-90";
       dir_position := "col-start-3 row-start-2" |};
    {| dir_label := "45 degree right"; dir_rotation := "rotate-135";
       dir_position := "col-start-3 row-start-3" |};
    {| dir_label := "facing strait forward"; dir_rotation := "rotate-180";
       dir_position := "col-start-2 row-start-3" |};
    {| dir_label := "45 left"; dir_rotation := "-rotate-135";
       dir_position := "col-start-1 row-start-3" |};
    {| dir_label := "facing left"; dir_rotation := "-rotate-90";
       dir_position := "col-start-1 row-start-2" |};
    {| dir_label := "135 degree back left quarter"; dir_rotation := "-rotate-45";
       dir_position := "col-start-1 row-start-1" |} ].

(** One rendered button: its React key, the argument its click passes to
    [onSelectDirection], and its accessibility attributes. *)
Record PadButton : Type := {
  btn_key : string;
  btn_click : string;
  btn_ariaLabel : string;
  btn_ariaPressed : bool;
  btn_position : string;
  btn_rotation : string
}.

(** [selectedDirection === dir.label], the selection being a string or null. *)
Definition isSelected (selectedDirection : option string) (dir : Direction) : bool :=
  match selectedDirection with
  | Some selected => selected =? dir_label dir
  | None => false
  end.

(** Lines 119-141. *)
Definition DirectionalPad (selectedDirection : option string) : list PadButton :=
  map (fun dir =>
         {| btn_key := dir_label dir;
            btn_click := dir_label dir;
            btn_ariaLabel := "Set direction to " ++ dir_label dir;
            btn_ariaPressed := isSelected selectedDirection dir;
            btn_position := dir_position dir;
            btn_rotation := dir_rotation dir |})
      directions.

(** The buttons shown as pressed. *)
Definition pressedButtons (selectedDirection : option string) : list PadButton :=
  filter btn_ariaPressed (DirectionalPad selectedDirection).

End DirectionalPad.

(** ** [ImageDisplay.tsx]: setting the pin *)

(** [Math.round]: the nearest integer, a tie going up. *)
Class JsRound (num : Type) : Type := {
  mathRound : num -> num
}.

Section SetPin.
Context {num : Type} `{JsNumber num} `{JsRound num}.
Local Open Scope js_scope.

(** Lines 423-433: the argument of [onSetPin], when it is called.
    [hasOnSetPin] tells whether the optional prop is given; [rect] is the
    bounding rectangle of the image. *)
Definition handleImageClick (hasOnSetPin isInteractive : bool)
    (clientX clientY : num) (rect : Element num) : option (PinPosition num) :=
  if negb hasOnSetPin || negb isInteractive then None
  else
    let x := clientX - rect_left rect in
    let y := clientY - rect_top rect in
    let pinX := mathRound x in
    let pinY := mathRound y in
    Some {| pin_x := pinX; pin_y := pinY |}.

End SetPin.

(** ** [App.tsx] on the event loop

    The handlers of [App] are asynchronous: between the click on "Generate
    Image" and the answer of the blend service, or between an upload and
    the decoded cutout, other handlers run.  Here every callback that the
    event loop runs to completion is one step.  A step reads the browser as
    it is at that moment; the two refs are set exactly while the composition
    view is rendered. *)

Section EventLoop.
Context {num : Type} `{JsNumber num}.
Local Open Scope string_scope.

(** The two [ImageUploader]s of the upload view. *)
Inductive Slot : Type := SubjectSlot | BackgroundSlot.

(** Where a suspended [handleGenerate] waits: at the [Promise.all] of the
    two image loads, or at the call of the blend service, with the canvas
    it exported and the file it sent. *)
Inductive Stage : Type :=
| AwaitingImages
| AwaitingBlend (canvas : Canvas num) (sent : FileInfo num).

(** A suspended [handleGenerate]: the state its closure captured at the
    click, and where it waits. *)
Record Generation : Type := {
  gen_src : string;
  gen_bg : FileInfo num;
  gen_pos : PinPosition num;
  gen_scale : num;
  gen_stage : Stage
}.

(** The state of [App] with what is in flight: uploads read but not yet
    handed over, calls of the extraction service, cutouts that load, and
    suspended [handleGenerate]s. *)
Record System : Type := {
  app : AppState num;
  reads : list (Slot * FileInfo num);
  extractions : list (FileInfo num);
  cutouts : list string;
  generations : list Generation
}.

Definition initialSystem : System :=
  {| app := initialState; reads := []; extractions := []; cutouts := [];
     generations := [] |}.

(** Line 176: the composition view is rendered, and with it the drop target
    and the two refs, once both files are there. *)
Definition mounted (st : AppState num) : bool :=
  match subjectVehicle st, backgroundScene st with
  | Some _, Some _ => true
  | _, _ => false
  end.

(** Lines 180-213: each uploader is rendered while its file is missing. *)
Definition uploaderRendered (slot : Slot) (st : AppState num) : bool :=
  match slot with
  | SubjectSlot => match subjectVehicle st with None => true | Some _ => false end
  | BackgroundSlot => match backgroundScene st with None => true | Some _ => false end
  end.

(** Line 263: the draggable vehicle and the size slider. *)
Definition sliderRendered (st : AppState num) : bool :=
  mounted st && match extractedVehicle st with Some _ => true | None => false end.

Definition isSome {A : Type} (o : option A) : bool :=
  match o with Some _ => true | None => false end.

(** The refs point to elements exactly while the composition view is
    rendered. *)
Definition refsConsistent (env : Browser num) (st : AppState num) : bool :=
  Bool.eqb (isSome (backgroundImageRef env)) (mounted st)
  && Bool.eqb (isSome (backgroundContainerRef env)) (mounted st).

(** The [n]-th element of a list, and the list without it. *)
Fixpoint pluck {A : Type} (n : nat) (l : list A) : option (A * list A) :=
  match l, n with
  | [], _ => None
  | x :: rest, O => Some (x, rest)
  | x :: rest, S n' =>
      match pluck n' rest with
      | Some (y, rest') => Some (y, x :: rest')
      | None => None
      end
  end.

(** Lines 28-32: [handleSubjectUpload] up to its [await]. *)
Definition subjectUploadStarts (fileInfo : FileInfo num) (st : AppState num)
    : AppState num :=
  st |> setSubjectVehicle (Some fileInfo) |> setExtractedVehicle None
     |> setGeneratedImage None |> setError None |> setIsExtracting true.

(** Lines 165-170: the [catch] and [finally] of [handleGenerate]. *)
Definition generationFails (message : string) (st : AppState num) : AppState num :=
  st |> setError (Some ("An error occurred during generation: " ++ message))
     |> setIsLoading false.

(** Lines 80-92: [handleGenerate] from the guard to its [await]; the second
    component is the suspended activation, if it gets that far. *)
Definition generateStarts (env : Browser num) (st : AppState num)
    : AppState num * option Generation :=
  match vehicleSrcOf st, backgroundScene st, vehiclePosition st with
  | Some vehicleSrc, Some bg, Some pos =>
      let st' := st |> setError None |> setIsLoading true |> setGeneratedImage None in
      if negb (getContext2d env) then
        (generationFails "Could not create canvas context." st', None)
      else
        (st', Some {| gen_src := vehicleSrc; gen_bg := bg; gen_pos := pos;
                      gen_scale := vehicleScale st;
                      gen_stage := AwaitingImages |})
  | _, _, _ => (st |> setError (Some notReadyMessage), None)
  end.

(** Lines 105-162: [handleGenerate] from the loaded images to the call of
    the blend service.  [None] while an image has not loaded; otherwise the
    message of the error thrown, or the canvas and the file sent. *)
Definition generateResumes (env : Browser num) (g : Generation)
    : option (string + Canvas num * FileInfo num) :=
  match decodeImage env (fi_base64 (gen_bg g)), decodeImage env (gen_src g) with
  | Some (originalWidth, originalHeight), Some (vehicleWidth, vehicleHeight) =>
      let bgImg := {| img_src := fi_base64 (gen_bg g);
                      naturalWidth := originalWidth;
                      naturalHeight := originalHeight |} in
      let vehicleImg := {| img_src := gen_src g;
                           naturalWidth := vehicleWidth;
                           naturalHeight := vehicleHeight |} in
      match backgroundImageRef env with
      | None => Some (inl (nullRefMessage env))
      | Some renderedBg =>
          let final := finalXY (gen_pos g)
                         (offsetWidth renderedBg) (offsetHeight renderedBg)
                         originalWidth originalHeight in
          let canvas := compose bgImg vehicleImg final (gen_scale g) in
          Some (inr (canvas,
                     {| fi_name := "composite.png";
                        fi_type := "image/png";
                        fi_size := lit 0;
                        fi_base64 := toDataURL env canvas;
                        fi_width := Some (cv_width canvas);
                        fi_height := Some (cv_height canvas) |}))
      end
  | _, _ => None
  end.

(** What the event loop may run next. *)
Inductive Event : Type :=
| Pick (slot : Slot) (file : File num)  (* a file is chosen in an uploader *)
| Deliver (n : nat)                     (* [onImageUpload] of a read *)
| ExtractionSettles (n : nat)           (* [extractVehicle] answers *)
| CutoutLoads (n : nat)                 (* [img.onload] of a cutout *)
| DropVehicle (vehicleId : string) (clientX clientY : num)
| Slide (value : num)                   (* the size slider changes *)
| ClickGenerate
| ImagesLoad (n : nat)                  (* both loads of a generation *)
| BlendSettles (n : nat).               (* [blendVehicleIntoScene] answers *)

(** One step of the event loop; [None] when the event cannot occur: its
    element is not rendered, the button is disabled, or nothing of the kind
    is in flight. *)
Definition step (env : Browser num) (event : Event) (sys : System) : option System :=
  if negb (refsConsistent env (app sys)) then None
  else
    match event with
    | Pick slot file =>
        if uploaderRendered slot (app sys) then
          Some {| app := app sys;
                  reads := reads sys ++ map (pair slot) (uploads (handleFile env (Some file)));
                  extractions := extractions sys; cutouts := cutouts sys;
                  generations := generations sys |}
        else None
    | Deliver n =>
        match pluck n (reads sys) with
        | Some ((SubjectSlot, fileInfo), rest) =>
            Some {| app := subjectUploadStarts fileInfo (app sys);
                    reads := rest;
                    extractions := extractions sys ++ [fileInfo];
                    cutouts := cutouts sys; generations := generations sys |}
        | Some ((BackgroundSlot, fileInfo), rest) =>
            Some {| app := handleBackgroundUpload fileInfo (app sys);
                    reads := rest;
                    extractions := extractions sys; cutouts := cutouts sys;
                    generations := generations sys |}
        | None => None
        end
    | ExtractionSettles n =>
        match pluck n (extractions sys) with
        | Some (fileInfo, rest) =>
            match extractVehicle env fileInfo with
            | inl resultSrc =>
                Some {| app := app sys |> setIsExtracting false;
                        reads := reads sys; extractions := rest;
                        cutouts := cutouts sys ++ [resultSrc];
                        generations := generations sys |}
            | inr message =>
                Some {| app := app sys
                               |> setError (Some ("Failed to extract vehicle: " ++ message))
                               |> setIsExtracting false;
                        reads := reads sys; extractions := rest;
                        cutouts := cutouts sys; generations := generations sys |}
            end
        | None => None
        end
    | CutoutLoads n =>
        match pluck n (cutouts sys) with
        | Some (resultSrc, rest) =>
            match decodeImage env resultSrc with
            | Some (imgNaturalWidth, imgNaturalHeight) =>
                Some {| app := app sys
                               |> setExtractedVehicle
                                    (Some {| ev_src := resultSrc;
                                             ev_width := imgNaturalWidth;
                                             ev_height := imgNaturalHeight |})
                               |> setVehicleScale (baseScale env imgNaturalWidth);
                        reads := reads sys; extractions := extractions sys;
                        cutouts := rest; generations := generations sys |}
            | None => None
            end
        | None => None
        end
    | DropVehicle vehicleId clientX clientY =>
        if mounted (app sys) then
          Some {| app := handleVehicleDrop env vehicleId clientX clientY (app sys);
                  reads := reads sys; extractions := extractions sys;
                  cutouts := cutouts sys; generations := generations sys |}
        else None
    | Slide value =>
        if sliderRendered (app sys) then
          Some {| app := app sys |> setVehicleScale value;
                  reads := reads sys; extractions := extractions sys;
                  cutouts := cutouts sys; generations := generations sys |}
        else None
    | ClickGenerate =>
        if isGenerateDisabled (app sys) then None
        else
          let '(st, suspended) := generateStarts env (app sys) in
          Some {| app := st;
                  reads := reads sys; extractions := extractions sys;
                  cutouts := cutouts sys;
                  generations :=
                    generations sys ++
                    match suspended with Some g => [g] | None => [] end |}
    | ImagesLoad n =>
        match pluck n (generations sys) with
        | Some (g, rest) =>
            match gen_stage g, generateResumes env g with
            | AwaitingImages, Some (inl message) =>
                Some {| app := generationFails message (app sys);
                        reads := reads sys; extractions := extractions sys;
                        cutouts := cutouts sys; generations := rest |}
            | AwaitingImages, Some (inr (canvas, sent)) =>
                Some {| app := app sys;
                        reads := reads sys; extractions := extractions sys;
                        cutouts := cutouts sys;
                        generations :=
                          rest ++ [ {| gen_src := gen_src g; gen_bg := gen_bg g;
                                       gen_pos := gen_pos g; gen_scale := gen_scale g;
                                       gen_stage := AwaitingBlend canvas sent |} ] |}
            | _, _ => None
            end
        | None => None
        end
    | BlendSettles n =>
        match pluck n (generations sys) with
        | Some (g, rest) =>
            match gen_stage g with
            | AwaitingBlend canvas sent =>
                match blendVehicleIntoScene env sent with
                | inl result =>
                    Some {| app := app sys |> setGeneratedImage (Some result)
                                           |> setIsLoading false;
                            reads := reads sys; extractions := extractions sys;
                            cutouts := cutouts sys; generations := rest |}
                | inr message =>
                    Some {| app := generationFails message (app sys);
                            reads := reads sys; extractions := extractions sys;
                            cutouts := cutouts sys; generations := rest |}
                end
            | AwaitingImages => None
            end
        | None => None
        end
    end.

(** A run of the event loop: the events in order, each with the browser as
    it is when the event occurs. *)
Fixpoint run (trace : list (Browser num * Event)) (sys : System) : option System :=
  match trace with
  | [] => Some sys
  | (env, event) :: rest =>
      match step env event sys with
      | Some sys' => run rest sys'
      | None => None
      end
  end.

(** The states the page can be in. *)
Inductive Reachable : System -> Prop :=
| reach_initial : Reachable initialSystem
| reach_step (env : Browser num) (event : Event) (sys sys' : System) :
    Reachable sys -> step env event sys = Some sys' -> Reachable sys'.

(** The messages [App] can show: none, or one of its two [catch] clauses. *)
Definition caughtError (e : option string) : Prop :=
  match e with
  | None => True
  | Some text =>
      exists message : string,
        text = "Failed to extract vehicle: " ++ message
        \/ text = "An error occurred during generation: " ++ message
  end.

(** What every state of the page satisfies. *)
Definition Invariant (sys : System) : Prop :=
  (* a cutout, in flight or arrived, belongs to an uploaded subject *)
  (extractions sys <> [] \/ cutouts sys <> [] \/ extractedVehicle (app sys) <> None ->
   subjectVehicle (app sys) <> None)
  (* an anchor exists only in the composition view *)
  /\ (vehiclePosition (app sys) <> None -> mounted (app sys) = true)
  (* so does a suspended handleGenerate *)
  /\ (generations sys <> [] -> mounted (app sys) = true)
  (* at most one handleGenerate is suspended, and isLoading tells *)
  /\ (length (generations sys) <= 1)%nat
  /\ (isLoading (app sys) = true <-> generations sys <> [])
  (* the extraction overlay shows only while an extraction is in flight *)
  /\ (isExtracting (app sys) = true -> extractions sys <> [])
  /\ caughtError (error (app sys)).

(** One of the two images of a suspended [handleGenerate] has not loaded. *)
Definition waitsForImages (env : Browser num) (g : Generation) : Prop :=
  decodeImage env (fi_base64 (gen_bg g)) = None \/ decodeImage env (gen_src g) = None.

(** The composites in flight at the blend service. *)
Definition sentComposites (sys : System) : list (Canvas num) :=
  flat_map (fun g => match gen_stage g with
                     | AwaitingBlend canvas _ => [canvas]
                     | AwaitingImages => []
                     end)
           (generations sys).

End EventLoop.

Arguments System num : clear implicits.
Arguments Generation num : clear implicits.
Arguments Event num : clear implicits.
Arguments Stage num : clear implicits.

(** ** A visit of the page, step by step *)

Module Tour.
Local Open Scope float_scope.
Local Open Scope string_scope.

(** The browser while the upload view is shown: no ref is set. *)
Definition upload : Browser float :=
  {| backgroundImageRef := None;
     backgroundContainerRef := None;
     getContext2d := true;
     decodeImage := Demo.decode;
     toDataURL := fun _ => "data:composite";
     nullRefMessage := "Cannot destructure property 'offsetWidth' of null";
     extractVehicle := fun _ => inl "data:car";
     blendVehicleIntoScene := fun _ => inl "data:blend";
     readAsDataURL := fun f => Some ("data:" ++ file_name f) |}.

(** The browser while the composition view is shown. *)
Definition studio : Browser float := Demo.browser.

(** The studio when the extraction service and the blend service refuse. *)
Definition refusing : Browser float :=
  {| backgroundImageRef := Some Demo.box;
     backgroundContainerRef := Some Demo.box;
     getContext2d := true;
     decodeImage := Demo.decode;
     toDataURL := fun _ => "data:composite";
     nullRefMessage := "Cannot destructure property 'offsetWidth' of null";
     extractVehicle := fun _ => inr "quota exceeded";
     blendVehicleIntoScene := fun _ => inr "quota exceeded";
     readAsDataURL := fun f => Some ("data:" ++ file_name f) |}.

Definition carFile : File float :=
  {| file_name := "car"; file_type := "image/png"; file_size := 1000 |}.

(** Both files are chosen and handed over, the cutout arrives, and the
    vehicle is dropped on the centre of the box. *)
Definition arrive : list (Browser float * Event float) :=
  [ (upload, Pick SubjectSlot carFile);
    (upload, Deliver 0);
    (upload, Pick BackgroundSlot Demo.photoFile);
    (upload, Deliver 0);
    (studio, ExtractionSettles 0);
    (studio, CutoutLoads 0);
    (studio, DropVehicle "extracted-vehicle" 200 200) ].

Definition after (trace : list (Browser float * Event float)) (sys : System float)
    : System float :=
  match run trace sys with
  | Some sys' => sys'
  | None => sys
  end.

(** The page with the vehicle placed. *)
Definition ready : System float :=
  Eval vm_compute in after arrive initialSystem.

(** ... after the click on "Generate Image". *)
Definition waiting : System float :=
  Eval vm_compute in after [ (studio, ClickGenerate) ] ready.

(** ... after both images have loaded. *)
Definition blending : System float :=
  Eval vm_compute in after [ (studio, ImagesLoad 0) ] waiting.

(** ... after the blend service has answered. *)
Definition done : System float :=
  Eval vm_compute in after [ (studio, BlendSettles 0) ] blending.

(** The background as the uploader hands it over. *)
Definition backdrop : FileInfo float :=
  {| fi_name := "bg"; fi_type := "image/png"; fi_size := 2000;
     fi_base64 := "data:bg"; fi_width := Some 1000; fi_height := Some 500 |}.

(** The suspended [handleGenerate] of [waiting]. *)
Definition suspended : Generation float :=
  {| gen_src := "data:car"; gen_bg := backdrop;
     gen_pos := {| pin_x := 200; pin_y := 200 |};
     gen_scale := 0.5;
     gen_stage := AwaitingImages |}.

(** The upload view on exact rationals: nothing is laid out. *)
Definition uploadQ : Browser Q :=
  {| backgroundImageRef := None;
     backgroundContainerRef := None;
     getContext2d := true;
     decodeImage := fun src => if src =? "data:car" then Some (200, 100)%Q else None;
     toDataURL := fun _ => "data:composite";
     nullRefMessage := "Cannot destructure property 'offsetWidth' of null";
     extractVehicle := fun _ => inl "data:car";
     blendVehicleIntoScene := fun _ => inl "data:blend";
     readAsDataURL := fun f => Some ("data:" ++ file_name f) |}.

(** While [waiting], in a browser where no image loads, the user moves the
    slider and drops the vehicle elsewhere. *)
Definition fiddle : list (Browser float * Event float) :=
  [ (Demo.stalled, Slide 2); (Demo.stalled, DropVehicle "extracted-vehicle" 10 10) ].

Definition stuck : System float :=
  Eval vm_compute in after fiddle waiting.

(** The vehicle first: its cutout arrives while the upload view is still
    shown; then the background is chosen and the vehicle is dropped on the
    centre of the box. *)
Definition subjectFirst : list (Browser float * Event float) :=
  [ (upload, Pick SubjectSlot carFile);
    (upload, Deliver 0);
    (upload, ExtractionSettles 0);
    (upload, CutoutLoads 0);
    (upload, Pick BackgroundSlot Demo.photoFile);
    (upload, Deliver 0);
    (studio, DropVehicle "extracted-vehicle" 200 200) ].

Definition early : System float :=
  Eval vm_compute in after subjectFirst initialSystem.

(** The page of [arrive] when the extraction service has answered, and
    when the cutout has loaded. *)
Definition settled : System float :=
  Eval vm_compute in after (firstn 5 arrive) initialSystem.

Definition cut : System float :=
  Eval vm_compute in after [ (studio, CutoutLoads 0) ] settled.

(** A studio whose background image is laid out 1000 pixels wide, and where
    the extraction service answers with a 93x41 cutout. *)
Definition wideBox : Element float :=
  {| offsetWidth := 1000; offsetHeight := 500; rect_left := 0; rect_top := 0 |}.

Definition gallery : Browser float :=
  {| backgroundImageRef := Some wideBox;
     backgroundContainerRef := Some wideBox;
     getContext2d := true;
     decodeImage := fun src =>
       if src =? "data:bg" then Some (1000, 500)%float
       else if src =? "data:car" then Some (93, 41)%float
       else None;
     toDataURL := fun _ => "data:composite";
     nullRefMessage := "Cannot destructure property 'offsetWidth' of null";
     extractVehicle := fun _ => inl "data:car";
     blendVehicleIntoScene := fun _ => inl "data:blend";
     readAsDataURL := fun f => Some ("data:" ++ file_name f) |}.

(** Upload in the gallery, new background, drop at (500, 250). *)
Definition hung : AppState float :=
  handleVehicleDrop gallery "extracted-vehicle" 500 250
    (handleBackgroundUpload Demo.background
       (handleSubjectUpload gallery Demo.subject initialState)).

(** What [handleGenerate] draws for [hung]. *)
Definition hungCanvas : Canvas float :=
  Eval vm_compute in
    match composite (handleGenerate gallery hung) with
    | Some canvas => canvas
    | None => {| cv_width := 0; cv_height := 0; cv_ops := [] |}
    end.

(** The overlay props of a pin at (100, 50) for a 93x41 vehicle. *)
Definition hint : ImageDisplayProps float :=
  {| pinPosition := Some {| pin_x := 100; pin_y := 50 |};
     isInteractive := true;
     overlayDimensions := Some (93, 41)%float;
     showOverlay := true |}.

(** The bounding rectangle of an image that starts a little to the right
    of half a pixel. *)
Definition nudged : Element float :=
  {| offsetWidth := 400; offsetHeight := 200;
     rect_left := 0x1.0000000000001p-1; rect_top := 0 |}.

(** A drop of two files, the picture first. *)
Definition twoFiles : list (UploaderEvent float) :=
  [ DragEnter; DropFiles (Some [Demo.photoFile; Demo.textFile]) ].

(** The button of the pad that points straight forward. *)
Definition forwardButton : PadButton :=
  {| btn_key := "facing strait forward";
     btn_click := "facing strait forward";
     btn_ariaLabel := "Set direction to facing strait forward";
     btn_ariaPressed := false;
     btn_position := "col-start-2 row-start-3";
     btn_rotation := "rotate-180" |}.

End Tour.

(** ** binary64 numbers, read as rationals

    The handlers compute with binary64.  To state how far a computed
    coordinate is from the one intended, a finite binary64 number is read
    as the rational number it stands for. *)

Section Binary64.
Local Open Scope Q_scope.

(** The value of a finite number; 0 for the zeros, and for the infinities
    and NaN, which [SFfinite] tells apart. *)
Definition SF2Q (f : spec_float) : Q :=
  match f with
  | S754_finite s m e =>
      if s then - (inject_Z (Zpos m) * 2 ^ e) else inject_Z (Zpos m) * 2 ^ e
  | _ => 0
  end.

Definition SFfinite (f : spec_float) : bool :=
  match f with
  | S754_zero _ | S754_finite _ _ _ => true
  | _ => false
  end.

Definition F2Q (x : float) : Q := SF2Q (Prim2SF x).
Definition finite (x : float) : bool := SFfinite (Prim2SF x).

Definition sgnQ (s : bool) : Q := if s then -1 else 1.

(** Where [X] lies in the unit interval that starts at the integer [m]. *)
Definition located (m : Z) (l : location) (X : Q) : Prop :=
  match l with
  | loc_Exact => X == inject_Z m
  | loc_Inexact Lt => inject_Z m < X /\ X < inject_Z m + (1 # 2)
  | loc_Inexact Eq => X == inject_Z m + (1 # 2)
  | loc_Inexact Gt => inject_Z m + (1 # 2) < X /\ X < inject_Z m + 1
  end.

Definition encodes (mrs : shr_record) (X : Q) : Prop :=
  located (shr_m mrs) (loc_of_shr_record mrs) X.

(** The unit roundoff of binary64. *)
Definition u53 : Q := 2 ^ (-53).

(** The range in which binary64 has its full precision. *)
Definition inRange (X : Q) : Prop := 2 ^ (-1022) <= Qabs X /\ Qabs X <= 2 ^ 1022.

(** [r] is finite and within the unit roundoff of the exact [X]. *)
Definition SFrounds (X : Q) (r : spec_float) : Prop :=
  SFfinite r = true /\ Qabs (SF2Q r - X) <= u53 * Qabs X.

Definition rounds (X : Q) (r : float) : Prop :=
  finite r = true /\ Qabs (F2Q r - X) <= u53 * Qabs X.

(** A side of a box or of an image, in pixels: a finite binary64 number
    from 1 to [limit]. *)
Definition pixelsUpTo (limit : Q) (x : float) : bool :=
  finite x && Qle_bool 1 (F2Q x) && Qle_bool (F2Q x) limit.

(** Sides up to 2^22 pixels. *)
Definition pixels : float -> bool := pixelsUpTo 4194304.


(** The whole number nearest to [(-1)^s * m * 2^e], a tie going up. *)
Definition roundUp (s : bool) (m : positive) (e : Z) : Z :=
  ((2 * cond_Zopp s (Zpos m) + 2 ^ (- e)) / 2 ^ (- e + 1))%Z.

(** [Math.round] on binary64: NaN, the infinities and the zeros are
    returned as they are, and so is a number without a fractional part;
    any other number goes to the nearest whole number, a tie going up, and
    to -0 from -0.5 up to -0. *)
Definition float_round (x : float) : float :=
  match Prim2SF x with
  | S754_finite s m e =>
      if (0 <=? e)%Z then x
      else
        let k := roundUp s m e in
        if (k =? 0)%Z then (if s then neg_zero else zero) else float_of_Z k
  | _ => x
  end.

#[export] Instance float_JsRound : JsRound float := { mathRound := float_round }.

End Binary64.

(** * Properties *)

Unset Implicit Arguments.

(** ** The coordinate mapping *)

Section MappingLaws.
Context {num : Type} `{JsNumber num}.
Local Open Scope js_scope.

(** The painted size, one component at a time. *)
Lemma actualRendered_cases (renderedWidth renderedHeight originalWidth originalHeight : num) :
  actualRendered renderedWidth renderedHeight originalWidth originalHeight =
  ( (if originalWidth / originalHeight >? renderedWidth / renderedHeight
     then renderedWidth
     else renderedHeight * (originalWidth / originalHeight)),
    (if originalWidth / originalHeight >? renderedWidth / renderedHeight
     then renderedWidth / (originalWidth / originalHeight)
     else renderedHeight) ).
Proof.
  unfold actualRendered.
  destruct (originalWidth / originalHeight >? renderedWidth / renderedHeight);
    reflexivity.
Qed.

(** The source computes the mapping exactly as section 4.1 words it, on
    every carrier: same operations, in the same order. *)
Lemma finalXY_refines_spec (pos : PinPosition num) (boxWidth boxHeight nativeWidth nativeHeight : num) :
  finalXY pos boxWidth boxHeight nativeWidth nativeHeight =
  spec_toNativeSpace pos boxWidth boxHeight nativeWidth nativeHeight.
Proof.
  unfold finalXY, spec_toNativeSpace.
  rewrite actualRendered_cases.
  reflexivity.
Qed.

End MappingLaws.

Section MappingScenario.
Local Open Scope float_scope.

(** The scenario of section 8 on binary64: the click at (200,100) lands on
    the middle of the top edge of the image. *)
Lemma finalXY_scenario_float :
  finalXY {| pin_x := 200; pin_y := 100 |} 400 400 1000 500 = (500, 0).
Proof. vm_compute. reflexivity. Qed.

(** The same scenario on exact rationals. *)
Lemma finalXY_scenario_Q :
  Qeq2 (finalXY {| pin_x := 200; pin_y := 100 |} 400 400 1000 500)%Q (500, 0)%Q.
Proof. split; vm_compute; reflexivity. Qed.

(** C1, as stated, fails on its scenario: with a 1000x500 background in a
    400x400 box the click at (200,100) is not mapped to the native origin;
    its native abscissa is 500, on binary64 and on exact rationals alike. *)
Lemma finalXY_scenario_is_not_origin :
  finalXY {| pin_x := 200; pin_y := 100 |} 400 400 1000 500 <> (0, 0)
  /\ ~ Qeq2 (finalXY {| pin_x := 200; pin_y := 100 |} 400 400 1000 500)%Q (0, 0)%Q.
Proof.
  split.
  - rewrite finalXY_scenario_float. intro E.
    discriminate (f_equal (fun p => PrimFloat.eqb (fst p) 0) E).
  - intros [Ex _]. vm_compute in Ex. discriminate Ex.
Qed.

(** C1, amended: on every carrier, for every anchor, box and native size,
    the mapping of [handleGenerate] is the contain-fit algorithm of section
    4.1 (painted size by comparing the aspect ratios, centred padding
    subtracted, division by the painted size without clamping,
    multiplication by the native size).  In the scenario of a 1000x500
    background in a 400x400 box the click at (200,100) maps to native
    (500,0); the image's top-left corner, the click at (0,100), is what maps
    to native (0,0); and a click in the padding, at (200,50), maps outside
    the image, to (500,-125). *)
Theorem finalXY_contain_fit :
  (forall (num : Type) (N : JsNumber num) (pos : PinPosition num)
          (boxWidth boxHeight nativeWidth nativeHeight : num),
      finalXY pos boxWidth boxHeight nativeWidth nativeHeight =
      spec_toNativeSpace pos boxWidth boxHeight nativeWidth nativeHeight)
  /\ finalXY {| pin_x := 200; pin_y := 100 |} 400 400 1000 500 = (500, 0)
  /\ finalXY {| pin_x := 0; pin_y := 100 |} 400 400 1000 500 = (0, 0)
  /\ finalXY {| pin_x := 200; pin_y := 50 |} 400 400 1000 500 = (500, -125)
  /\ Qeq2 (finalXY {| pin_x := 200; pin_y := 100 |} 400 400 1000 500)%Q (500, 0)%Q.
Proof.
  split; [ intros; apply finalXY_refines_spec | ].
  repeat split; vm_compute; reflexivity.
Qed.

End MappingScenario.

(** ** The compositing step *)

Section GenerateLaws.
Context {num : Type} `{JsNumber num}.
Local Open Scope js_scope.

(** The [try] block exports a canvas only after both draws, and that canvas
    is [compose] applied to the four inputs read off the state and the
    browser. *)
Lemma generateAttempt_canvas (env : Browser num) (st : AppState num)
    (vehicleSrc : string) (bg : FileInfo num) (pos : PinPosition num) :
  vehicleSrcOf st = Some vehicleSrc ->
  backgroundScene st = Some bg ->
  vehiclePosition st = Some pos ->
  match generateAttempt env vehicleSrc bg pos (vehicleScale st) with
  | Blended canvas _ _ | BlendRejected canvas _ _ =>
      exists bgImg vehicleImg final,
        composeInputs env st = Some (bgImg, vehicleImg, final, vehicleScale st)
        /\ canvas = compose bgImg vehicleImg final (vehicleScale st)
  | Threw _ | Pending => True
  end.
Proof.
  intros Hsrc Hbg Hpos.
  unfold generateAttempt, composeInputs.
  rewrite Hsrc, Hbg, Hpos.
  destruct (getContext2d env); cbn [negb]; [ | exact I ].
  destruct (decodeImage env (fi_base64 bg)) as [[originalWidth originalHeight]| ];
    [ | exact I ].
  destruct (decodeImage env vehicleSrc) as [[vehicleWidth vehicleHeight]| ];
    [ | exact I ].
  destruct (backgroundImageRef env) as [renderedBg| ]; [ | exact I ].
  match goal with
  | |- context [blendVehicleIntoScene env ?f] =>
      destruct (blendVehicleIntoScene env f)
  end; eauto.
Qed.

(** Every composite that [handleGenerate] produces is [compose] applied to
    the decoded background, the decoded foreground, the native anchor and
    the user scale of the state it ran in. *)
Lemma handleGenerate_composite (env : Browser num) (st : AppState num) (c : Canvas num) :
  composite (handleGenerate env st) = Some c ->
  exists bgImg vehicleImg final,
    composeInputs env st = Some (bgImg, vehicleImg, final, vehicleScale st)
    /\ c = compose bgImg vehicleImg final (vehicleScale st).
Proof.
  unfold handleGenerate.
  destruct (vehicleSrcOf st) as [vehicleSrc| ] eqn:Hsrc; [ | discriminate ].
  destruct (backgroundScene st) as [bg| ] eqn:Hbg; [ | discriminate ].
  destruct (vehiclePosition st) as [pos| ] eqn:Hpos; [ | discriminate ].
  pose proof (generateAttempt_canvas env st vehicleSrc bg pos Hsrc Hbg Hpos) as Hrun.
  cbn [vehicleScale setError setIsLoading setGeneratedImage].
  destruct (generateAttempt env vehicleSrc bg pos (vehicleScale st));
    cbn [composite]; intros Hc; try discriminate;
    injection Hc as <-; exact Hrun.
Qed.

(** Conversely, with a 2d context at hand the inputs are all it takes. *)
Lemma handleGenerate_composes (env : Browser num) (st : AppState num)
    (bgImg vehicleImg : Image num) (final : num * num) (scale : num) :
  getContext2d env = true ->
  composeInputs env st = Some (bgImg, vehicleImg, final, scale) ->
  composite (handleGenerate env st) = Some (compose bgImg vehicleImg final scale).
Proof.
  intros Hctx. unfold composeInputs, handleGenerate, generateAttempt.
  destruct (vehicleSrcOf st) as [vehicleSrc| ]; [ | discriminate ].
  destruct (backgroundScene st) as [bg| ]; [ | discriminate ].
  destruct (vehiclePosition st) as [pos| ]; [ | discriminate ].
  destruct (backgroundImageRef env) as [renderedBg| ]; [ | discriminate ].
  rewrite Hctx. cbn [negb vehicleScale setError setIsLoading setGeneratedImage].
  destruct (decodeImage env (fi_base64 bg)) as [[originalWidth originalHeight]| ];
    [ | discriminate ].
  destruct (decodeImage env vehicleSrc) as [[vehicleWidth vehicleHeight]| ];
    [ | discriminate ].
  intros Hin. injection Hin as <- <- <- <-.
  match goal with
  | |- context [blendVehicleIntoScene env ?f] =>
      destruct (blendVehicleIntoScene env f)
  end; reflexivity.
Qed.

(** The two draws of [compose]. *)
Lemma compose_ops (bgImg vehicleImg : Image num) (fx fy s : num) :
  cv_ops (compose bgImg vehicleImg (fx, fy) s) =
  [ DrawImage bgImg (lit 0) (lit 0) None;
    DrawImage vehicleImg
              (fx - naturalWidth vehicleImg * s / lit 2)
              (fy - naturalHeight vehicleImg * s / lit 2)
              (Some (naturalWidth vehicleImg * s, naturalHeight vehicleImg * s)) ].
Proof. reflexivity. Qed.

Lemma compose_size (bgImg vehicleImg : Image num) (final : num * num) (s : num) :
  cv_width (compose bgImg vehicleImg final s) = naturalWidth bgImg
  /\ cv_height (compose bgImg vehicleImg final s) = naturalHeight bgImg.
Proof. destruct final. split; reflexivity. Qed.

(** Whenever [handleGenerate] produces a composite, its second draw puts
    the foreground at draw size (w*s, h*s) with the top-left corner at
    (fx - w*s/2, fy - h*s/2). *)
Lemma handleGenerate_centres_foreground (env : Browser num) (st : AppState num) (c : Canvas num) :
  composite (handleGenerate env st) = Some c ->
  exists (bgImg vehicleImg : Image num) (fx fy : num),
    composeInputs env st = Some (bgImg, vehicleImg, (fx, fy), vehicleScale st)
    /\ nth_error (cv_ops c) 1 =
       Some (DrawImage vehicleImg
               (fx - naturalWidth vehicleImg * vehicleScale st / lit 2)
               (fy - naturalHeight vehicleImg * vehicleScale st / lit 2)
               (Some (naturalWidth vehicleImg * vehicleScale st,
                      naturalHeight vehicleImg * vehicleScale st))).
Proof.
  intros Hc.
  destruct (handleGenerate_composite env st c Hc)
    as (bgImg & vehicleImg & [fx fy] & Hin & ->).
  exists bgImg, vehicleImg, fx, fy. split; [ exact Hin | ].
  rewrite compose_ops. reflexivity.
Qed.

(** C3: whenever [handleGenerate] produces a composite, its width and
    height are the natural width and height of the decoded background; and
    two runs on the same background, whatever their anchors, scales,
    foregrounds and boxes, produce rasters of the same dimensions. *)
Theorem composite_has_background_size (env : Browser num) (st : AppState num) (c : Canvas num) :
  composite (handleGenerate env st) = Some c ->
  (exists (bg : FileInfo num) (originalWidth originalHeight : num),
      backgroundScene st = Some bg
      /\ decodeImage env (fi_base64 bg) = Some (originalWidth, originalHeight)
      /\ cv_width c = originalWidth /\ cv_height c = originalHeight)
  /\ (forall (env' : Browser num) (st' : AppState num) (c' : Canvas num),
        composite (handleGenerate env' st') = Some c' ->
        backgroundScene st' = backgroundScene st ->
        (forall src, decodeImage env' src = decodeImage env src) ->
        cv_width c' = cv_width c /\ cv_height c' = cv_height c).
Proof.
  assert (Hsize : forall (e : Browser num) (s : AppState num) (k : Canvas num),
             composite (handleGenerate e s) = Some k ->
             exists bg ow oh,
               backgroundScene s = Some bg
               /\ decodeImage e (fi_base64 bg) = Some (ow, oh)
               /\ cv_width k = ow /\ cv_height k = oh).
  { intros e s k Hk.
    destruct (handleGenerate_composite e s k Hk)
      as (bgImg & vehicleImg & final & Hin & ->).
    unfold composeInputs in Hin.
    destruct (vehicleSrcOf s) as [vehicleSrc| ]; [ | discriminate ].
    destruct (backgroundScene s) as [bg| ]; [ | discriminate ].
    destruct (vehiclePosition s) as [pos| ]; [ | discriminate ].
    destruct (backgroundImageRef e) as [renderedBg| ]; [ | discriminate ].
    destruct (decodeImage e (fi_base64 bg)) as [[ow oh]| ] eqn:Hdec;
      [ | discriminate ].
    destruct (decodeImage e vehicleSrc) as [[vw vh]| ]; [ | discriminate ].
    injection Hin as <- _ _.
    exists bg, ow, oh.
    destruct (compose_size {| img_src := fi_base64 bg; naturalWidth := ow;
                              naturalHeight := oh |} vehicleImg final (vehicleScale s))
      as [Hw Hh].
    repeat split; first [ exact Hdec | exact Hw | exact Hh ]. }
  intros Hc. split; [ exact (Hsize env st c Hc) | ].
  intros env' st' c' Hc' Hbg Hdec.
  destruct (Hsize env st c Hc) as (bg & ow & oh & Eb & Ed & <- & <-).
  destruct (Hsize env' st' c' Hc') as (bg' & ow' & oh' & Eb' & Ed' & <- & <-).
  rewrite Hbg, Eb in Eb'. injection Eb' as <-.
  rewrite Hdec, Ed in Ed'. injection Ed' as <- <-.
  split; reflexivity.
Qed.

(** With a 2d context and all four inputs at hand, the composite is what the
    blend service is sent, once, under the name composite.png and with the
    dimensions of the background. *)
Theorem handleGenerate_sends_composite (env : Browser num) (st : AppState num)
    (bgImg vehicleImg : Image num) (final : num * num) (scale : num) :
  getContext2d env = true ->
  composeInputs env st = Some (bgImg, vehicleImg, final, scale) ->
  composite (handleGenerate env st) = Some (compose bgImg vehicleImg final scale)
  /\ blendCalls (handleGenerate env st) =
     [ {| fi_name := "composite.png";
          fi_type := "image/png";
          fi_size := lit 0;
          fi_base64 := toDataURL env (compose bgImg vehicleImg final scale);
          fi_width := Some (naturalWidth bgImg);
          fi_height := Some (naturalHeight bgImg) |} ]
  /\ settled (handleGenerate env st) = true
  /\ isLoading (final_state (handleGenerate env st)) = false.
Proof.
  intros Hctx Hin.
  split; [ exact (handleGenerate_composes env st bgImg vehicleImg final scale Hctx Hin) | ].
  revert Hin. unfold composeInputs, handleGenerate, generateAttempt.
  destruct (vehicleSrcOf st) as [vehicleSrc| ]; [ | discriminate ].
  destruct (backgroundScene st) as [bg| ]; [ | discriminate ].
  destruct (vehiclePosition st) as [pos| ]; [ | discriminate ].
  destruct (backgroundImageRef env) as [renderedBg| ]; [ | discriminate ].
  rewrite Hctx. cbn [negb vehicleScale setError setIsLoading setGeneratedImage].
  destruct (decodeImage env (fi_base64 bg)) as [[originalWidth originalHeight]| ];
    [ | discriminate ].
  destruct (decodeImage env vehicleSrc) as [[vehicleWidth vehicleHeight]| ];
    [ | discriminate ].
  intros Hin. injection Hin as <- <- <- <-.
  match goal with
  | |- context [blendVehicleIntoScene env ?f] =>
      destruct (blendVehicleIntoScene env f)
  end; destruct (finalXY pos (offsetWidth renderedBg) (offsetHeight renderedBg)
                         originalWidth originalHeight);
    repeat split; reflexivity.
Qed.

(** A run that comes to its end past the guard has left the loading state;
    a run that does not come to its end is stuck in it. *)
Theorem handleGenerate_loading (env : Browser num) (st : AppState num) :
  notReady st = false ->
  isLoading (final_state (handleGenerate env st))
  = negb (settled (handleGenerate env st)).
Proof.
  unfold notReady, handleGenerate.
  destruct (vehicleSrcOf st) as [vehicleSrc| ]; [ | discriminate ].
  destruct (backgroundScene st) as [bg| ]; [ | discriminate ].
  destruct (vehiclePosition st) as [pos| ]; [ | discriminate ].
  intros _.
  destruct (generateAttempt env vehicleSrc bg pos _); reflexivity.
Qed.

(** A drop of the extracted vehicle on a mounted container sets the anchor
    to the pointer position relative to the container, over any anchor
    there was; any other drop changes nothing. *)
Theorem handleVehicleDrop_sets_anchor (env : Browser num) (vehicleId : string)
    (clientX clientY : num) (st : AppState num) :
  (forall container : Element num,
      backgroundContainerRef env = Some container ->
      vehicleId = "extracted-vehicle"%string ->
      handleVehicleDrop env vehicleId clientX clientY st
      = setVehiclePosition
          (Some {| pin_x := clientX - rect_left container;
                   pin_y := clientY - rect_top container |}) st)
  /\ (backgroundContainerRef env = None \/ vehicleId <> "extracted-vehicle"%string ->
      handleVehicleDrop env vehicleId clientX clientY st = st).
Proof.
  unfold handleVehicleDrop. split.
  - intros container -> ->. reflexivity.
  - intros [-> | Hid]; [ reflexivity | ].
    destruct (backgroundContainerRef env); [ | reflexivity ].
    destruct (String.eqb_spec vehicleId "extracted-vehicle"); [ contradiction | reflexivity ].
Qed.

End GenerateLaws.

(** ** The session: readiness, new backgrounds, and the hint *)

Section SessionLaws.
Context {num : Type} `{JsNumber num}.
Local Open Scope js_scope.

Lemma notReady_iff (st : AppState num) :
  notReady st = true <->
  vehiclePosition st = None \/ vehicleSrcOf st = None \/ backgroundScene st = None.
Proof.
  unfold notReady.
  destruct (vehicleSrcOf st), (backgroundScene st), (vehiclePosition st);
    split; intros Hn; try reflexivity; try discriminate; auto;
    destruct Hn as [Hn | [Hn | Hn]]; discriminate.
Qed.

(** C7, amended: [handleGenerate] invoked with no anchor, or without an
    extracted foreground, or without a background, fails in one and the same
    way: it surfaces the single message [notReadyMessage], touches nothing
    else in the state, produces no composite and does not call the blend
    service.  The code has no separate NoAnchor and ImageNotReady errors. *)
Theorem handleGenerate_not_ready (env : Browser num) (st : AppState num) :
  vehiclePosition st = None \/ vehicleSrcOf st = None \/ backgroundScene st = None ->
  handleGenerate env st =
  {| final_state := setError (Some notReadyMessage) st;
     composite := None;
     blendCalls := [];
     settled := true |}.
Proof.
  intros Hn. apply notReady_iff in Hn. revert Hn.
  unfold notReady, handleGenerate.
  destruct (vehicleSrcOf st), (backgroundScene st), (vehiclePosition st);
    intros Hn; try discriminate; reflexivity.
Qed.

(** C9: [handleBackgroundUpload], from any state, leaves the session without
    an anchor, and leaves the extracted foreground and the user scale as
    they were. *)
Theorem handleBackgroundUpload_clears_anchor (fileInfo : FileInfo num) (st : AppState num) :
  vehiclePosition (handleBackgroundUpload fileInfo st) = None
  /\ extractedVehicle (handleBackgroundUpload fileInfo st) = extractedVehicle st
  /\ vehicleScale (handleBackgroundUpload fileInfo st) = vehicleScale st.
Proof. repeat split. Qed.

(** The rest of what a new background does and does not touch. *)
Lemma handleBackgroundUpload_frame (fileInfo : FileInfo num) (st : AppState num) :
  handleBackgroundUpload fileInfo st =
  {| subjectVehicle := subjectVehicle st;
     backgroundScene := Some fileInfo;
     isExtracting := isExtracting st;
     extractedVehicle := extractedVehicle st;
     vehiclePosition := None;
     vehicleScale := vehicleScale st;
     generatedImage := None;
     isLoading := isLoading st;
     error := None |}.
Proof. reflexivity. Qed.

(** After a new background nothing can be generated until the vehicle is
    placed again. *)
Lemma handleBackgroundUpload_disables_generate (fileInfo : FileInfo num) (st : AppState num) :
  isGenerateDisabled (handleBackgroundUpload fileInfo st) = true.
Proof.
  unfold isGenerateDisabled.
  destruct (vehicleSrcOf (handleBackgroundUpload fileInfo st)); reflexivity.
Qed.

(** C5: two renders of the page whose compositing steps receive the same
    background, foreground, native anchor and user scale produce the same
    composite, whatever else differs between them: in particular the
    constants of the depth hint, the inputs of the hint and the overlay it
    yields. *)
Theorem depth_hint_does_not_reach_composite (pg1 pg2 : Page num) (c1 c2 : Canvas num) :
  composeInputs (pg_browser pg1) (pg_app pg1) = composeInputs (pg_browser pg2) (pg_app pg2) ->
  composite (pageGenerate pg1) = Some c1 ->
  composite (pageGenerate pg2) = Some c2 ->
  c1 = c2.
Proof.
  unfold pageGenerate. intros Hin H1 H2.
  destruct (handleGenerate_composite _ _ _ H1) as (bg1 & fg1 & a1 & E1 & ->).
  destruct (handleGenerate_composite _ _ _ H2) as (bg2 & fg2 & a2 & E2 & ->).
  rewrite Hin, E2 in E1. injection E1 as <- <- <- <-. reflexivity.
Qed.

(** Retuning the hint, or feeding it other inputs, leaves the whole run of
    [handleGenerate] as it was. *)
Lemma pageGenerate_ignores_hint (pg : Page num) (cfg : DepthConfig num)
    (props : ImageDisplayProps num) (dims : num * num) :
  pageGenerate {| pg_browser := pg_browser pg; pg_app := pg_app pg;
                  pg_depth := cfg; pg_display := props; pg_imgDims := dims |}
  = pageGenerate pg.
Proof. reflexivity. Qed.

End SessionLaws.

(** ** The uploader *)

Section UploaderLaws.
Context {num : Type}.
Local Open Scope string_scope.

(** C10: [handleFile] calls [onImageUpload] only for a file whose type
    starts with "image/", and hands over that file's own name, type and
    size; for any other file, and for a missing one, it does nothing at
    all: no read, no callback, no error. *)
Theorem handleFile_only_images (env : Browser num) (file : option (File num)) :
  (forall fileInfo : FileInfo num,
      In (OnImageUpload fileInfo) (handleFile env file) ->
      exists f : File num,
        file = Some f
        /\ String.prefix "image/" (file_type f) = true
        /\ fi_name fileInfo = file_name f
        /\ fi_type fileInfo = file_type f
        /\ fi_size fileInfo = file_size f)
  /\ (forall f : File num,
        file = Some f ->
        String.prefix "image/" (file_type f) = false ->
        handleFile env file = [])
  /\ (file = None -> handleFile env file = []).
Proof.
  repeat split.
  - intros fileInfo Hin. destruct file as [f| ]; [ | destruct Hin ].
    exists f. unfold handleFile in Hin.
    destruct (String.prefix "image/" (file_type f)) eqn:Hty; [ | destruct Hin ].
    destruct Hin as [Hin | Hin]; [ discriminate | ].
    destruct (readAsDataURL env f) as [base64| ]; [ | destruct Hin ].
    destruct Hin as [Hin | Hin]; [ discriminate | ].
    destruct (decodeImage env base64) as [[w h]| ]; [ | destruct Hin ].
    destruct Hin as [Hin | []]. injection Hin as <-.
    repeat split; reflexivity.
  - intros f -> Hty. unfold handleFile. rewrite Hty. reflexivity.
  - intros ->. reflexivity.
Qed.

(** An image file that reads and decodes is handed over exactly once. *)
Lemma handleFile_image (env : Browser num) (f : File num) (base64 : string) (w h : num) :
  String.prefix "image/" (file_type f) = true ->
  readAsDataURL env f = Some base64 ->
  decodeImage env base64 = Some (w, h) ->
  uploads (handleFile env (Some f)) =
  [ {| fi_name := file_name f; fi_type := file_type f; fi_size := file_size f;
       fi_base64 := base64; fi_width := Some w; fi_height := Some h |} ].
Proof.
  intros Hty Hread Hdec. unfold handleFile. rewrite Hty, Hread, Hdec. reflexivity.
Qed.

End UploaderLaws.

(** ** Laws of exact arithmetic *)

Section RationalLaws.
Local Open Scope Q_scope.

Lemma Qgtb_true (a b : Q) : Qgtb a b = true <-> b < a.
Proof.
  unfold Qgtb. rewrite negb_true_iff, <- not_true_iff_false, Qle_bool_iff.
  split; [ apply Qnot_le_lt | apply Qlt_not_le ].
Qed.

Lemma Qtruthy_true (a : Q) : Qtruthy a = true <-> ~ a == 0.
Proof.
  unfold Qtruthy. rewrite negb_true_iff, <- not_true_iff_false, Qeq_bool_iff.
  reflexivity.
Qed.

Lemma clamp01_cases (r : Q) :
  (r <= 0 /\ clamp01 r == 0) \/ (0 <= r <= 1 /\ clamp01 r == r) \/ (1 <= r /\ clamp01 r == 1).
Proof.
  unfold clamp01, Qmin_js, Qmax_js.
  destruct (Qle_bool r 0) eqn:H0.
  - apply Qle_bool_iff in H0. left. split; [ exact H0 | reflexivity ].
  - apply not_true_iff_false in H0. rewrite Qle_bool_iff in H0.
    destruct (Qle_bool r 1) eqn:H1.
    + apply Qle_bool_iff in H1. right. left. repeat split; try lra.
    + apply not_true_iff_false in H1. rewrite Qle_bool_iff in H1.
      right. right. split; lra.
Qed.

Lemma clamp01_range (r : Q) : 0 <= clamp01 r <= 1.
Proof. destruct (clamp01_cases r) as [[? E] | [[? E] | [? E]]]; rewrite E; lra. Qed.

Lemma clamp01_monotone (r1 r2 : Q) : r1 <= r2 -> clamp01 r1 <= clamp01 r2.
Proof.
  intros Hle.
  destruct (clamp01_cases r1) as [[? E1] | [[? E1] | [? E1]]];
    destruct (clamp01_cases r2) as [[? E2] | [[? E2] | [? E2]]];
    rewrite E1, E2; lra.
Qed.

(** In exact arithmetic the centre of the render box is mapped to the
    centre of the native image, for nonzero sizes. *)
Lemma finalXY_centre_exact (boxWidth boxHeight nativeWidth nativeHeight : Q) :
  ~ nativeWidth == 0 -> ~ nativeHeight == 0 ->
  ~ boxWidth == 0 -> ~ boxHeight == 0 ->
  Qeq2 (finalXY {| pin_x := boxWidth / 2; pin_y := boxHeight / 2 |}
                boxWidth boxHeight nativeWidth nativeHeight)
       (nativeWidth / 2, nativeHeight / 2).
Proof.
  intros Hnw Hnh Hbw Hbh.
  unfold finalXY, actualRendered.
  cbn [add sub mul div gtb lit Q_JsNumber].
  destruct (Qgtb (nativeWidth / nativeHeight) (boxWidth / boxHeight));
    split; cbn [fst snd pin_x pin_y]; field; auto.
Qed.

End RationalLaws.

(** ** The default scale *)

Section DefaultScale.
Local Open Scope Q_scope.

Lemma orElse_truthy (a : option Q) (b w : Q) :
  a = Some w -> ~ w == 0 -> orElse a b = w.
Proof.
  intros -> Hw. unfold orElse. cbn [truthy Q_JsNumber].
  apply Qtruthy_true in Hw. rewrite Hw. reflexivity.
Qed.

End DefaultScale.

(** ** The depth hint *)

Section DepthLaws.
Context {num : Type} `{JsNumber num}.

(** The scale of the hint is the clamped interpolation of section 4.2, on
    every carrier and for every input. *)
Lemma estimateDepth_scale_clamped (relativeY : num) :
  fst (estimateDepth relativeY) = fst (spec_estimateDepth relativeY).
Proof. reflexivity. Qed.

(** The overlay carries the two outputs of the hint for the pin's height
    relative to the image. *)
Lemma overlayStyle_uses_estimateDepth (cfg : DepthConfig num)
    (props : ImageDisplayProps num) (imgDims : num * num) (style : OverlayStyle num) :
  overlayStyleWith cfg props imgDims = Some style ->
  exists pin : PinPosition num,
    pinPosition props = Some pin
    /\ (ov_scale style, ov_rotation style)
       = estimateDepthWith cfg (div (pin_y pin) (snd imgDims)).
Proof.
  unfold overlayStyleWith.
  destruct (pinPosition props) as [pin| ]; [ | discriminate ].
  destruct (overlayDimensions props) as [[ow oh]| ]; [ | discriminate ].
  destruct (showOverlay props && gtb (fst imgDims) (lit 0) && isInteractive props);
    [ | discriminate ].
  intros Hs. injection Hs as <-. exists pin. split; reflexivity.
Qed.

End DepthLaws.

Section DepthLawsQ.
Local Open Scope Q_scope.

Lemma estimateDepth_Q (r : Q) :
  fst (estimateDepth r) == 0.2 + (1.2 - 0.2) * clamp01 r
  /\ snd (estimateDepth r) == 75 - (75 - 20) * r.
Proof. split; reflexivity. Qed.

(** Inside [0, 1] the rotation is the one of section 4.2 as well. *)
Lemma estimateDepth_rotation_in_range (r : Q) :
  0 <= r <= 1 -> snd (estimateDepth r) == snd (spec_estimateDepth r).
Proof.
  intros Hr. unfold estimateDepth, estimateDepthWith, spec_estimateDepth.
  cbn [snd add sub mul lit mathMin mathMax Q_JsNumber defaultDepthConfig
       minRotation maxRotation].
  fold (clamp01 r).
  destruct (clamp01_cases r) as [[? E] | [[? E] | [? E]]]; rewrite E; lra.
Qed.

(** The scale never decreases with [relativeY]. *)
Lemma estimateDepth_scale_monotone (r1 r2 : Q) :
  r1 <= r2 -> fst (estimateDepth r1) <= fst (estimateDepth r2).
Proof.
  intros Hle.
  rewrite (proj1 (estimateDepth_Q r1)), (proj1 (estimateDepth_Q r2)).
  pose proof (clamp01_monotone r1 r2 Hle). lra.
Qed.

(** The rotation never increases with [relativeY]. *)
Lemma estimateDepth_rotation_antitone (r1 r2 : Q) :
  r1 <= r2 -> snd (estimateDepth r2) <= snd (estimateDepth r1).
Proof.
  intros Hle.
  rewrite (proj2 (estimateDepth_Q r1)), (proj2 (estimateDepth_Q r2)). lra.
Qed.

(** Below the image the rotation falls under [minRotation], above it the
    rotation exceeds [maxRotation]: it is not clamped. *)
Lemma estimateDepth_rotation_escapes (r : Q) :
  (1 < r -> snd (estimateDepth r) < 20 /\ snd (spec_estimateDepth r) == 20)
  /\ (r < 0 -> 75 < snd (estimateDepth r) /\ snd (spec_estimateDepth r) == 75).
Proof.
  assert (Hspec : snd (spec_estimateDepth r) == 75 - (75 - 20) * clamp01 r)
    by reflexivity.
  rewrite Hspec, (proj2 (estimateDepth_Q r)).
  split; intros Hr;
    destruct (clamp01_cases r) as [[? E] | [[? E] | [? E]]]; rewrite E; lra.
Qed.

(** The hint is monotone: towards the bottom of the image the scale does not
    decrease and the rotation does not increase. *)
Theorem estimateDepth_monotone (r1 r2 : Q) :
  r1 <= r2 ->
  fst (estimateDepth r1) <= fst (estimateDepth r2)
  /\ snd (estimateDepth r2) <= snd (estimateDepth r1).
Proof.
  intros Hle. split;
    [ exact (estimateDepth_scale_monotone r1 r2 Hle)
    | exact (estimateDepth_rotation_antitone r1 r2 Hle) ].
Qed.

End DepthLawsQ.

(** * Concrete runs *)

Section Runs.
Local Open Scope float_scope.

(** C2: whenever [handleGenerate] produces a composite, on any carrier, its
    second draw puts the foreground (native size w x h, user scale s) at
    draw size (w*s, h*s) with the top-left corner at (fx - w*s/2,
    fy - h*s/2), where (fx, fy) is the native anchor.  On the demo page the
    anchor is native (500,250), the foreground is 200x100 and s = 1: the
    foreground covers the rectangle from (400,200) to (600,300). *)
Theorem compose_centres_foreground :
  (forall (num : Type) (N : JsNumber num) (env : Browser num) (st : AppState num)
          (c : Canvas num),
      composite (handleGenerate env st) = Some c ->
      exists (bgImg vehicleImg : Image num) (fx fy : num),
        composeInputs env st = Some (bgImg, vehicleImg, (fx, fy), vehicleScale st)
        /\ nth_error (cv_ops c) 1 =
           Some (DrawImage vehicleImg
                   (fx - naturalWidth vehicleImg * vehicleScale st / lit 2)%js
                   (fy - naturalHeight vehicleImg * vehicleScale st / lit 2)%js
                   (Some ((naturalWidth vehicleImg * vehicleScale st)%js,
                          (naturalHeight vehicleImg * vehicleScale st)%js))))
  /\ composeInputs Demo.browser Demo.placed
     = Some (Demo.bgImage, Demo.carImage, (500, 250), 1)
  /\ option_map (fun c => map drawRect (cv_ops c))
                (composite (handleGenerate Demo.browser Demo.placed))
     = Some [ ((0, 0), (1000, 500)); ((400, 200), (600, 300)) ].
Proof.
  split; [ intros num N env st c; apply handleGenerate_centres_foreground | ].
  split; vm_compute; reflexivity.
Qed.

(** The demo page is such a run. *)
Lemma compose_centres_foreground_witness :
  composite (handleGenerate Demo.browser Demo.placed) = Some Demo.canvas
  /\ exists (bgImg vehicleImg : Image float) (fx fy : float),
       composeInputs Demo.browser Demo.placed
       = Some (bgImg, vehicleImg, (fx, fy), vehicleScale Demo.placed)
       /\ nth_error (cv_ops Demo.canvas) 1 =
          Some (DrawImage vehicleImg
                  (fx - naturalWidth vehicleImg * vehicleScale Demo.placed / 2)
                  (fy - naturalHeight vehicleImg * vehicleScale Demo.placed / 2)
                  (Some (naturalWidth vehicleImg * vehicleScale Demo.placed,
                         naturalHeight vehicleImg * vehicleScale Demo.placed))).
Proof.
  split; [ reflexivity | ].
  apply (proj1 compose_centres_foreground float float_JsNumber
               Demo.browser Demo.placed Demo.canvas).
  reflexivity.
Defined.

(** The composite of the demo page is 1000x500, as its background. *)
Lemma composite_has_background_size_witness :
  composite (handleGenerate Demo.browser Demo.placed) = Some Demo.canvas
  /\ cv_width Demo.canvas = 1000 /\ cv_height Demo.canvas = 500.
Proof.
  split; [ reflexivity | ].
  assert (Hrun : composite (handleGenerate Demo.browser Demo.placed)
                 = Some Demo.canvas) by reflexivity.
  destruct (proj1 (composite_has_background_size Demo.browser Demo.placed
                     Demo.canvas Hrun))
    as (bg & ow & oh & Hbg & Hdec & Hw & Hh).
  injection Hbg as <-. vm_compute in Hdec. injection Hdec as <- <-.
  split; assumption.
Defined.

(** The demo page and its retuned copy differ in the constants of the hint
    and in the overlay, and export the same canvas. *)
Lemma depth_hint_does_not_reach_composite_witness :
  pg_depth Demo.page <> pg_depth Demo.retuned
  /\ pageHint Demo.page <> pageHint Demo.retuned
  /\ Demo.canvas
     = compose Demo.bgImage Demo.carImage
               (finalXY {| pin_x := 200; pin_y := 200 |} 400 400 1000 500) 1.
Proof.
  split; [ | split ].
  - intro E.
    discriminate (f_equal (fun cfg => PrimFloat.eqb (maxRotation cfg) 75) E).
  - intro E.
    discriminate
      (f_equal (fun o => match o with
                         | Some style => PrimFloat.eqb (ov_rotation style) 47.5
                         | None => false
                         end) E).
  - apply (depth_hint_does_not_reach_composite Demo.page Demo.retuned
               Demo.canvas);
      reflexivity.
Defined.

(** Both ways of not being ready, on the demo page. *)
Lemma handleGenerate_not_ready_witness :
  handleGenerate Demo.browser Demo.noAnchor =
  {| final_state := setError (Some notReadyMessage) Demo.noAnchor;
     composite := None; blendCalls := []; settled := true |}
  /\ handleGenerate Demo.browser Demo.noForeground =
     {| final_state := setError (Some notReadyMessage) Demo.noForeground;
        composite := None; blendCalls := []; settled := true |}.
Proof.
  split.
  - exact (handleGenerate_not_ready Demo.browser Demo.noAnchor (or_introl eq_refl)).
  - exact (handleGenerate_not_ready Demo.browser Demo.noForeground
             (or_intror (or_introl eq_refl))).
Defined.

(** C7, as stated, fails: without an anchor and without a foreground
    [handleGenerate] surfaces the very same error, so no reading of the
    surfaced error can report NoAnchor in the first case and ImageNotReady
    in the second. *)
Lemma not_ready_errors_are_one :
  ~ exists classify : option string -> ErrorKind,
      classify (error (final_state (handleGenerate Demo.browser Demo.noAnchor)))
      = NoAnchor
      /\ classify (error (final_state (handleGenerate Demo.browser Demo.noForeground)))
         = ImageNotReady.
Proof.
  intros (classify & Hanchor & Hfg).
  change (error (final_state (handleGenerate Demo.browser Demo.noForeground)))
    with (error (final_state (handleGenerate Demo.browser Demo.noAnchor))) in Hfg.
  rewrite Hanchor in Hfg. discriminate Hfg.
Qed.

(** A text file is dropped without effect. *)
Lemma handleFile_only_images_witness :
  String.prefix "image/" (file_type Demo.textFile) = false
  /\ handleFile Demo.browser (Some Demo.textFile) = [].
Proof.
  split; [ reflexivity | ].
  exact (proj1 (proj2 (handleFile_only_images Demo.browser (Some Demo.textFile)))
               Demo.textFile eq_refl eq_refl).
Defined.

(** The end points of the hint on binary64 are exact (section 8). *)
Lemma estimateDepth_endpoints :
  estimateDepth 0 = (0.2, 75) /\ estimateDepth 1 = (1.2, 20).
Proof. split; vm_compute; reflexivity. Qed.

(** C4 at a pin below the image, [relativeY] = 2 (a pin at y = 200 over an
    image that is 100 high): the scale is clamped to 1.2, but the rotation
    is 75 - 55 * 2 = -35 where the clamped interpolation of section 4.2
    gives 20.  On binary64 and on exact rationals alike. *)
Theorem estimateDepth_rotation_not_clamped :
  estimateDepth 2 = (1.2, -35)
  /\ spec_estimateDepth 2 = (1.2, 20)
  /\ option_map (fun style => (ov_scale style, ov_rotation style))
                (overlayStyle Demo.display (400, 100))
     = Some (1.2, -35)
  /\ Qeq2 (estimateDepth 2%Q) (1.2, -35)%Q
  /\ Qeq2 (spec_estimateDepth 2%Q) (1.2, 20)%Q.
Proof. repeat split; vm_compute; reflexivity. Qed.

(** The demo page sends its composite to the blend service. *)
Lemma handleGenerate_sends_composite_witness :
  blendCalls (handleGenerate Demo.browser Demo.placed) =
  [ {| fi_name := "composite.png"; fi_type := "image/png"; fi_size := 0;
       fi_base64 := "data:composite";
       fi_width := Some 1000; fi_height := Some 500 |} ].
Proof.
  assert (Hin : composeInputs Demo.browser Demo.placed
                = Some (Demo.bgImage, Demo.carImage, (500, 250), 1))
    by reflexivity.
  exact (proj1 (proj2 (handleGenerate_sends_composite Demo.browser Demo.placed
                         Demo.bgImage Demo.carImage (500, 250) 1 eq_refl Hin))).
Defined.

(** A background that never decodes leaves the page loading for good. *)
Lemma handleGenerate_loading_witness :
  isLoading (final_state (handleGenerate Demo.stalled Demo.placed)) = true
  /\ settled (handleGenerate Demo.stalled Demo.placed) = false.
Proof.
  assert (Hready : notReady Demo.placed = false) by reflexivity.
  pose proof (handleGenerate_loading Demo.stalled Demo.placed Hready) as Hl.
  split; [ rewrite Hl | ]; reflexivity.
Defined.

(** The vehicle dropped at (300, 120) on the demo page. *)
Lemma handleVehicleDrop_sets_anchor_witness :
  vehiclePosition
    (handleVehicleDrop Demo.browser "extracted-vehicle" 300 120 Demo.placed)
  = Some {| pin_x := 300; pin_y := 120 |}.
Proof.
  rewrite (proj1 (handleVehicleDrop_sets_anchor Demo.browser "extracted-vehicle"
                    300 120 Demo.placed) Demo.box eq_refl eq_refl).
  vm_compute. reflexivity.
Defined.

(** A picture is handed over once, with its decoded size. *)
Lemma handleFile_image_witness :
  uploads (handleFile Demo.browser (Some Demo.photoFile)) =
  [ {| fi_name := "bg"; fi_type := "image/png"; fi_size := 2000;
       fi_base64 := "data:bg"; fi_width := Some 1000; fi_height := Some 500 |} ].
Proof.
  exact (handleFile_image Demo.browser Demo.photoFile "data:bg" 1000 500
           eq_refl eq_refl eq_refl).
Defined.

End Runs.

Section RationalRuns.
Local Open Scope Q_scope.

(** From the middle of the image to its bottom edge. *)
Lemma estimateDepth_monotone_witness :
  fst (estimateDepth 0.5) <= fst (estimateDepth 1)
  /\ snd (estimateDepth 1) <= snd (estimateDepth 0.5).
Proof.
  apply (estimateDepth_monotone 0.5 1). discriminate.
Defined.

End RationalRuns.

(** * The page on the event loop *)

Section EventLoopLaws.
Context {num : Type} `{JsNumber num}.
Local Open Scope string_scope.

Lemma pluck_length {A : Type} (n : nat) (l : list A) (x : A) (rest : list A) :
  pluck n l = Some (x, rest) -> length l = S (length rest).
Proof.
  revert n x rest. induction l as [| y l IH]; intros n x rest;
    [ destruct n; discriminate | ].
  destruct n as [| n]; cbn [pluck].
  - intros E. injection E as <- <-. reflexivity.
  - destruct (pluck n l) as [[z rest']| ] eqn:Hp; [ | discriminate ].
    intros E. injection E as <- <-. cbn [length]. f_equal. exact (IH n z rest' Hp).
Qed.

Lemma pluck_nonempty {A : Type} (n : nat) (l : list A) (x : A) (rest : list A) :
  pluck n l = Some (x, rest) -> l <> [].
Proof. intros Hp ->. destruct n; discriminate Hp. Qed.

(** With at most one element in flight, taking it leaves none. *)
Lemma pluck_single {A : Type} (n : nat) (l : list A) (x : A) (rest : list A) :
  pluck n l = Some (x, rest) -> (length l <= 1)%nat -> rest = [] /\ l = [x].
Proof.
  intros Hp Hlen. pose proof (pluck_length n l x rest Hp) as Hl.
  destruct rest as [| y rest]; [ | cbn [length] in Hl; lia ].
  split; [ reflexivity | ].
  destruct l as [| z [| z' l]]; [ destruct n; discriminate Hp | | discriminate Hl ].
  destruct n as [| n]; cbn [pluck] in Hp;
    [ injection Hp as <-; reflexivity | destruct n; discriminate Hp ].
Qed.

Lemma isGenerateDisabled_false (st : AppState num) :
  isGenerateDisabled st = false ->
  exists vehicleSrc bg pos,
    vehicleSrcOf st = Some vehicleSrc /\ backgroundScene st = Some bg
    /\ vehiclePosition st = Some pos /\ isLoading st = false.
Proof.
  unfold isGenerateDisabled.
  destruct (vehicleSrcOf st) as [vehicleSrc| ]; [ | discriminate ].
  destruct (backgroundScene st) as [bg| ]; [ | discriminate ].
  destruct (vehiclePosition st) as [pos| ]; [ | discriminate ].
  intros Hl. exists vehicleSrc, bg, pos. auto.
Qed.

Lemma vehicleSrcOf_extracted (st : AppState num) (vehicleSrc : string) :
  vehicleSrcOf st = Some vehicleSrc -> extractedVehicle st <> None.
Proof.
  unfold vehicleSrcOf. destruct (extractedVehicle st); intros Hs;
    [ intros E; discriminate E | discriminate Hs ].
Qed.

Lemma mounted_iff (st : AppState num) :
  mounted st = true <-> subjectVehicle st <> None /\ backgroundScene st <> None.
Proof.
  unfold mounted. destruct (subjectVehicle st), (backgroundScene st);
    split; intros Hm; try discriminate Hm; try reflexivity;
    try (split; discriminate); destruct Hm as [Hs Hb]; congruence.
Qed.

Lemma Invariant_initial : Invariant initialSystem.
Proof.
  unfold Invariant, initialSystem; cbn.
  repeat split; try discriminate; try (intros [? | [? | ?]]; congruence);
    try congruence; auto.
Qed.

Lemma snoc_nonempty {A : Type} (l : list A) (x : A) : (l ++ [x])%list <> [].
Proof. destruct l; discriminate. Qed.

Ltac inv_intro :=
  let E := fresh "E" in intros E; injection E as <-;
  unfold Invariant; cbn.

Ltac finish :=
  unfold mounted in *; cbn [subjectVehicle backgroundScene] in *;
  repeat split; intros;
  try discriminate; try reflexivity; try assumption;
  try solve [ cbn; auto ];
  try apply snoc_nonempty;
  try solve [ congruence | tauto | intuition congruence
            | exfalso; intuition congruence
            | eexists; left; reflexivity
            | eexists; right; reflexivity ].

Ltac split_files subj bg :=
  destruct subj as [?s| ], bg as [?b| ];
  unfold mounted in *; cbn [subjectVehicle backgroundScene] in *.

(** Every step of the event loop keeps the invariant. *)
Lemma Invariant_step (env : Browser num) (event : Event num) (sys sys' : System num) :
  Invariant sys -> step env event sys = Some sys' -> Invariant sys'.
Proof.
  unfold Invariant, step.
  destruct sys as [st rds exts cuts gens].
  destruct st as [subj bg isExt ev pos scale genImg isLoad err].
  cbn [app reads extractions cutouts generations].
  destruct (refsConsistent env _) eqn:Href; cbn [negb]; [ | intros _ E; discriminate E ].
  clear Href.
  intros (Isub & Ipos & Igen & Ilen & Iload & Iext & Ierr).
  cbn in Isub, Ipos, Igen, Iload, Iext, Ierr.
  destruct event as [slot file | n | n | n | vehicleId clientX clientY | value | | n | n].
  - destruct (uploaderRendered slot _); [ | discriminate ].
    inv_intro. split_files subj bg; finish.
  - destruct (pluck n rds) as [[[[] fileInfo] rest]| ]; [ | | discriminate ];
      inv_intro; split_files subj bg; finish.
  - destruct (pluck n exts) as [[fileInfo rest]| ] eqn:Hp; [ | discriminate ].
    pose proof (pluck_nonempty _ _ _ _ Hp) as Hne.
    destruct (extractVehicle env fileInfo) as [resultSrc | message];
      inv_intro; split_files subj bg; finish.
  - destruct (pluck n cuts) as [[resultSrc rest]| ] eqn:Hp; [ | discriminate ].
    pose proof (pluck_nonempty _ _ _ _ Hp) as Hne.
    destruct (decodeImage env resultSrc) as [[w h]| ]; [ | discriminate ].
    inv_intro. split_files subj bg; finish.
  - unfold handleVehicleDrop.
    split_files subj bg; try discriminate.
    destruct (backgroundContainerRef env) as [container| ];
      [ destruct (vehicleId =? "extracted-vehicle") | ]; inv_intro; finish.
  - unfold sliderRendered.
    split_files subj bg; try discriminate.
    destruct ev; [ | discriminate ]. inv_intro. finish.
  - destruct (isGenerateDisabled _) eqn:Hdis; [ discriminate | ].
    apply isGenerateDisabled_false in Hdis.
    destruct Hdis as (vehicleSrc & b' & p & Hsrc & Hbg & Hpos & Hload).
    cbn in Hbg, Hpos, Hload. subst bg pos isLoad.
    assert (Hev : ev <> None) by exact (vehicleSrcOf_extracted _ _ Hsrc).
    assert (Hgens : gens = []).
    { destruct gens; [ reflexivity | ].
      exfalso. assert (false = true) by (apply Iload; discriminate). discriminate. }
    subst gens.
    unfold generateStarts. rewrite Hsrc.
    cbn [backgroundScene vehiclePosition].
    destruct (getContext2d env); cbn [negb];
      inv_intro; destruct subj as [s| ]; finish.
  - destruct (pluck n gens) as [[g rest]| ] eqn:Hp; [ | discriminate ].
    destruct (pluck_single _ _ _ _ Hp Ilen) as [-> ->].
    destruct (gen_stage g); [ | discriminate ].
    destruct (generateResumes env g) as [[message | [canvas sent]]| ]; [ | | discriminate ];
      inv_intro; split_files subj bg; finish.
  - destruct (pluck n gens) as [[g rest]| ] eqn:Hp; [ | discriminate ].
    destruct (pluck_single _ _ _ _ Hp Ilen) as [-> ->].
    destruct (gen_stage g) as [| canvas sent]; [ discriminate | ].
    destruct (blendVehicleIntoScene env sent) as [result | message];
      inv_intro; split_files subj bg; finish.
Qed.

(** So every state the page can be in satisfies it. *)
Lemma Reachable_Invariant (sys : System num) : Reachable sys -> Invariant sys.
Proof.
  induction 1 as [| env event sys sys' _ IH Hstep];
    [ exact Invariant_initial | exact (Invariant_step env event sys sys' IH Hstep) ].
Qed.

Lemma run_Reachable (trace : list (Browser num * Event num)) (sys sys' : System num) :
  Reachable sys -> run trace sys = Some sys' -> Reachable sys'.
Proof.
  revert sys. induction trace as [| [env event] trace IH]; intros sys Hr; cbn [run].
  - intros E. injection E as <-. exact Hr.
  - destruct (step env event sys) as [mid| ] eqn:Hstep; [ | discriminate ].
    apply IH. eapply reach_step; eassumption.
Qed.

(** [handleGenerate] never runs twice at once: in every state of the page at
    most one activation is suspended, [isLoading] is true exactly while one
    is, and while one is the button cannot be clicked. *)
Theorem generations_serialized (sys : System num) :
  Reachable sys ->
  (length (generations sys) <= 1)%nat
  /\ (isLoading (app sys) = true <-> generations sys <> [])
  /\ (generations sys <> [] ->
      forall env : Browser num, step env ClickGenerate sys = None).
Proof.
  intros Hr. destruct (Reachable_Invariant sys Hr) as (_ & _ & _ & Ilen & Iload & _).
  split; [ exact Ilen | ]. split; [ exact Iload | ].
  intros Hne env. apply Iload in Hne. unfold step.
  destruct (refsConsistent env (app sys)); cbn [negb]; [ | reflexivity ].
  unfold isGenerateDisabled. rewrite Hne.
  destruct (vehicleSrcOf (app sys)), (backgroundScene (app sys)),
    (vehiclePosition (app sys)); reflexivity.
Qed.

(** The non-null assertion on [backgroundImageRef.current] holds: whenever
    a suspended [handleGenerate] resumes, the composition view is rendered,
    so the ref is set and no null-ref error is thrown. *)
Theorem generation_finds_background (sys : System num) (env : Browser num)
    (g : Generation num) :
  Reachable sys ->
  In g (generations sys) ->
  refsConsistent env (app sys) = true ->
  (exists renderedBg, backgroundImageRef env = Some renderedBg)
  /\ forall message : string, generateResumes env g <> Some (inl message).
Proof.
  intros Hr Hin Href.
  destruct (Reachable_Invariant sys Hr) as (_ & _ & Igen & _).
  assert (Hm : mounted (app sys) = true).
  { apply Igen. intros E. rewrite E in Hin. destruct Hin. }
  unfold refsConsistent in Href. rewrite Hm in Href.
  apply andb_prop in Href. destruct Href as [Himg _].
  destruct (backgroundImageRef env) as [renderedBg| ] eqn:Eref; [ | discriminate Himg ].
  split; [ exists renderedBg; reflexivity | ].
  intros message. unfold generateResumes. rewrite Eref.
  destruct (decodeImage env (fi_base64 (gen_bg g))) as [[ow oh]| ]; [ | discriminate ].
  destruct (decodeImage env (gen_src g)) as [[vw vh]| ]; discriminate.
Qed.

(** The message of the guard of [handleGenerate] is never shown: the button
    is disabled whenever the guard would fail. *)
Theorem not_ready_message_never_shown (sys : System num) :
  Reachable sys -> error (app sys) <> Some notReadyMessage.
Proof.
  intros Hr. destruct (Reachable_Invariant sys Hr) as (_ & _ & _ & _ & _ & _ & Ierr).
  destruct (error (app sys)) as [text| ]; [ | discriminate ].
  destruct Ierr as [message [-> | ->]]; intros E; injection E as E; discriminate E.
Qed.

(** An anchor, a cutout and the extraction overlay are never orphaned: an
    anchor exists only when both files are in, a cutout only with a subject,
    and the overlay shows only while an extraction is in flight. *)
Theorem placement_needs_both_files (sys : System num) :
  Reachable sys ->
  (vehiclePosition (app sys) <> None ->
   subjectVehicle (app sys) <> None /\ backgroundScene (app sys) <> None)
  /\ (extractedVehicle (app sys) <> None -> subjectVehicle (app sys) <> None)
  /\ (isExtracting (app sys) = true -> extractions sys <> []).
Proof.
  intros Hr.
  destruct (Reachable_Invariant sys Hr) as (Isub & Ipos & _ & _ & _ & Iext & _).
  split; [ | split ].
  - intros Hp. apply mounted_iff. exact (Ipos Hp).
  - intros He. apply Isub. right. right. exact He.
  - exact Iext.
Qed.

(** In the composition view with no read pending, a step changes neither
    file. *)
Lemma images_final_step (env : Browser num) (event : Event num) (sys sys' : System num) :
  mounted (app sys) = true -> reads sys = [] ->
  step env event sys = Some sys' ->
  subjectVehicle (app sys') = subjectVehicle (app sys)
  /\ backgroundScene (app sys') = backgroundScene (app sys)
  /\ reads sys' = [].
Proof.
  unfold step.
  destruct sys as [st rds exts cuts gens].
  destruct st as [subj bg isExt ev pos scale genImg isLoad err].
  cbn [app reads extractions cutouts generations].
  intros Hm ->. unfold mounted in Hm. cbn in Hm.
  destruct subj as [s| ]; [ | discriminate ]. destruct bg as [b| ]; [ | discriminate ].
  destruct (refsConsistent env _); cbn [negb]; [ | discriminate ].
  destruct event as [slot file | n | n | n | vehicleId clientX clientY | value | | n | n].
  - destruct slot; discriminate.
  - destruct n; discriminate.
  - destruct (pluck n exts) as [[fileInfo rest]| ]; [ | discriminate ].
    destruct (extractVehicle env fileInfo); inv_intro; auto.
  - destruct (pluck n cuts) as [[resultSrc rest]| ]; [ | discriminate ].
    destruct (decodeImage env resultSrc) as [[w h]| ]; [ | discriminate ].
    inv_intro; auto.
  - cbn [mounted subjectVehicle backgroundScene]. unfold handleVehicleDrop.
    destruct (backgroundContainerRef env);
      [ destruct (vehicleId =? "extracted-vehicle") | ]; inv_intro; auto.
  - destruct (sliderRendered _); [ | discriminate ]. inv_intro; auto.
  - destruct (isGenerateDisabled _); [ discriminate | ].
    unfold generateStarts.
    destruct (vehicleSrcOf _); cbn [backgroundScene vehiclePosition];
      [ destruct pos; [ destruct (getContext2d env) | ] | ];
      cbn [negb]; inv_intro; auto.
  - destruct (pluck n gens) as [[g rest]| ]; [ | discriminate ].
    destruct (gen_stage g); [ | discriminate ].
    destruct (generateResumes env g) as [[message | [canvas sent]]| ]; [ | | discriminate ];
      inv_intro; auto.
  - destruct (pluck n gens) as [[g rest]| ]; [ | discriminate ].
    destruct (gen_stage g) as [| canvas sent]; [ discriminate | ].
    destruct (blendVehicleIntoScene env sent); inv_intro; auto.
Qed.

(** Once both files are in and no read is pending, neither the subject nor
    the background can be replaced, whatever happens next: no uploader is
    rendered any more. *)
Theorem images_are_final (trace : list (Browser num * Event num)) (sys sys' : System num) :
  mounted (app sys) = true -> reads sys = [] ->
  run trace sys = Some sys' ->
  subjectVehicle (app sys') = subjectVehicle (app sys)
  /\ backgroundScene (app sys') = backgroundScene (app sys)
  /\ mounted (app sys') = true.
Proof.
  revert sys. induction trace as [| [env event] trace IH]; intros sys Hm Hreads; cbn [run].
  - intros E. injection E as <-. auto.
  - destruct (step env event sys) as [mid| ] eqn:Hstep; [ | discriminate ].
    destruct (images_final_step env event sys mid Hm Hreads Hstep) as (Es & Eb & Er).
    assert (Hm' : mounted (app mid) = true).
    { unfold mounted in *. rewrite Es, Eb. exact Hm. }
    intros Hrun. destruct (IH mid Hm' Er Hrun) as (Es' & Eb' & Hm'').
    rewrite Es', Eb'. auto.
Qed.

Lemma refsConsistent_app (env : Browser num) (st st' : AppState num) :
  subjectVehicle st' = subjectVehicle st ->
  backgroundScene st' = backgroundScene st ->
  refsConsistent env st' = refsConsistent env st.
Proof. intros Es Eb. unfold refsConsistent, mounted. rewrite Es, Eb. reflexivity. Qed.

(** The steps of one generation, run without anything in between, do what
    [handleGenerate] does as a whole: the composite sent is the same, and so
    is the state after the answer of the blend service. *)
Theorem run_agrees_with_handleGenerate (env : Browser num) (sys : System num)
    (bgImg vehicleImg : Image num) (final : num * num) (scale : num) :
  refsConsistent env (app sys) = true ->
  isGenerateDisabled (app sys) = false ->
  generations sys = [] ->
  getContext2d env = true ->
  composeInputs env (app sys) = Some (bgImg, vehicleImg, final, scale) ->
  exists mid : System num,
    run [(env, ClickGenerate); (env, ImagesLoad 0)] sys = Some mid
    /\ option_map (fun c => [c]) (composite (handleGenerate env (app sys)))
       = Some (sentComposites mid)
    /\ exists sys' : System num,
         run [(env, BlendSettles 0)] mid = Some sys'
         /\ app sys' = final_state (handleGenerate env (app sys))
         /\ generations sys' = [].
Proof.
  intros Href Hdis Hgens Hctx Hin.
  destruct sys as [st rds exts cuts gens]. cbn [app generations] in *. subst gens.
  apply isGenerateDisabled_false in Hdis.
  destruct Hdis as (vehicleSrc & bg & pos & Hsrc & Hbg & Hpos & Hload).
  assert (Hdis : isGenerateDisabled st = false).
  { unfold isGenerateDisabled. rewrite Hsrc, Hbg, Hpos. exact Hload. }
  unfold composeInputs in Hin. rewrite Hsrc, Hbg, Hpos in Hin.
  destruct (backgroundImageRef env) as [renderedBg| ] eqn:Eref; [ | discriminate ].
  destruct (decodeImage env (fi_base64 bg)) as [[ow oh]| ] eqn:Ebg; [ | discriminate ].
  destruct (decodeImage env vehicleSrc) as [[vw vh]| ] eqn:Ev; [ | discriminate ].
  injection Hin as <- <- <- <-.
  cbn [run]. unfold step at 1. cbn [app]. rewrite Href, Hdis. cbn [negb].
  unfold generateStarts. rewrite Hsrc, Hbg, Hpos, Hctx. cbn [negb app_nil_l List.app generations].
  set (st1 := setGeneratedImage None (setIsLoading true (setError None st))).
  assert (Href1 : refsConsistent env st1 = true).
  { rewrite <- Href. apply refsConsistent_app; reflexivity. }
  unfold step at 1. cbn [app generations pluck gen_stage]. rewrite Href1. cbn [negb].
  unfold generateResumes. cbn [gen_bg gen_src gen_pos gen_scale]. rewrite Ebg, Ev, Eref.
  cbn [List.app].
  eexists. split; [ reflexivity | ].
  unfold handleGenerate, generateAttempt. rewrite Hsrc, Hbg, Hpos, Hctx, Ebg, Ev, Eref.
  cbn [negb vehicleScale setError setIsLoading setGeneratedImage].
  cbn [run]. unfold step. cbn [app generations pluck gen_stage]. rewrite Href1. cbn [negb].
  match goal with
  | |- context [blendVehicleIntoScene env ?f] =>
      destruct (blendVehicleIntoScene env f)
  end; (split; [ reflexivity | eexists; repeat split; reflexivity ]).
Qed.

Lemma generateResumes_waits (env : Browser num) (g : Generation num) :
  waitsForImages env g -> generateResumes env g = None.
Proof.
  unfold generateResumes. intros [-> | Hv]; [ reflexivity | ].
  rewrite Hv. destruct (decodeImage env (fi_base64 (gen_bg g))) as [[ow oh]| ]; reflexivity.
Qed.

Lemma stuck_step (env : Browser num) (event : Event num) (sys sys' : System num)
    (g : Generation num) :
  isLoading (app sys) = true -> generations sys = [g] -> gen_stage g = AwaitingImages ->
  waitsForImages env g ->
  step env event sys = Some sys' ->
  isLoading (app sys') = true /\ generations sys' = [g].
Proof.
  unfold step.
  destruct sys as [st rds exts cuts gens].
  destruct st as [subj bg isExt ev pos scale genImg isLoad err].
  cbn [app reads extractions cutouts generations isLoading].
  intros -> -> Hstage Hwait.
  destruct (refsConsistent env _); cbn [negb]; [ | discriminate ].
  destruct event as [slot file | n | n | n | vehicleId clientX clientY | value | | n | n].
  - destruct (uploaderRendered slot _); [ | discriminate ]. inv_intro; auto.
  - destruct (pluck n rds) as [[[[] fileInfo] rest]| ]; [ | | discriminate ];
      inv_intro; auto.
  - destruct (pluck n exts) as [[fileInfo rest]| ]; [ | discriminate ].
    destruct (extractVehicle env fileInfo); inv_intro; auto.
  - destruct (pluck n cuts) as [[resultSrc rest]| ]; [ | discriminate ].
    destruct (decodeImage env resultSrc) as [[w h]| ]; [ | discriminate ].
    inv_intro; auto.
  - destruct (mounted _); [ | discriminate ]. unfold handleVehicleDrop.
    destruct (backgroundContainerRef env);
      [ destruct (vehicleId =? "extracted-vehicle") | ]; inv_intro; auto.
  - destruct (sliderRendered _); [ | discriminate ]. inv_intro; auto.
  - unfold isGenerateDisabled. cbn [isLoading].
    destruct (vehicleSrcOf _); cbn [backgroundScene vehiclePosition];
      [ destruct bg; [ destruct pos | ] | ]; discriminate.
  - destruct n as [| n]; cbn [pluck]; [ | destruct n; discriminate ].
    rewrite Hstage, (generateResumes_waits env g Hwait). discriminate.
  - destruct n as [| n]; cbn [pluck]; [ | destruct n; discriminate ].
    rewrite Hstage. discriminate.
Qed.

(** If an image of a suspended [handleGenerate] never loads, nothing that can
    happen on the page ends the loading state: the button stays disabled for
    good. *)
Theorem generation_stuck_without_images (trace : list (Browser num * Event num))
    (sys sys' : System num) (g : Generation num) :
  isLoading (app sys) = true -> generations sys = [g] -> gen_stage g = AwaitingImages ->
  Forall (fun step => waitsForImages (fst step) g) trace ->
  run trace sys = Some sys' ->
  isLoading (app sys') = true
  /\ generations sys' = [g]
  /\ isGenerateDisabled (app sys') = true
  /\ forall env : Browser num, step env ClickGenerate sys' = None.
Proof.
  intros Hload Hgens Hstage Hwait Hrun.
  assert (Hkeep : isLoading (app sys') = true /\ generations sys' = [g]).
  { revert sys Hload Hgens Hrun.
    induction Hwait as [| [env event] trace Hw _ IH]; intros sys Hload Hgens; cbn [run].
    - intros E. injection E as <-. auto.
    - destruct (step env event sys) as [mid| ] eqn:Hstep; [ | discriminate ].
      destruct (stuck_step env event sys mid g Hload Hgens Hstage Hw Hstep) as [Hl Hg].
      exact (IH mid Hl Hg). }
  destruct Hkeep as [Hl Hg].
  assert (Hdis : isGenerateDisabled (app sys') = true).
  { unfold isGenerateDisabled. rewrite Hl.
    destruct (vehicleSrcOf (app sys')), (backgroundScene (app sys')),
      (vehiclePosition (app sys')); reflexivity. }
  repeat split; try assumption.
  intros env. unfold step. rewrite Hdis.
  destruct (refsConsistent env (app sys')); reflexivity.
Qed.
End EventLoopLaws.

(** * More on the handlers of [App] *)

Section AppFunctionLaws.
Context {num : Type} `{JsNumber num}.
Local Open Scope string_scope.

(** Whatever the services answer, [handleSubjectUpload] stores the file,
    ends with the extraction overlay off and the old result cleared, never
    touches the background, the anchor or the loading flag, never shows an
    error next to a cutout, and keeps the scale unless a cutout arrives. *)
Theorem handleSubjectUpload_frame (env : Browser num) (fileInfo : FileInfo num)
    (st : AppState num) :
  let st' := handleSubjectUpload env fileInfo st in
  subjectVehicle st' = Some fileInfo
  /\ isExtracting st' = false
  /\ generatedImage st' = None
  /\ backgroundScene st' = backgroundScene st
  /\ vehiclePosition st' = vehiclePosition st
  /\ isLoading st' = isLoading st
  /\ (extractedVehicle st' = None \/ error st' = None)
  /\ (extractedVehicle st' = None -> vehicleScale st' = vehicleScale st).
Proof.
  unfold handleSubjectUpload.
  destruct (extractVehicle env fileInfo) as [resultSrc | message];
    [ destruct (decodeImage env resultSrc) as [[w h]| ] | ];
    cbn; repeat split; auto; discriminate.
Qed.

(** The two ways an upload yields no cutout: a rejected extraction shows
    its message; a cutout that never loads shows nothing at all.  A cutout
    is stored only from an answer that decoded. *)
Theorem handleSubjectUpload_failures (env : Browser num) (fileInfo : FileInfo num)
    (st : AppState num) :
  (forall message : string,
      extractVehicle env fileInfo = inr message ->
      extractedVehicle (handleSubjectUpload env fileInfo st) = None
      /\ error (handleSubjectUpload env fileInfo st)
         = Some ("Failed to extract vehicle: " ++ message))
  /\ (forall resultSrc : string,
        extractVehicle env fileInfo = inl resultSrc ->
        decodeImage env resultSrc = None ->
        extractedVehicle (handleSubjectUpload env fileInfo st) = None
        /\ error (handleSubjectUpload env fileInfo st) = None)
  /\ (extractedVehicle (handleSubjectUpload env fileInfo st) <> None ->
      exists (resultSrc : string) (w h : num),
        extractVehicle env fileInfo = inl resultSrc
        /\ decodeImage env resultSrc = Some (w, h)
        /\ extractedVehicle (handleSubjectUpload env fileInfo st)
           = Some {| ev_src := resultSrc; ev_width := w; ev_height := h |}).
Proof.
  unfold handleSubjectUpload. split; [ | split ].
  - intros message Hext. rewrite Hext. split; reflexivity.
  - intros resultSrc Hext Hdec. rewrite Hext, Hdec. split; reflexivity.
  - destruct (extractVehicle env fileInfo) as [resultSrc | message];
      [ destruct (decodeImage env resultSrc) as [[w h]| ] eqn:Hd | ]; cbn;
      intros Hne; try congruence.
    exists resultSrc, w, h. auto.
Qed.

(** [handleGenerate] never changes the files, the cutout, the anchor, the
    scale or the extraction flag, on any path. *)
Theorem handleGenerate_frame (env : Browser num) (st : AppState num) :
  let st' := final_state (handleGenerate env st) in
  subjectVehicle st' = subjectVehicle st
  /\ backgroundScene st' = backgroundScene st
  /\ extractedVehicle st' = extractedVehicle st
  /\ vehiclePosition st' = vehiclePosition st
  /\ vehicleScale st' = vehicleScale st
  /\ isExtracting st' = isExtracting st.
Proof.
  unfold handleGenerate.
  destruct (vehicleSrcOf st) as [vehicleSrc| ]; [ | cbn; repeat split ].
  destruct (backgroundScene st) as [bg| ] eqn:Hbg; [ | cbn; rewrite ?Hbg; repeat split ].
  destruct (vehiclePosition st) as [pos| ] eqn:Hpos; [ | cbn; rewrite ?Hbg, ?Hpos; repeat split ].
  destruct (generateAttempt env vehicleSrc bg pos _); cbn; rewrite ?Hbg, ?Hpos; repeat split.
Qed.

(** Past its guard, a run of [handleGenerate] that ends shows either the
    answer of the blend service to the one file it sent, and no error, or an
    error and no result; a run that does not end shows neither. *)
Theorem handleGenerate_result_or_error (env : Browser num) (st : AppState num) :
  notReady st = false ->
  let out := handleGenerate env st in
  (settled out = true ->
   (exists (sent : FileInfo num) (result : string),
       blendCalls out = [sent]
       /\ blendVehicleIntoScene env sent = inl result
       /\ generatedImage (final_state out) = Some result
       /\ error (final_state out) = None)
   \/ (exists message : string,
         generatedImage (final_state out) = None
         /\ error (final_state out)
            = Some ("An error occurred during generation: " ++ message)))
  /\ (settled out = false ->
      generatedImage (final_state out) = None /\ error (final_state out) = None).
Proof.
  unfold notReady, handleGenerate, generateAttempt.
  destruct (vehicleSrcOf st) as [vehicleSrc| ]; [ | discriminate ].
  destruct (backgroundScene st) as [bg| ]; [ | discriminate ].
  destruct (vehiclePosition st) as [pos| ]; [ | discriminate ].
  intros _.
  destruct (getContext2d env); cbn [negb];
    [ | cbn; split; [ intros _; right; eexists; split; reflexivity | discriminate ] ].
  destruct (decodeImage env (fi_base64 bg)) as [[ow oh]| ];
    [ | cbn; split; [ discriminate | auto ] ].
  destruct (decodeImage env vehicleSrc) as [[vw vh]| ];
    [ | cbn; split; [ discriminate | auto ] ].
  destruct (backgroundImageRef env) as [renderedBg| ];
    [ | cbn; split; [ intros _; right; eexists; split; reflexivity | discriminate ] ].
  match goal with
  | |- context [blendVehicleIntoScene env ?f] =>
      destruct (blendVehicleIntoScene env f) as [result | message] eqn:Hblend
  end; cbn; (split; [ intros _ | discriminate ]).
  - left. eexists. exists result. repeat split. exact Hblend.
  - right. exists message. split; reflexivity.
Qed.

(** The blend service is called exactly when a composite was exported, once,
    with the export of that very canvas and its dimensions. *)
Theorem handleGenerate_blend_iff_composite (env : Browser num) (st : AppState num) :
  match composite (handleGenerate env st) with
  | Some canvas =>
      blendCalls (handleGenerate env st) =
      [ {| fi_name := "composite.png"; fi_type := "image/png"; fi_size := lit 0;
           fi_base64 := toDataURL env canvas;
           fi_width := Some (cv_width canvas);
           fi_height := Some (cv_height canvas) |} ]
  | None => blendCalls (handleGenerate env st) = []
  end.
Proof.
  unfold handleGenerate, generateAttempt.
  destruct (vehicleSrcOf st) as [vehicleSrc| ]; [ | reflexivity ].
  destruct (backgroundScene st) as [bg| ]; [ | reflexivity ].
  destruct (vehiclePosition st) as [pos| ]; [ | reflexivity ].
  destruct (getContext2d env); cbn [negb]; [ | reflexivity ].
  destruct (decodeImage env (fi_base64 bg)) as [[ow oh]| ]; [ | reflexivity ].
  destruct (decodeImage env vehicleSrc) as [[vw vh]| ]; [ | reflexivity ].
  destruct (backgroundImageRef env) as [renderedBg| ]; [ | reflexivity ].
  match goal with
  | |- context [blendVehicleIntoScene env ?f] =>
      destruct (blendVehicleIntoScene env f)
  end; reflexivity.
Qed.

(** Right after a new background [handleGenerate] is refused, whatever the
    state was; dropping the vehicle again makes the page ready again. *)
Theorem new_background_needs_new_anchor (env : Browser num) (fileInfo : FileInfo num)
    (st : AppState num) :
  handleGenerate env (handleBackgroundUpload fileInfo st) =
  {| final_state := setError (Some notReadyMessage) (handleBackgroundUpload fileInfo st);
     composite := None; blendCalls := []; settled := true |}
  /\ forall (vehicleId : string) (clientX clientY : num) (container : Element num)
            (vehicleSrc : string),
       backgroundContainerRef env = Some container ->
       vehicleId = "extracted-vehicle" ->
       vehicleSrcOf st = Some vehicleSrc ->
       notReady (handleVehicleDrop env vehicleId clientX clientY
                   (handleBackgroundUpload fileInfo st)) = false.
Proof.
  split.
  - unfold handleGenerate.
    destruct (vehicleSrcOf (handleBackgroundUpload fileInfo st)); reflexivity.
  - intros vehicleId clientX clientY container vehicleSrc Href -> Hsrc.
    unfold handleVehicleDrop. rewrite Href, String.eqb_refl.
    unfold notReady.
    change (vehicleSrcOf (setVehiclePosition _ (handleBackgroundUpload fileInfo st)))
      with (vehicleSrcOf st).
    rewrite Hsrc. reflexivity.
Qed.
End AppFunctionLaws.

(** * More laws of exact arithmetic *)

Section MoreRationalLaws.
Local Open Scope Q_scope.

(** The width the default scale is derived from: the laid-out width of the
    background image when it is not zero; else that of the container when it
    is not zero; else 512. *)
Theorem backgroundRenderWidth_fallbacks (env : Browser Q) :
  (forall bgImage : Element Q,
      backgroundImageRef env = Some bgImage -> ~ offsetWidth bgImage == 0 ->
      backgroundRenderWidth env = offsetWidth bgImage)
  /\ (forall container : Element Q,
        (backgroundImageRef env = None
         \/ exists bgImage, backgroundImageRef env = Some bgImage
                            /\ offsetWidth bgImage == 0) ->
        backgroundContainerRef env = Some container ->
        ~ offsetWidth container == 0 ->
        backgroundRenderWidth env = offsetWidth container)
  /\ ((backgroundImageRef env = None
       \/ exists bgImage, backgroundImageRef env = Some bgImage
                          /\ offsetWidth bgImage == 0) ->
      (backgroundContainerRef env = None
       \/ exists container, backgroundContainerRef env = Some container
                            /\ offsetWidth container == 0) ->
      backgroundRenderWidth env = 512).
Proof.
  assert (Hfalsy : forall (ref : option (Element Q)) (b : Q),
             (ref = None \/ exists e, ref = Some e /\ offsetWidth e == 0) ->
             orElse (option_map (@offsetWidth Q) ref) b = b).
  { intros ref b [-> | (e & -> & Hz)]; [ reflexivity | ].
    unfold orElse. cbn [option_map truthy Q_JsNumber]. unfold Qtruthy.
    apply Qeq_bool_iff in Hz. rewrite Hz. reflexivity. }
  unfold backgroundRenderWidth. repeat split.
  - intros bgImage Href Hw. rewrite Href. apply orElse_truthy; [ reflexivity | exact Hw ].
  - intros container Himg Href Hw. rewrite (Hfalsy _ _ Himg), Href.
    apply orElse_truthy; [ reflexivity | exact Hw ].
  - intros Himg Hcont. rewrite (Hfalsy _ _ Himg), (Hfalsy _ _ Hcont). reflexivity.
Qed.

End MoreRationalLaws.

(** * The drop zone *)

Section DropZoneLaws.
Context {num : Type}.
Local Open Scope string_scope.
Local Open Scope list_scope.

Lemma uploads_app (a b : list (UploaderEffect num)) :
  uploads (a ++ b) = uploads a ++ uploads b.
Proof.
  induction a as [| e a IH]; [ reflexivity | ].
  destruct e; cbn [uploads List.app]; rewrite IH; reflexivity.
Qed.

(** One file, at most one call of [onImageUpload]. *)
Lemma handleFile_at_most_once (env : Browser num) (file : option (File num)) :
  (length (uploads (handleFile env file)) <= 1)%nat.
Proof.
  unfold handleFile. destruct file as [f| ]; [ | auto ].
  destruct (String.prefix "image/" (file_type f)); [ | auto ].
  destruct (readAsDataURL env f) as [base64| ]; [ | auto ].
  destruct (decodeImage env base64) as [[w h]| ]; cbn; auto.
Qed.

Lemma uploaderHandle_firstOnly (env : Browser num) (isDragging : bool)
    (event : UploaderEvent num) :
  uploaderHandle env isDragging (firstOnly event) = uploaderHandle env isDragging event.
Proof. destruct event as [| | | [[| f l]| ] | [[| f l]| ]]; reflexivity. Qed.

(** Of the files an event carries only the first counts: the drop zone
    behaves the same with the others removed; it calls [onImageUpload] at
    most once per event that carries a file, and only with the first file of
    such an event, which is an image. *)
Theorem uploaderRun_first_files (env : Browser num) (isDragging : bool)
    (events : list (UploaderEvent num)) :
  uploaderRun env isDragging (map firstOnly events) = uploaderRun env isDragging events
  /\ (length (uploads (snd (uploaderRun env isDragging events)))
      <= length (filter carriesFile events))%nat
  /\ (forall fileInfo : FileInfo num,
         In fileInfo (uploads (snd (uploaderRun env isDragging events))) ->
         exists (event : UploaderEvent num) (file : File num),
           In event events
           /\ hd_error (eventFiles event) = Some file
           /\ String.prefix "image/" (file_type file) = true
           /\ fi_name fileInfo = file_name file
           /\ fi_type fileInfo = file_type file).
Proof.
  split; [ | split ].
  - revert isDragging. induction events as [| event events IH]; intros d; [ reflexivity | ].
    cbn [map uploaderRun]. rewrite uploaderHandle_firstOnly.
    destruct (uploaderHandle env d event) as [d' effects]. rewrite IH. reflexivity.
  - revert isDragging. induction events as [| event events IH]; intros d; [ auto | ].
    cbn [uploaderRun filter].
    destruct (uploaderHandle env d event) as [d' effects] eqn:Hh.
    specialize (IH d').
    destruct (uploaderRun env d' events) as [d'' later]. cbn [snd] in *.
    rewrite uploads_app, length_app.
    assert (Hlen : (length (uploads effects) <= if carriesFile event then 1 else 0)%nat).
    { destruct event as [| | | [[| f l]| ] | [[| f l]| ]];
        cbn [uploaderHandle firstFile] in Hh; injection Hh as <- <-;
        cbn [carriesFile];
        first [ exact (handleFile_at_most_once env (Some f)) | cbn; auto ]. }
    destruct (carriesFile event); cbn [length]; lia.
  - revert isDragging. induction events as [| event events IH]; intros d fileInfo;
      [ intros [] | ].
    cbn [uploaderRun].
    destruct (uploaderHandle env d event) as [d' effects] eqn:Hh.
    specialize (IH d').
    destruct (uploaderRun env d' events) as [d'' later]. cbn [snd] in *.
    rewrite uploads_app, in_app_iff. intros [Hin | Hin].
    + assert (Hfile : exists file, hd_error (eventFiles event) = Some file
                                   /\ In fileInfo (uploads (handleFile env (Some file)))).
      { destruct event as [| | | [[| f l]| ] | [[| f l]| ]];
          cbn [uploaderHandle firstFile] in Hh; injection Hh as <- <-;
          try (destruct Hin; fail); exists f; split;
          first [ reflexivity | exact Hin ]. }
      destruct Hfile as (file & Hhd & Hup).
      exists event, file. split; [ left; reflexivity | ]. split; [ exact Hhd | ].
      unfold handleFile in Hup.
      destruct (String.prefix "image/" (file_type file)); [ | destruct Hup ].
      destruct (readAsDataURL env file) as [base64| ]; [ | destruct Hup ].
      destruct (decodeImage env base64) as [[w h]| ]; [ | destruct Hup ].
      destruct Hup as [<- | []]. repeat split.
    + destruct (IH fileInfo Hin) as (ev & file & Hev & Hrest).
      exists ev, file. split; [ right; exact Hev | exact Hrest ].
Qed.

(** The highlight of the drop zone depends on the last event only: on after
    an enter, off after a leave or a drop. *)
Theorem uploaderRun_dragging (env : Browser num) (isDragging : bool)
    (events : list (UploaderEvent num)) (last : UploaderEvent num) :
  fst (uploaderRun env isDragging (events ++ [last])) =
  match last with
  | DragEnter => true
  | DragLeave | DropFiles _ => false
  | DragOver | FileChange _ => fst (uploaderRun env isDragging events)
  end.
Proof.
  revert isDragging. induction events as [| event events IH]; intros d.
  - destruct last; cbn; try reflexivity;
      match goal with |- context [match ?x with _ => _ end] => destruct x end;
      reflexivity.
  - cbn [List.app uploaderRun].
    destruct (uploaderHandle env d event) as [d' effects].
    specialize (IH d').
    destruct (uploaderRun env d' (events ++ [last])) as [d1 l1].
    destruct (uploaderRun env d' events) as [d2 l2].
    cbn [fst] in *. exact IH.
Qed.
End DropZoneLaws.

(** * The directional pad *)

Section PadLaws.
Local Open Scope string_scope.

Lemma directions_labels_NoDup : NoDup (map dir_label directions).
Proof.
  repeat constructor; cbn; intuition discriminate.
Qed.

Lemma filter_eqb_NoDup (labels : list string) (selected : string) :
  NoDup labels ->
  (length (filter (fun l => (selected =? l)%string) labels) <= 1)%nat.
Proof.
  induction 1 as [| l labels Hnot _ IH]; [ auto | ].
  cbn [filter]. destruct (String.eqb_spec selected l) as [-> | Hne]; [ | exact IH ].
  assert (Hnone : filter (fun l' => l =? l') labels = []).
  { clear IH. induction labels as [| l' labels IH']; [ reflexivity | ].
    cbn [filter]. destruct (String.eqb_spec l l') as [-> | Hne'].
    - exfalso. apply Hnot. left. reflexivity.
    - apply IH'. intros Hin. apply Hnot. right. exact Hin. }
  rewrite Hnone. auto.
Qed.

(** Whatever the selection, at most one button of the pad is pressed, and
    none without a selection; the buttons have distinct keys; and a button
    that is clicked, its label stored as the selection, is the one pressed. *)
Theorem pad_selection (selectedDirection : option string) :
  (length (pressedButtons selectedDirection) <= 1)%nat
  /\ (forall button : PadButton,
         In button (DirectionalPad selectedDirection) ->
         map btn_key (pressedButtons (Some (btn_click button))) = [btn_key button])
  /\ NoDup (map btn_key (DirectionalPad selectedDirection))
  /\ (selectedDirection = None -> pressedButtons selectedDirection = []).
Proof.
  split; [ | split; [ | split ] ].
  - destruct selectedDirection as [selected| ]; [ | cbn; auto ].
    assert (Hlen : forall l : list Direction,
               length (filter btn_ariaPressed
                         (map (fun dir =>
                                 {| btn_key := dir_label dir;
                                    btn_click := dir_label dir;
                                    btn_ariaLabel := "Set direction to " ++ dir_label dir;
                                    btn_ariaPressed := isSelected (Some selected) dir;
                                    btn_position := dir_position dir;
                                    btn_rotation := dir_rotation dir |}) l))
               = length (filter (fun l' => selected =? l') (map dir_label l))).
    { induction l as [| d l IH]; [ reflexivity | ].
      cbn [map filter btn_ariaPressed].
      change (isSelected (Some selected) d) with (selected =? dir_label d).
      destruct (selected =? dir_label d); cbn [length]; rewrite IH; reflexivity. }
    unfold pressedButtons, DirectionalPad. rewrite Hlen.
    exact (filter_eqb_NoDup (map dir_label directions) selected directions_labels_NoDup).
  - intros button Hin. unfold DirectionalPad in Hin. apply in_map_iff in Hin.
    destruct Hin as (d & <- & Hd). cbn [btn_click btn_key].
    repeat (destruct Hd as [<- | Hd]; [ reflexivity | ]). destruct Hd.
  - unfold DirectionalPad. rewrite map_map. cbn [btn_key].
    exact directions_labels_NoDup.
  - intros ->. reflexivity.
Qed.
End PadLaws.

(** * The visit, checked *)

Section TourRuns.
Local Open Scope float_scope.
Local Open Scope string_scope.

Lemma tour_ready_reachable : Reachable Tour.ready.
Proof.
  apply (run_Reachable Tour.arrive initialSystem Tour.ready reach_initial).
  vm_compute. reflexivity.
Qed.

Lemma tour_waiting_reachable : Reachable Tour.waiting.
Proof.
  apply (run_Reachable [ (Tour.studio, ClickGenerate) ] Tour.ready Tour.waiting
           tour_ready_reachable).
  vm_compute. reflexivity.
Qed.

Lemma tour_done_reachable : Reachable Tour.done.
Proof.
  apply (run_Reachable [ (Tour.studio, ImagesLoad 0); (Tour.studio, BlendSettles 0) ]
           Tour.waiting Tour.done tour_waiting_reachable).
  vm_compute. reflexivity.
Qed.

(** While the page waits for the images, one generation is suspended. *)
Lemma generations_serialized_witness :
  (length (generations Tour.waiting) <= 1)%nat
  /\ (isLoading (app Tour.waiting) = true <-> generations Tour.waiting <> [])
  /\ (generations Tour.waiting <> [] ->
      forall env : Browser float, step env ClickGenerate Tour.waiting = None).
Proof. exact (generations_serialized Tour.waiting tour_waiting_reachable). Defined.

(** The suspended generation of the visit finds the background image. *)
Lemma generation_finds_background_witness :
  (exists renderedBg, backgroundImageRef Tour.studio = Some renderedBg)
  /\ forall message : string,
       generateResumes Tour.studio Tour.suspended <> Some (inl message).
Proof.
  apply (generation_finds_background Tour.waiting Tour.studio Tour.suspended
           tour_waiting_reachable).
  - left. reflexivity.
  - reflexivity.
Defined.

(** The anchor of the visit has both its files. *)
Lemma placement_needs_both_files_witness :
  subjectVehicle (app Tour.ready) <> None /\ backgroundScene (app Tour.ready) <> None.
Proof.
  apply (proj1 (placement_needs_both_files Tour.ready tour_ready_reachable)).
  discriminate.
Defined.

(** At the end of the visit no guard message is shown. *)
Lemma not_ready_message_never_shown_witness :
  error (app Tour.done) <> Some notReadyMessage.
Proof. exact (not_ready_message_never_shown Tour.done tour_done_reachable). Defined.

(** The files of the visit stay through its generation. *)
Lemma images_are_final_witness :
  subjectVehicle (app Tour.done) = subjectVehicle (app Tour.ready)
  /\ backgroundScene (app Tour.done) = backgroundScene (app Tour.ready)
  /\ mounted (app Tour.done) = true.
Proof.
  apply (images_are_final
           [ (Tour.studio, ClickGenerate); (Tour.studio, ImagesLoad 0);
             (Tour.studio, BlendSettles 0) ] Tour.ready Tour.done);
    vm_compute; reflexivity.
Defined.

(** The generation of the visit, step by step and as a whole. *)
Lemma run_agrees_with_handleGenerate_witness :
  exists mid : System float,
    run [ (Tour.studio, ClickGenerate); (Tour.studio, ImagesLoad 0) ] Tour.ready
    = Some mid
    /\ option_map (fun c => [c]) (composite (handleGenerate Tour.studio (app Tour.ready)))
       = Some (sentComposites mid)
    /\ exists sys' : System float,
         run [ (Tour.studio, BlendSettles 0) ] mid = Some sys'
         /\ app sys' = final_state (handleGenerate Tour.studio (app Tour.ready))
         /\ generations sys' = [].
Proof.
  apply (run_agrees_with_handleGenerate Tour.studio Tour.ready
           {| img_src := "data:bg"; naturalWidth := 1000; naturalHeight := 500 |}
           Demo.carImage (500, 250) 0.5); reflexivity.
Defined.

(** Moving the slider and the vehicle does not unblock a generation whose
    images do not load. *)
Lemma generation_stuck_without_images_witness :
  isLoading (app Tour.stuck) = true
  /\ generations Tour.stuck = [Tour.suspended]
  /\ isGenerateDisabled (app Tour.stuck) = true
  /\ forall env : Browser float, step env ClickGenerate Tour.stuck = None.
Proof.
  apply (generation_stuck_without_images Tour.fiddle Tour.waiting Tour.stuck
           Tour.suspended); try reflexivity.
  repeat constructor.
Defined.

(** A refused extraction on the demo page. *)
Lemma handleSubjectUpload_failures_witness :
  extractedVehicle (handleSubjectUpload Tour.refusing Demo.subject Demo.placed) = None
  /\ error (handleSubjectUpload Tour.refusing Demo.subject Demo.placed)
     = Some ("Failed to extract vehicle: " ++ "quota exceeded").
Proof.
  apply (proj1 (handleSubjectUpload_failures Tour.refusing Demo.subject Demo.placed)
               "quota exceeded").
  reflexivity.
Defined.

(** A refused blend on the demo page: an error and no result. *)
Lemma handleGenerate_result_or_error_witness :
  (exists (sent : FileInfo float) (result : string),
      blendCalls (handleGenerate Tour.refusing Demo.placed) = [sent]
      /\ blendVehicleIntoScene Tour.refusing sent = inl result
      /\ generatedImage (final_state (handleGenerate Tour.refusing Demo.placed))
         = Some result
      /\ error (final_state (handleGenerate Tour.refusing Demo.placed)) = None)
  \/ (exists message : string,
        generatedImage (final_state (handleGenerate Tour.refusing Demo.placed)) = None
        /\ error (final_state (handleGenerate Tour.refusing Demo.placed))
           = Some ("An error occurred during generation: " ++ message)).
Proof.
  assert (Hready : notReady Demo.placed = false) by reflexivity.
  apply (proj1 (handleGenerate_result_or_error Tour.refusing Demo.placed Hready)).
  reflexivity.
Defined.

(** A new background and a new drop on the demo page. *)
Lemma new_background_needs_new_anchor_witness :
  notReady (handleVehicleDrop Demo.browser "extracted-vehicle" 10 20
              (handleBackgroundUpload Demo.background Demo.placed)) = false.
Proof.
  apply (proj2 (new_background_needs_new_anchor Demo.browser Demo.background Demo.placed)
               "extracted-vehicle" 10 20 Demo.box "data:car"); reflexivity.
Defined.

(** Of the two files dropped, the picture is handed over. *)
Lemma uploaderRun_first_files_witness :
  exists (event : UploaderEvent float) (file : File float),
    In event Tour.twoFiles
    /\ hd_error (eventFiles event) = Some file
    /\ String.prefix "image/" (file_type file) = true
    /\ fi_name Tour.backdrop = file_name file
    /\ fi_type Tour.backdrop = file_type file.
Proof.
  apply (proj2 (proj2 (uploaderRun_first_files Demo.browser false Tour.twoFiles))
               Tour.backdrop).
  left. reflexivity.
Defined.

(** Clicking the forward button presses it. *)
Lemma pad_selection_witness :
  map btn_key (pressedButtons (Some (btn_click Tour.forwardButton)))
  = [btn_key Tour.forwardButton].
Proof.
  apply (proj1 (proj2 (pad_selection None)) Tour.forwardButton).
  do 4 right. left. reflexivity.
Defined.

End TourRuns.

Section TourRunsQ.
Local Open Scope Q_scope.

(** In the upload view the default scale is derived from 512. *)
Lemma backgroundRenderWidth_fallbacks_witness :
  backgroundRenderWidth Tour.uploadQ = 512.
Proof.
  apply (proj2 (proj2 (backgroundRenderWidth_fallbacks Tour.uploadQ)));
    left; reflexivity.
Defined.

End TourRunsQ.

(** * binary64 arithmetic

    What the operations of binary64 return, in terms of the rationals the
    numbers stand for: a product, a quotient, a sum or a difference is the
    exact result rounded to 53 bits, so off by a factor of at most 2^-53,
    as long as it does not overflow, nor underflow for products and
    quotients.  This is derived from the specification of the operations
    in [SpecFloat]. *)

(** ** Digits *)

Section Binary64Digits.
Local Open Scope Z_scope.

Lemma digits2_pos_bounds (m : positive) :
  2 ^ (Zpos (digits2_pos m) - 1) <= Zpos m < 2 ^ Zpos (digits2_pos m).
Proof.
  induction m as [m IH | m IH | ]; cbn [digits2_pos].
  - rewrite Pos2Z.inj_succ.
    replace (Z.succ (Zpos (digits2_pos m)) - 1) with (Z.succ (Zpos (digits2_pos m) - 1)) by lia.
    rewrite !Z.pow_succ_r by lia. lia.
  - rewrite Pos2Z.inj_succ.
    replace (Z.succ (Zpos (digits2_pos m)) - 1) with (Z.succ (Zpos (digits2_pos m) - 1)) by lia.
    rewrite !Z.pow_succ_r by lia. lia.
  - cbn. lia.
Qed.

Lemma digits2_pos_unique (m : positive) (d : Z) :
  2 ^ (d - 1) <= Zpos m < 2 ^ d -> Zpos (digits2_pos m) = d.
Proof.
  intros [Hlo Hhi].
  pose proof (digits2_pos_bounds m) as [Blo Bhi].
  assert (Hd : 0 < d).
  { destruct (Z.ltb_spec 0 d); [ assumption | ].
    exfalso. assert (2 ^ d <= 1).
    { destruct (Z.eq_dec d 0) as [-> | ]; [ cbn; lia | ].
      rewrite Z.pow_neg_r by lia. lia. }
    lia. }
  destruct (Z.lt_trichotomy (Zpos (digits2_pos m)) d) as [Hlt | [Heq | Hgt]];
    [ | exact Heq | ].
  - exfalso.
    assert (2 ^ Zpos (digits2_pos m) <= 2 ^ (d - 1)) by (apply Z.pow_le_mono_r; lia).
    lia.
  - exfalso.
    assert (2 ^ d <= 2 ^ (Zpos (digits2_pos m) - 1)) by (apply Z.pow_le_mono_r; lia).
    lia.
Qed.

End Binary64Digits.

Section Binary64Laws.
Local Open Scope Q_scope.

(** ** Shifting right with a round and a sticky bit *)

Lemma inject_Z_double (p : positive) : inject_Z (Zpos p~0) == 2 * inject_Z (Zpos p).
Proof. unfold Qeq. cbn. lia. Qed.

Lemma inject_Z_double_1 (p : positive) : inject_Z (Zpos p~1) == 2 * inject_Z (Zpos p) + 1.
Proof. unfold Qeq. cbn. lia. Qed.

Lemma shr_1_encodes (mrs : shr_record) (X : Q) :
  (0 <= shr_m mrs)%Z -> encodes mrs X ->
  (0 <= shr_m (shr_1 mrs))%Z /\ encodes (shr_1 mrs) (X / 2).
Proof.
  destruct mrs as [m r s]. unfold encodes. cbn [shr_m].
  intros Hm Henc. unfold Qdiv. change (/ 2) with (1 # 2).
  destruct m as [| p | p]; [ | | lia ].
  - split; [ cbn; lia | ].
    destruct r, s; cbn [shr_1 orb shr_m loc_of_shr_record located] in *;
      change (inject_Z 0) with 0 in *; lra.
  - destruct p as [p | p | ].
    + split; [ cbn; lia | ].
      pose proof (inject_Z_double_1 p) as Hd.
      destruct r, s; cbn [shr_1 orb shr_m loc_of_shr_record located] in *; lra.
    + split; [ cbn; lia | ].
      pose proof (inject_Z_double p) as Hd.
      destruct r, s; cbn [shr_1 orb shr_m loc_of_shr_record located] in *; lra.
    + split; [ cbn; lia | ].
      destruct r, s; cbn [shr_1 orb shr_m loc_of_shr_record located] in *;
        change (inject_Z 0) with 0 in *; change (inject_Z 1) with 1 in *; lra.
Qed.

Lemma iter_pos_nat {A : Type} (f : A -> A) (p : positive) (x : A) :
  iter_pos f p x = Nat.iter (Pos.to_nat p) f x.
Proof.
  revert x. induction p as [p IH | p IH | ]; intros x; cbn [iter_pos].
  - rewrite !IH, Pos2Nat.inj_xI.
    replace (S (2 * Pos.to_nat p)) with (Pos.to_nat p + S (Pos.to_nat p))%nat by lia.
    rewrite Nat.iter_add, Nat.iter_succ_r. reflexivity.
  - rewrite !IH, Pos2Nat.inj_xO.
    replace (2 * Pos.to_nat p)%nat with (Pos.to_nat p + Pos.to_nat p)%nat by lia.
    rewrite Nat.iter_add. reflexivity.
  - reflexivity.
Qed.

Lemma located_compat (m : Z) (l : location) (X Y : Q) :
  X == Y -> located m l X -> located m l Y.
Proof.
  intros E. destruct l as [| []]; cbn [located]; rewrite E; trivial.
Qed.

Lemma shr_iter_encodes (n : nat) (mrs : shr_record) (X : Q) :
  (0 <= shr_m mrs)%Z -> encodes mrs X ->
  (0 <= shr_m (Nat.iter n shr_1 mrs))%Z
  /\ encodes (Nat.iter n shr_1 mrs) (X / 2 ^ Z.of_nat n).
Proof.
  intros Hm Henc. induction n as [| n [IHm IHe]].
  - cbn [Nat.iter]. split; [ exact Hm | ].
    apply (located_compat _ _ X); [ cbn; field | exact Henc ].
  - cbn [Nat.iter].
    destruct (shr_1_encodes _ _ IHm IHe) as [Hm' He'].
    split; [ exact Hm' | ].
    apply (located_compat _ _ (X / 2 ^ Z.of_nat n / 2)); [ | exact He' ].
    rewrite Nat2Z.inj_succ. unfold Z.succ.
    rewrite Qpower_plus by (intro H; discriminate H).
    assert (~ 2 ^ Z.of_nat n == 0) by (apply Qpower_not_0; intro H; discriminate H).
    change (2 ^ 1) with 2. field. assumption.
Qed.

Lemma located_bounds (m : Z) (l : location) (X : Q) :
  located m l X -> inject_Z m <= X /\ X < inject_Z m + 1.
Proof. destruct l as [| []]; cbn [located]; intros H; lra. Qed.

Lemma shr_record_of_loc_encodes (m : Z) (l : location) (X : Q) :
  located m l X -> encodes (shr_record_of_loc m l) X.
Proof. unfold encodes. destruct l as [| []]; trivial. Qed.

Lemma shr_m_of_loc (m : Z) (l : location) : shr_m (shr_record_of_loc m l) = m.
Proof. destruct l as [| []]; reflexivity. Qed.

Lemma shr_encodes (mrs : shr_record) (e n : Z) (X : Q) :
  (0 <= shr_m mrs)%Z -> encodes mrs X -> (0 <= n)%Z ->
  (0 <= shr_m (fst (shr mrs e n)))%Z
  /\ encodes (fst (shr mrs e n)) (X / 2 ^ n)
  /\ snd (shr mrs e n) = (e + n)%Z.
Proof.
  intros Hm Henc Hn. destruct n as [| p | p]; [ | | lia ].
  - cbn [shr fst snd]. split; [ exact Hm | ]. split; [ | lia ].
    apply (located_compat _ _ X); [ cbn; field | exact Henc ].
  - cbn [shr fst snd]. rewrite iter_pos_nat.
    destruct (shr_iter_encodes (Pos.to_nat p) mrs X Hm Henc) as [Hm' He'].
    rewrite positive_nat_Z in He'. auto.
Qed.

Lemma round_nearest_even_located (m : Z) (l : location) (X : Q) :
  located m l X ->
  (round_nearest_even m l = m \/ round_nearest_even m l = (m + 1)%Z)
  /\ X - (1 # 2) <= inject_Z (round_nearest_even m l)
  /\ inject_Z (round_nearest_even m l) <= X + (1 # 2).
Proof.
  assert (H1 : inject_Z (m + 1) == inject_Z m + 1)
    by (rewrite inject_Z_plus; reflexivity).
  destruct l as [| []]; cbn [located round_nearest_even]; intros H.
  - split; [ auto | ]. lra.
  - destruct (Z.even m); [ split; [ auto | ]; lra | ].
    split; [ auto | ]. rewrite H1. lra.
  - split; [ auto | ]. lra.
  - split; [ auto | ]. rewrite H1. lra.
Qed.

Lemma fexp_eq (e : Z) : fexp prec emax e = Z.max (e - 53) (-1074).
Proof. reflexivity. Qed.

(** *** Powers of two *)

Lemma pow2_pos (e : Z) : 0 < 2 ^ e.
Proof. apply Qpower_0_lt. reflexivity. Qed.

Lemma pow2_plus (a b : Z) : 2 ^ (a + b) == 2 ^ a * 2 ^ b.
Proof. apply Qpower_plus. intro H; discriminate H. Qed.

Lemma pow2_minus (a b : Z) : 2 ^ (a - b) == 2 ^ a / 2 ^ b.
Proof. apply Qpower_minus. intro H; discriminate H. Qed.

Lemma pow2_le (a b : Z) : (a <= b)%Z -> 2 ^ a <= 2 ^ b.
Proof. intros H. apply Qpower_le_compat_l; [ exact H | discriminate ]. Qed.

Lemma pow2_lt (a b : Z) : (a < b)%Z -> 2 ^ a < 2 ^ b.
Proof. intros H. apply Qpower_lt_compat_l; [ exact H | reflexivity ]. Qed.

Lemma pow2_inject (k : Z) : (0 <= k)%Z -> inject_Z (2 ^ k) == 2 ^ k.
Proof. intros H. rewrite Zpower_Qpower by exact H. reflexivity. Qed.

Lemma pow2_succ (a : Z) : 2 ^ (a + 1) == 2 * 2 ^ a.
Proof. rewrite pow2_plus. change (2 ^ 1) with 2. ring. Qed.

(** *** Rounding to 53 bits *)

Lemma digits_of_bounds (m : Z) (d : Z) :
  (2 ^ (d - 1) <= m < 2 ^ d)%Z -> (0 < m)%Z -> Zdigits2 m = d.
Proof.
  intros Hb Hm. destruct m as [| p | p]; try lia.
  cbn [Zdigits2]. apply digits2_pos_unique. exact Hb.
Qed.

Lemma binary_round_aux_exact (s : bool) (m : positive) (e : Z) :
  fexp prec emax (Zpos (digits2_pos m) + e) = e -> (e <= 971)%Z ->
  binary_round_aux prec emax s (Zpos m) e loc_Exact = S754_finite s m e.
Proof.
  intros Hf He. unfold binary_round_aux, shr_fexp.
  cbn [Zdigits2 shr_record_of_loc]. rewrite Hf, Z.sub_diag.
  cbn [shr shr_m loc_of_shr_record round_nearest_even Zdigits2 shr_record_of_loc].
  rewrite Hf, Z.sub_diag. cbn [shr shr_m].
  replace (e <=? emax - prec)%Z with true; [ reflexivity | ].
  symmetry. apply Z.leb_le. exact He.
Qed.

Lemma Qdiv_pow2_bounds (X : Q) (D n : Z) :
  inject_Z (2 ^ (D - 1)) <= X -> X < inject_Z (2 ^ D) ->
  (1 <= D)%Z -> (0 <= n)%Z -> (n <= D - 1)%Z ->
  2 ^ (D - 1 - n) <= X / 2 ^ n /\ X / 2 ^ n < 2 ^ (D - n).
Proof.
  intros Hlo Hhi HD Hn HnD.
  rewrite pow2_inject in Hlo by lia. rewrite pow2_inject in Hhi by lia.
  pose proof (pow2_pos n) as Hp.
  pose proof (pow2_minus (D - 1) n) as E1. pose proof (pow2_minus D n) as E2.
  rewrite E1, E2. split.
  - apply Qmult_le_r with (z := 2 ^ n); [ exact Hp | ].
    setoid_replace (X / 2 ^ n * 2 ^ n) with X by (field; lra).
    setoid_replace (2 ^ (D - 1) / 2 ^ n * 2 ^ n) with (2 ^ (D - 1)) by (field; lra).
    exact Hlo.
  - apply Qmult_lt_r with (z := 2 ^ n); [ exact Hp | ].
    setoid_replace (X / 2 ^ n * 2 ^ n) with X by (field; lra).
    setoid_replace (2 ^ D / 2 ^ n * 2 ^ n) with (2 ^ D) by (field; lra).
    exact Hhi.
Qed.

Lemma binary_round_aux_normal (s : bool) (p : positive) (ex : Z) (lx : location) (X : Q) :
  located (Zpos p) lx X ->
  (53 <= Zpos (digits2_pos p))%Z ->
  (-1074 <= Zpos (digits2_pos p) + ex - 53)%Z ->
  (Zpos (digits2_pos p) + ex <= 1023)%Z ->
  exists (m' : positive) (e' : Z),
    binary_round_aux prec emax s (Zpos p) ex lx = S754_finite s m' e'
    /\ (1 - u53) * (X * 2 ^ ex) <= inject_Z (Zpos m') * 2 ^ e'
    /\ inject_Z (Zpos m') * 2 ^ e' <= (1 + u53) * (X * 2 ^ ex)
    /\ 0 < X.
Proof.
  intros Hloc HD Hmin Hmax.
  set (D := Zpos (digits2_pos p)) in *.
  set (n := (D - 53)%Z).
  assert (Hn : (0 <= n)%Z) by (unfold n; lia).
  (* the bounds on X *)
  pose proof (digits2_pos_bounds p) as [Blo Bhi]. fold D in Blo, Bhi.
  pose proof (located_bounds _ _ _ Hloc) as [Xlo Xhi].
  assert (HXlo : inject_Z (2 ^ (D - 1)) <= X).
  { apply Qle_trans with (2 := Xlo). rewrite <- Zle_Qle. exact Blo. }
  assert (HXhi : X < inject_Z (2 ^ D)).
  { apply Qlt_le_trans with (1 := Xhi).
    change 1 with (inject_Z 1). rewrite <- inject_Z_plus, <- Zle_Qle. lia. }
  assert (HX0 : 0 < X).
  { apply Qlt_le_trans with (2 := Xlo). change 0 with (inject_Z 0).
    rewrite <- Zlt_Qlt. reflexivity. }
  destruct (Qdiv_pow2_bounds X D n HXlo HXhi) as [Ylo Yhi]; try (unfold n; lia).
  replace (D - 1 - n)%Z with 52%Z in Ylo by (unfold n; lia).
  replace (D - n)%Z with 53%Z in Yhi by (unfold n; lia).
  (* the first shift *)
  unfold binary_round_aux, shr_fexp. cbn [Zdigits2]. fold D.
  rewrite fexp_eq.
  replace (Z.max (D + ex - 53) (-1074) - ex)%Z with n by (unfold n; lia).
  destruct (shr_encodes (shr_record_of_loc (Zpos p) lx) ex n X) as (Hm1 & He1 & Hs1);
    [ rewrite shr_m_of_loc; lia | apply shr_record_of_loc_encodes; exact Hloc | exact Hn | ].
  destruct (shr (shr_record_of_loc (Zpos p) lx) ex n) as [mrs1 e1].
  cbn [fst snd] in Hm1, He1, Hs1. subst e1.
  set (Y := X / 2 ^ n) in *.
  pose proof (located_bounds _ _ _ He1) as [Mlo Mhi].
  assert (HM : (2 ^ 52 <= shr_m mrs1 < 2 ^ 53)%Z).
  { split.
    - assert (H : inject_Z (2 ^ 52) < inject_Z (shr_m mrs1 + 1)).
      { rewrite inject_Z_plus. change (inject_Z 1) with 1.
        rewrite pow2_inject by lia. lra. }
      rewrite <- Zlt_Qlt in H. lia.
    - rewrite Zlt_Qlt, pow2_inject by lia. lra. }
  (* rounding *)
  destruct (round_nearest_even_located _ _ _ He1) as (Hr & Rlo & Rhi).
  set (r := round_nearest_even (shr_m mrs1) (loc_of_shr_record mrs1)) in *.
  assert (Hval : X * 2 ^ ex == Y * 2 ^ (ex + n)).
  { unfold Y. rewrite pow2_plus. field. pose proof (pow2_pos n). lra. }
  assert (Hbig : 2 ^ (ex + n) <= 2 * u53 * (Y * 2 ^ (ex + n))).
  { unfold u53. pose proof (pow2_pos (ex + n)) as Hp.
    assert (H53 : 2 * 2 ^ (-53) * 2 ^ 52 == 1) by reflexivity.
    setoid_replace (2 ^ (ex + n)) with (2 * 2 ^ (-53) * (2 ^ 52 * 2 ^ (ex + n))) at 1
      by (rewrite Qmult_assoc, H53; ring).
    apply Qmult_le_l; [ reflexivity | ].
    apply Qmult_le_compat_r; lra. }
  assert (Hr53 : (r < 2 ^ 53 \/ r = 2 ^ 53)%Z) by lia.
  assert (Hgoal : forall (m' : positive) (e' : Z),
             inject_Z (Zpos m') * 2 ^ e' == inject_Z r * 2 ^ (ex + n) ->
             (1 - u53) * (X * 2 ^ ex) <= inject_Z (Zpos m') * 2 ^ e'
             /\ inject_Z (Zpos m') * 2 ^ e' <= (1 + u53) * (X * 2 ^ ex)
             /\ 0 < X).
  { intros m' e' E. rewrite E, Hval.
    pose proof (pow2_pos (ex + n)) as Hp.
    assert (H1 : (Y - (1 # 2)) * 2 ^ (ex + n) <= inject_Z r * 2 ^ (ex + n))
      by (apply Qmult_le_compat_r; lra).
    assert (H2 : inject_Z r * 2 ^ (ex + n) <= (Y + (1 # 2)) * 2 ^ (ex + n))
      by (apply Qmult_le_compat_r; lra).
    repeat split; try lra. }
  destruct Hr53 as [Hlt | Heq].
  - (* no carry *)
    assert (Hrpos : (0 < r)%Z) by lia.
    destruct r as [| q | q] eqn:Er; try lia.
    exists q, (ex + n)%Z.
    assert (Hdq : Zpos (digits2_pos q) = 53%Z).
    { apply digits2_pos_unique. lia. }
    split; [ | apply Hgoal; reflexivity ].
    cbn [Zdigits2]. rewrite Hdq, fexp_eq.
    replace (Z.max (53 + (ex + n) - 53) (-1074) - (ex + n))%Z with 0%Z by (unfold n; lia).
    cbn [shr shr_record_of_loc shr_m].
    replace (ex + n <=? emax - prec)%Z with true; [ reflexivity | ].
    symmetry. apply Z.leb_le. unfold n. change (emax - prec)%Z with 971%Z. lia.
  - (* the mantissa rounds up to 2^53 *)
    rewrite Heq in *.
    exists (2 ^ 52)%positive, (ex + n + 1)%Z.
    split.
    + change (Zdigits2 (2 ^ 53)) with 54%Z. rewrite fexp_eq.
      replace (Z.max (54 + (ex + n) - 53) (-1074) - (ex + n))%Z with 1%Z by (unfold n; lia).
      cbn [shr shr_record_of_loc iter_pos].
      change (shr_m (shr_1 {| shr_m := 2 ^ 53; shr_r := false; shr_s := false |}))
        with (Zpos (2 ^ 52)).
      replace (ex + n + 1 <=? emax - prec)%Z with true; [ reflexivity | ].
      symmetry. apply Z.leb_le. unfold n. change (emax - prec)%Z with 971%Z. lia.
    + apply Hgoal. rewrite pow2_succ.
      assert (H : inject_Z (Zpos (2 ^ 52)) * 2 == inject_Z (2 ^ 53)) by reflexivity.
      rewrite <- H. ring.
Qed.

(** ** Canonical mantissas *)

Lemma valid_finite (s : bool) (m : positive) (e : Z) :
  valid_binary (S754_finite s m e) = true ->
  Z.max (Zpos (digits2_pos m) + e - 53) (-1074) = e /\ (e <= 971)%Z.
Proof.
  cbn [SpecFloat.valid_binary]. unfold bounded, canonical_mantissa.
  rewrite andb_true_iff, Z.eqb_eq, Z.leb_le, fexp_eq. auto.
Qed.

Lemma SF2Q_finite (s : bool) (m : positive) (e : Z) :
  SF2Q (S754_finite s m e) == sgnQ s * (inject_Z (Zpos m) * 2 ^ e).
Proof. destruct s; cbn [SF2Q sgnQ]; ring. Qed.

Lemma sgnQ_xorb (a b : bool) : sgnQ (xorb a b) == sgnQ a * sgnQ b.
Proof. destruct a, b; reflexivity. Qed.

Lemma Qabs_sgnQ (s : bool) (P : Q) : 0 <= P -> Qabs (sgnQ s * P) == P.
Proof.
  intros HP. rewrite Qabs_Qmult.
  assert (Qabs (sgnQ s) == 1) by (destruct s; reflexivity).
  rewrite H, (Qabs_pos P HP). ring.
Qed.

(** The value of a mantissa with [d] digits at exponent [e]. *)
Lemma value_bounds (m : positive) (e : Z) :
  2 ^ (Zpos (digits2_pos m) - 1 + e) <= inject_Z (Zpos m) * 2 ^ e
  /\ inject_Z (Zpos m) * 2 ^ e < 2 ^ (Zpos (digits2_pos m) + e).
Proof.
  pose proof (digits2_pos_bounds m) as [Blo Bhi].
  pose proof (pow2_pos e) as Hp.
  rewrite !pow2_plus. rewrite Zle_Qle in Blo. rewrite Zlt_Qlt in Bhi.
  rewrite pow2_inject in Blo, Bhi by lia.
  split.
  - apply Qmult_le_compat_r; lra.
  - apply Qmult_lt_compat_r; lra.
Qed.

Lemma digits2_pos_mul (a b : positive) :
  (Zpos (digits2_pos a) + Zpos (digits2_pos b) - 1 <= Zpos (digits2_pos (a * b))
   <= Zpos (digits2_pos a) + Zpos (digits2_pos b))%Z.
Proof.
  pose proof (digits2_pos_bounds a) as [Alo Ahi].
  pose proof (digits2_pos_bounds b) as [Blo Bhi].
  pose proof (digits2_pos_bounds (a * b)) as [Plo Phi].
  rewrite Pos2Z.inj_mul in Plo, Phi.
  set (da := Zpos (digits2_pos a)) in *. set (db := Zpos (digits2_pos b)) in *.
  set (d := Zpos (digits2_pos (a * b))) in *.
  assert (Hda : (1 <= da)%Z) by (unfold da; lia).
  assert (Hdb : (1 <= db)%Z) by (unfold db; lia).
  assert (Hd : (1 <= d)%Z) by (unfold d; lia).
  assert (Hlo : (2 ^ (da - 1 + (db - 1)) <= Zpos a * Zpos b)%Z).
  { rewrite Z.pow_add_r by lia. apply Z.mul_le_mono_nonneg; lia. }
  assert (Hhi : (Zpos a * Zpos b < 2 ^ (da + db))%Z).
  { rewrite Z.pow_add_r by lia. apply Z.mul_lt_mono_nonneg; lia. }
  split.
  - assert (H : (2 ^ (da - 1 + (db - 1)) < 2 ^ d)%Z) by lia.
    apply Z.pow_lt_mono_r_iff in H; lia.
  - assert (H : (2 ^ (d - 1) < 2 ^ (da + db))%Z) by lia.
    apply Z.pow_lt_mono_r_iff in H; lia.
Qed.

Lemma SFrounds_intro (s : bool) (P : Q) (m' : positive) (e' : Z) (X : Q) (r : spec_float) :
  r = S754_finite s m' e' ->
  X == sgnQ s * P ->
  (1 - u53) * P <= inject_Z (Zpos m') * 2 ^ e' ->
  inject_Z (Zpos m') * 2 ^ e' <= (1 + u53) * P ->
  0 <= P ->
  SFrounds X r.
Proof.
  intros -> EX Hlo Hhi HP. split; [ reflexivity | ].
  rewrite SF2Q_finite, EX.
  setoid_replace (sgnQ s * (inject_Z (Zpos m') * 2 ^ e') - sgnQ s * P)
    with (sgnQ s * (inject_Z (Zpos m') * 2 ^ e' - P)) by ring.
  rewrite (Qabs_sgnQ s P HP), Qabs_Qmult.
  assert (Qabs (sgnQ s) == 1) by (destruct s; reflexivity).
  rewrite H.
  assert (Hab : Qabs (inject_Z (Zpos m') * 2 ^ e' - P) <= u53 * P)
    by (apply Qabs_Qle_condition; split; lra).
  lra.
Qed.

Lemma SFrounds_compat (X Y : Q) (r : spec_float) :
  X == Y -> SFrounds X r -> SFrounds Y r.
Proof. intros E [Fr Hr]. split; [ exact Fr | ]. rewrite <- E. exact Hr. Qed.

Lemma SFrounds_zero (r : spec_float) (X : Q) :
  SFfinite r = true -> SF2Q r == 0 -> X == 0 -> SFrounds X r.
Proof.
  intros Fr Er EX. split; [ exact Fr | ]. rewrite Er, EX. cbn. discriminate.
Qed.

Lemma inRange_exponent (P : Q) (d : Z) :
  2 ^ (d - 1) <= P -> P < 2 ^ d -> inRange P -> (-1021 <= d <= 1023)%Z.
Proof.
  intros Hlo Hhi [Rlo Rhi].
  assert (HP : 0 <= P) by (pose proof (pow2_pos (d - 1)); lra).
  rewrite (Qabs_pos P HP) in Rlo, Rhi.
  assert (H1 : 2 ^ (-1022) < 2 ^ d) by lra.
  assert (H2 : 2 ^ (d - 1) <= 2 ^ 1022) by lra.
  apply Qpower_lt_compat_l_inv in H1; [ | reflexivity ].
  apply Qpower_le_compat_l_inv in H2; [ | reflexivity ].
  lia.
Qed.

(** ** Multiplication *)

Lemma SFmul_rounds (x y : spec_float) :
  valid_binary x = true -> valid_binary y = true ->
  SFfinite x = true -> SFfinite y = true ->
  SF2Q x * SF2Q y == 0 \/ inRange (SF2Q x * SF2Q y) ->
  SFrounds (SF2Q x * SF2Q y) (SF64mul x y).
Proof.
  intros Vx Vy Fx Fy HR.
  assert (Hzero : forall r : spec_float, SFfinite r = true -> SF2Q r == 0 ->
                    forall X : Q, X == 0 -> SFrounds X r).
  { intros r Fr Er X EX. split; [ exact Fr | ]. rewrite Er, EX. cbn. discriminate. }
  destruct x as [sx | sx | | sx mx ex], y as [sy | sy | | sy my ey]; try discriminate;
    try (apply Hzero; [ reflexivity | reflexivity | cbn [SF2Q]; ring ]).
  apply valid_finite in Vx, Vy. destruct Vx as [Cx Ex], Vy as [Cy Ey].
  assert (EX : SF2Q (S754_finite sx mx ex) * SF2Q (S754_finite sy my ey)
               == sgnQ (xorb sx sy) * (inject_Z (Zpos (mx * my)) * 2 ^ (ex + ey))).
  { rewrite !SF2Q_finite, sgnQ_xorb, Pos2Z.inj_mul, inject_Z_mult, pow2_plus. ring. }
  set (P := inject_Z (Zpos (mx * my)) * 2 ^ (ex + ey)) in *.
  pose proof (value_bounds (mx * my) (ex + ey)) as [Plo Phi]. fold P in Plo, Phi.
  assert (HP : 0 < P) by (pose proof (pow2_pos (Zpos (digits2_pos (mx * my)) - 1 + (ex + ey))); lra).
  destruct HR as [HR | HR].
  { exfalso. rewrite EX in HR. destruct (xorb sx sy); cbn [sgnQ] in HR; lra. }
  assert (HRP : inRange P).
  { unfold inRange in *. rewrite EX, Qabs_sgnQ in HR by lra.
    rewrite (Qabs_pos P) by lra. exact HR. }
  pose proof (inRange_exponent P (Zpos (digits2_pos (mx * my)) + (ex + ey))) as HE.
  replace (Zpos (digits2_pos (mx * my)) + (ex + ey) - 1)%Z
    with (Zpos (digits2_pos (mx * my)) - 1 + (ex + ey))%Z in HE by lia.
  specialize (HE Plo Phi HRP).
  pose proof (digits2_pos_mul mx my) as HD.
  assert (H53 : (53 <= Zpos (digits2_pos (mx * my)))%Z) by lia.
  destruct (binary_round_aux_normal (xorb sx sy) (mx * my) (ex + ey) loc_Exact
              (inject_Z (Zpos (mx * my))))
    as (m' & e' & Hr & Hlo & Hhi & _); try lia; [ reflexivity | ].
  cbn [SF64mul SFmul]. unfold SF64mul, SFmul.
  apply (SFrounds_intro (xorb sx sy) P m' e'); try assumption; lra.
Qed.

(** ** Division *)

Lemma inject_Z_pos (m : Z) : (0 < m)%Z -> 0 < inject_Z m.
Proof. intros H. change 0 with (inject_Z 0). rewrite <- Zlt_Qlt. exact H. Qed.

Lemma new_location_located (nb k q : Z) :
  (0 < nb)%Z -> (0 <= k < nb)%Z ->
  located q (new_location nb k) (inject_Z q + inject_Z k / inject_Z nb).
Proof.
  intros Hnb Hk.
  pose proof (inject_Z_pos nb Hnb) as Hnb'.
  assert (Hlt : forall a : Z, (2 * k < a)%Z -> (a <= nb)%Z ->
                              inject_Z k / inject_Z nb < 1 # 2).
  { intros a H1 H2. apply Qlt_shift_div_r; [ exact Hnb' | ].
    assert (H : (2 * k < nb)%Z) by lia.
    rewrite Zlt_Qlt, inject_Z_mult in H. change (inject_Z 2) with 2 in H. lra. }
  assert (Hgt : (nb < 2 * k)%Z -> 1 # 2 < inject_Z k / inject_Z nb).
  { intros H. apply Qlt_shift_div_l; [ exact Hnb' | ].
    rewrite Zlt_Qlt, inject_Z_mult in H. change (inject_Z 2) with 2 in H. lra. }
  assert (Heq : (2 * k = nb)%Z -> inject_Z k / inject_Z nb == 1 # 2).
  { intros H. rewrite <- H, inject_Z_mult. change (inject_Z 2) with 2.
    field. intro E. rewrite <- H, inject_Z_mult in Hnb'. change (inject_Z 2) with 2 in Hnb'. lra. }
  assert (Hpos : (0 < k)%Z -> 0 < inject_Z k / inject_Z nb).
  { intros H. apply Qlt_shift_div_l; [ exact Hnb' | ].
    pose proof (inject_Z_pos k H). lra. }
  assert (Hone : inject_Z k / inject_Z nb < 1).
  { apply Qlt_shift_div_r; [ exact Hnb' | ].
    assert (H : (k < nb)%Z) by lia. rewrite Zlt_Qlt in H. lra. }
  unfold new_location.
  destruct (Z.even nb) eqn:Hev; unfold new_location_even, new_location_odd;
    (destruct (Z.eqb_spec k 0) as [-> | Hk0];
     [ cbn [located]; change (inject_Z 0) with 0; field; lra | ]);
    assert (Hkpos : (0 < k)%Z) by lia; specialize (Hpos Hkpos).
  - destruct (Z.compare_spec (2 * k) nb) as [H | H | H]; cbn [located].
    + rewrite (Heq H). reflexivity.
    + pose proof (Hlt nb H (Z.le_refl nb)). lra.
    + pose proof (Hgt H). lra.
  - assert (Hodd : (2 * k <> nb)%Z).
    { intros <-. rewrite Z.even_mul in Hev. discriminate Hev. }
    destruct (Z.compare_spec (2 * k + 1) nb) as [H | H | H]; cbn [located].
    + assert (H' : (2 * k < nb)%Z) by lia.
      pose proof (Hlt nb H' (Z.le_refl nb)). lra.
    + assert (H' : (2 * k < nb)%Z) by lia.
      pose proof (Hlt nb H' (Z.le_refl nb)). lra.
    + assert (H' : (nb < 2 * k)%Z) by lia.
      pose proof (Hgt H'). lra.
Qed.

Lemma SFdiv_rounds (x y : spec_float) :
  valid_binary x = true -> valid_binary y = true ->
  SFfinite x = true -> SFfinite y = true ->
  ~ SF2Q y == 0 ->
  SF2Q x == 0 \/ inRange (SF2Q x / SF2Q y) ->
  SFrounds (SF2Q x / SF2Q y) (SF64div x y).
Proof.
  intros Vx Vy Fx Fy Hy HR.
  destruct y as [sy | sy | | sy my ey]; try discriminate;
    [ exfalso; apply Hy; reflexivity | ].
  destruct x as [sx | sx | | sx mx ex]; try discriminate.
  { apply SFrounds_zero; [ reflexivity | reflexivity | ].
    cbn [SF2Q] in *. field. exact Hy. }
  apply valid_finite in Vx, Vy. destruct Vx as [Cx Ex], Vy as [Cy Ey].
  set (d1 := Zpos (digits2_pos mx)) in *. set (d2 := Zpos (digits2_pos my)) in *.
  assert (Hd1 : (1 <= d1)%Z) by (unfold d1; lia).
  assert (Hd2 : (1 <= d2)%Z) by (unfold d2; lia).
  set (E := (d1 + ex - (d2 + ey))%Z).
  pose proof (value_bounds mx ex) as [Xlo Xhi]. fold d1 in Xlo, Xhi.
  pose proof (value_bounds my ey) as [Ylo Yhi]. fold d2 in Ylo, Yhi.
  set (vx := inject_Z (Zpos mx) * 2 ^ ex) in *.
  set (vy := inject_Z (Zpos my) * 2 ^ ey) in *.
  assert (Hvx : 0 < vx) by (pose proof (pow2_pos (d1 - 1 + ex)); lra).
  assert (Hvy : 0 < vy) by (pose proof (pow2_pos (d2 - 1 + ey)); lra).
  set (P := vx / vy).
  assert (EX : SF2Q (S754_finite sx mx ex) / SF2Q (S754_finite sy my ey)
               == sgnQ (xorb sx sy) * P).
  { rewrite !SF2Q_finite. fold vx vy. unfold P.
    destruct sx, sy; cbn [xorb sgnQ]; field; lra. }
  assert (HP : 0 < P) by (unfold P; apply Qlt_shift_div_l; lra).
  destruct HR as [HR | HR].
  { exfalso. rewrite SF2Q_finite in HR. fold vx in HR.
    destruct sx; cbn [sgnQ] in HR; lra. }
  assert (HRP : inRange P).
  { unfold inRange in *. rewrite EX, Qabs_sgnQ in HR by lra.
    rewrite (Qabs_pos P) by lra. exact HR. }
  (* the magnitude of the quotient *)
  assert (PElo : 2 ^ (E - 1) < P).
  { unfold P. apply Qlt_shift_div_l; [ exact Hvy | ].
    apply Qlt_le_trans with (2 ^ (E - 1) * 2 ^ (d2 + ey)).
    - apply Qmult_lt_l; [ apply pow2_pos | exact Yhi ].
    - rewrite <- pow2_plus. replace (E - 1 + (d2 + ey))%Z with (d1 - 1 + ex)%Z by (unfold E; lia).
      exact Xlo. }
  assert (PEhi : P < 2 ^ (E + 1)).
  { unfold P. apply Qlt_shift_div_r; [ exact Hvy | ].
    apply Qlt_le_trans with (2 ^ (E + 1) * 2 ^ (d2 - 1 + ey)).
    - rewrite <- pow2_plus. replace (E + 1 + (d2 - 1 + ey))%Z with (d1 + ex)%Z by (unfold E; lia).
      exact Xhi.
    - apply Qmult_le_l; [ apply pow2_pos | exact Ylo ]. }
  assert (HE : (-1022 <= E <= 1022)%Z).
  { destruct HRP as [Rlo Rhi]. rewrite (Qabs_pos P) in Rlo, Rhi by lra.
    assert (H1 : 2 ^ (-1022) < 2 ^ (E + 1)) by lra.
    assert (H2 : 2 ^ (E - 1) < 2 ^ 1022) by lra.
    apply Qpower_lt_compat_l_inv in H1; [ | reflexivity ].
    apply Qpower_lt_compat_l_inv in H2; [ | reflexivity ].
    lia. }
  (* the exponent and the shift of the division *)
  set (e' := Z.max (E - 53) (-1074)).
  assert (He' : Z.min (fexp prec emax E) (ex - ey) = e').
  { rewrite fexp_eq. fold e'. unfold e', E in *. lia. }
  set (sh := (ex - ey - e')%Z).
  assert (Hsh : (0 <= sh)%Z) by (unfold sh, e', E in *; lia).
  set (m' := (Zpos mx * 2 ^ sh)%Z).
  assert (Hm' : match sh with
                | Zpos _ => Z.shiftl (Zpos mx) sh
                | Z0 => Zpos mx
                | Zneg _ => 0%Z
                end = m').
  { unfold m'. destruct sh as [| psh | psh] eqn:Esh; [ cbn; lia | | lia ].
    rewrite Z.shiftl_mul_pow2 by lia. reflexivity. }
  pose proof (Z.div_eucl_eq m' (Zpos my)) as Hdiv.
  pose proof (Z.mod_pos_bound m' (Zpos my)) as Hmod.
  unfold Z.modulo in Hmod.
  destruct (Z.div_eucl m' (Zpos my)) as [q r] eqn:Hqr.
  specialize (Hdiv ltac:(lia)). specialize (Hmod ltac:(lia)).
  set (X := inject_Z q + inject_Z r / inject_Z (Zpos my)).
  assert (Hloc : located q (new_location (Zpos my) r) X)
    by (apply new_location_located; lia).
  assert (HXP : P == X * 2 ^ e').
  { unfold P, X, vx, vy.
    assert (E1 : inject_Z m' == inject_Z (Zpos my) * inject_Z q + inject_Z r).
    { rewrite Hdiv, inject_Z_plus, inject_Z_mult. reflexivity. }
    assert (E2 : inject_Z m' == inject_Z (Zpos mx) * 2 ^ sh).
    { unfold m'. rewrite inject_Z_mult, pow2_inject by exact Hsh. reflexivity. }
    assert (E3 : 2 ^ ex == 2 ^ sh * 2 ^ ey * 2 ^ e').
    { rewrite <- !pow2_plus. replace (sh + ey + e')%Z with ex by (unfold sh; lia).
      reflexivity. }
    pose proof (pow2_pos ey). pose proof (pow2_pos e'). pose proof (pow2_pos sh).
    pose proof (inject_Z_pos (Zpos my) eq_refl).
    rewrite E3.
    setoid_replace (inject_Z (Zpos mx) * (2 ^ sh * 2 ^ ey * 2 ^ e')
                    / (inject_Z (Zpos my) * 2 ^ ey))
      with (inject_Z (Zpos mx) * 2 ^ sh / inject_Z (Zpos my) * 2 ^ e') by (field; lra).
    rewrite <- E2, E1. field. lra. }
  pose proof (located_bounds _ _ _ Hloc) as [Qlo Qhi].
  (* the quotient is positive *)
  assert (Hq : (0 < q)%Z).
  { destruct (Z.ltb_spec 0 q) as [H | H]; [ exact H | exfalso ].
    assert (Hq0 : inject_Z q <= 0).
    { change 0 with (inject_Z 0). rewrite <- Zle_Qle. exact H. }
    assert (HX1 : X < 1) by lra.
    assert (HPlt : P < 2 ^ e').
    { rewrite HXP. pose proof (pow2_pos e') as Hp.
      setoid_replace (2 ^ e') with (1 * 2 ^ e') at 2 by ring.
      apply Qmult_lt_compat_r; assumption. }
    destruct HRP as [Rlo _]. rewrite (Qabs_pos P) in Rlo by lra.
    destruct (Z.max_spec (E - 53) (-1074)) as [[_ Hmax] | [_ Hmax]];
      fold e' in Hmax; rewrite Hmax in HPlt.
    - assert (H1 : 2 ^ (-1074) <= 2 ^ (-1022)) by (apply pow2_le; lia). lra.
    - assert (H1 : 2 ^ (E - 53) <= 2 ^ (E - 1)) by (apply pow2_le; lia). lra. }
  destruct q as [| pq | pq]; try lia.
  set (dq := Zpos (digits2_pos pq)).
  pose proof (digits2_pos_bounds pq) as [Dlo Dhi]. fold dq in Dlo, Dhi.
  assert (PQlo : 2 ^ (dq + e' - 1) <= P).
  { rewrite HXP. replace (dq + e' - 1)%Z with (dq - 1 + e')%Z by lia.
    rewrite pow2_plus. apply Qmult_le_compat_r; [ | pose proof (pow2_pos e'); lra ].
    apply Qle_trans with (2 := Qlo).
    rewrite <- pow2_inject by (unfold dq; lia). rewrite <- Zle_Qle. exact Dlo. }
  assert (PQhi : P < 2 ^ (dq + e')).
  { rewrite HXP, pow2_plus. apply Qmult_lt_compat_r; [ apply pow2_pos | ].
    apply Qlt_le_trans with (1 := Qhi).
    rewrite <- pow2_inject by (unfold dq; lia).
    change 1 with (inject_Z 1). rewrite <- inject_Z_plus, <- Zle_Qle. lia. }
  pose proof (inRange_exponent P (dq + e') PQlo PQhi HRP) as HQE.
  assert (HdqE : (E <= dq + e')%Z).
  { assert (H : 2 ^ (E - 1) < 2 ^ (dq + e')) by lra.
    apply Qpower_lt_compat_l_inv in H; [ lia | reflexivity ]. }
  assert (H53 : (53 <= dq)%Z) by (unfold e' in *; lia).
  destruct (binary_round_aux_normal (xorb sx sy) pq e' (new_location (Zpos my) r) X)
    as (mr & er & Hr & Hlo & Hhi & _); try (fold dq; lia); [ exact Hloc | ].
  assert (Hcore : SFdiv_core_binary prec emax (Zpos mx) ex (Zpos my) ey
                  = (Zpos pq, e', new_location (Zpos my) r)).
  { unfold SFdiv_core_binary. cbn [Zdigits2]. fold d1 d2 E.
    rewrite He'. fold sh. rewrite Hm', Hqr. reflexivity. }
  unfold SF64div, SFdiv. rewrite Hcore.
  apply (SFrounds_intro (xorb sx sy) P mr er); try assumption; try lra.
  - rewrite HXP. exact Hlo.
  - rewrite HXP. exact Hhi.
Qed.

(** ** Addition and subtraction *)

Lemma SFrounds_exact (r : spec_float) (X : Q) :
  SFfinite r = true -> SF2Q r == X -> SFrounds X r.
Proof.
  intros Fr Er. split; [ exact Fr | ]. rewrite Er.
  setoid_replace (X - X) with 0 by ring.
  change (Qabs 0) with 0.
  apply Qmult_le_0_compat; [ unfold u53; pose proof (pow2_pos (-53)); lra | apply Qabs_nonneg ].
Qed.

Lemma iter_xO (k p : positive) : Zpos (Pos.iter xO p k) = (Zpos p * 2 ^ Zpos k)%Z.
Proof.
  rewrite Pos2Nat.inj_iter, <- (positive_nat_Z k).
  induction (Pos.to_nat k) as [| n IH].
  - cbn. lia.
  - rewrite Nat2Z.inj_succ, Z.pow_succ_r by lia.
    cbn [nat_rect Nat.iter]. rewrite Pos2Z.inj_xO, IH. lia.
Qed.

Lemma shl_align_value (m : positive) (e e' : Z) :
  (e' <= e)%Z ->
  Zpos (fst (shl_align m e e')) = (Zpos m * 2 ^ (e - e'))%Z
  /\ snd (shl_align m e e') = e'.
Proof.
  intros H. unfold shl_align.
  destruct (e' - e)%Z as [| k | k] eqn:Ek; cbn [fst snd].
  - replace (e - e')%Z with 0%Z by lia. split; lia.
  - lia.
  - rewrite iter_xO. replace (e - e')%Z with (Zpos k) by lia. split; lia.
Qed.

Lemma shl_align_id (m : positive) (e e' : Z) :
  (e <= e')%Z -> shl_align m e e' = (m, e).
Proof.
  intros H. unfold shl_align. destruct (e' - e)%Z eqn:Ek; try reflexivity. lia.
Qed.

Lemma binary_round_rounds (s : bool) (p : positive) (ez : Z) :
  (-1074 <= ez)%Z ->
  inject_Z (Zpos p) * 2 ^ ez <= 2 ^ 1022 ->
  exists (m' : positive) (e' : Z),
    binary_round prec emax s p ez = S754_finite s m' e'
    /\ (1 - u53) * (inject_Z (Zpos p) * 2 ^ ez) <= inject_Z (Zpos m') * 2 ^ e'
    /\ inject_Z (Zpos m') * 2 ^ e' <= (1 + u53) * (inject_Z (Zpos p) * 2 ^ ez)
    /\ ((Zpos (digits2_pos p) <= 53)%Z ->
        inject_Z (Zpos m') * 2 ^ e' == inject_Z (Zpos p) * 2 ^ ez).
Proof.
  intros Hez Hmax.
  set (d := Zpos (digits2_pos p)).
  pose proof (value_bounds p ez) as [Plo Phi]. fold d in Plo, Phi.
  set (P := inject_Z (Zpos p) * 2 ^ ez) in *.
  assert (HP : 0 < P) by (pose proof (pow2_pos (d - 1 + ez)); lra).
  assert (Hu : 0 < u53) by (unfold u53; apply pow2_pos).
  assert (Hd : (d + ez <= 1023)%Z).
  { assert (H : 2 ^ (d - 1 + ez) <= 2 ^ 1022) by lra.
    apply Qpower_le_compat_l_inv in H; [ lia | reflexivity ]. }
  unfold binary_round. fold d. rewrite fexp_eq.
  set (f := Z.max (d + ez - 53) (-1074)).
  destruct (Z_lt_le_dec f ez) as [Hlt | Hge].
  - (* the mantissa is shifted left, nothing is lost *)
    destruct (shl_align_value p ez f ltac:(lia)) as [Hm He].
    destruct (shl_align p ez f) as [mz ez'] eqn:Hsh. cbn [fst snd] in Hm, He. subst ez'.
    assert (Hdz : Zpos (digits2_pos mz) = (d + (ez - f))%Z).
    { apply digits2_pos_unique. rewrite Hm.
      pose proof (digits2_pos_bounds p) as [Dlo Dhi]. fold d in Dlo, Dhi.
      assert (0 < 2 ^ (ez - f))%Z by (apply Z.pow_pos_nonneg; lia).
      replace (d + (ez - f) - 1)%Z with (d - 1 + (ez - f))%Z by lia.
      rewrite !Z.pow_add_r by (unfold d; lia). nia. }
    exists mz, f. split.
    + apply binary_round_aux_exact; [ | unfold f; lia ].
      rewrite Hdz, fexp_eq. fold f. unfold f. lia.
    + assert (E : inject_Z (Zpos mz) * 2 ^ f == P).
      { unfold P. rewrite Hm, inject_Z_mult, pow2_inject by lia.
        rewrite <- Qmult_assoc, <- pow2_plus.
        replace (ez - f + f)%Z with ez by lia. reflexivity. }
      rewrite E. split; [ nra | ]. split; [ nra | ]. intros _. reflexivity.
  - rewrite (shl_align_id p ez f Hge).
    destruct (Z.eq_dec f ez) as [Heq | Hne].
    + exists p, ez. split.
      * apply binary_round_aux_exact; [ rewrite fexp_eq; fold d f; exact Heq | unfold f in *; lia ].
      * fold P. split; [ nra | ]. split; [ nra | ]. intros _. reflexivity.
    + destruct (binary_round_aux_normal s p ez loc_Exact (inject_Z (Zpos p)))
        as (m' & e' & Hr & Hlo & Hhi & _); try (fold d; unfold f in *; lia);
        [ reflexivity | ].
      exists m', e'. fold P in Hlo, Hhi.
      split; [ exact Hr | ]. split; [ exact Hlo | ]. split; [ exact Hhi | ].
      intros H53. exfalso. fold d in H53. unfold f in *. lia.
Qed.

Lemma binary_normalize_rounds (M ez : Z) :
  (-1074 <= ez)%Z ->
  Qabs (inject_Z M * 2 ^ ez) <= 2 ^ 1022 ->
  SFrounds (inject_Z M * 2 ^ ez) (binary_normalize prec emax M ez false).
Proof.
  intros Hez Hmax. pose proof (pow2_pos ez) as Hp.
  destruct M as [| p | p]; cbn [binary_normalize].
  - apply SFrounds_exact; [ reflexivity | cbn [SF2Q]; ring ].
  - assert (HP : 0 <= inject_Z (Zpos p) * 2 ^ ez).
    { apply Qmult_le_0_compat; [ | lra ]. pose proof (inject_Z_pos (Zpos p) eq_refl). lra. }
    rewrite (Qabs_pos _ HP) in Hmax.
    destruct (binary_round_rounds false p ez Hez Hmax) as (m' & e' & Hr & Hlo & Hhi & _).
    apply (SFrounds_intro false (inject_Z (Zpos p) * 2 ^ ez) m' e'); try assumption.
    cbn [sgnQ]. ring.
  - assert (HP : 0 <= inject_Z (Zpos p) * 2 ^ ez).
    { apply Qmult_le_0_compat; [ | lra ]. pose proof (inject_Z_pos (Zpos p) eq_refl). lra. }
    assert (E : inject_Z (Zneg p) * 2 ^ ez == sgnQ true * (inject_Z (Zpos p) * 2 ^ ez)).
    { change (Zneg p) with (- Zpos p)%Z. rewrite inject_Z_opp. cbn [sgnQ]. ring. }
    rewrite E, (Qabs_sgnQ true _ HP) in Hmax.
    destruct (binary_round_rounds true p ez Hez Hmax) as (m' & e' & Hr & Hlo & Hhi & _).
    apply (SFrounds_intro true (inject_Z (Zpos p) * 2 ^ ez) m' e'); assumption.
Qed.

Lemma cond_Zopp_sgnQ (s : bool) (m : Z) :
  inject_Z (cond_Zopp s m) == sgnQ s * inject_Z m.
Proof. destruct s; cbn [cond_Zopp sgnQ]; [ rewrite inject_Z_opp | ]; ring. Qed.

Lemma aligned_value (s : bool) (m : positive) (e ez : Z) :
  (ez <= e)%Z ->
  inject_Z (cond_Zopp s (Zpos (fst (shl_align m e ez)))) * 2 ^ ez
  == SF2Q (S754_finite s m e).
Proof.
  intros H. destruct (shl_align_value m e ez H) as [Hm _].
  rewrite cond_Zopp_sgnQ, Hm, inject_Z_mult, pow2_inject, SF2Q_finite by lia.
  rewrite <- !Qmult_assoc, <- pow2_plus.
  replace (e - ez + ez)%Z with e by lia. reflexivity.
Qed.

Lemma SFsub_rounds (x y : spec_float) :
  valid_binary x = true -> valid_binary y = true ->
  SFfinite x = true -> SFfinite y = true ->
  Qabs (SF2Q x - SF2Q y) <= 2 ^ 1022 ->
  SFrounds (SF2Q x - SF2Q y) (SF64sub x y).
Proof.
  intros Vx Vy Fx Fy HR.
  destruct x as [sx | sx | | sx mx ex], y as [sy | sy | | sy my ey]; try discriminate.
  - apply SFrounds_exact; [ destruct sx, sy; reflexivity | ].
    destruct sx, sy; cbn; reflexivity.
  - apply SFrounds_exact; [ reflexivity | ].
    unfold SF64sub, SFsub. rewrite !SF2Q_finite. cbn [SF2Q].
    destruct sy; cbn [negb sgnQ]; ring.
  - apply SFrounds_exact; [ reflexivity | ].
    unfold SF64sub, SFsub. cbn [SF2Q]. ring.
  - apply valid_finite in Vx, Vy. destruct Vx as [Cx Ex], Vy as [Cy Ey].
    unfold SF64sub, SFsub.
    set (ez := Z.min ex ey).
    assert (E : inject_Z (cond_Zopp sx (Zpos (fst (shl_align mx ex ez)))
                          - cond_Zopp sy (Zpos (fst (shl_align my ey ez)))) * 2 ^ ez
                == SF2Q (S754_finite sx mx ex) - SF2Q (S754_finite sy my ey)).
    { unfold Z.sub. rewrite inject_Z_plus, inject_Z_opp.
      rewrite <- (aligned_value sx mx ex ez), <- (aligned_value sy my ey ez)
        by (unfold ez; lia).
      ring. }
    rewrite <- E in HR. apply (SFrounds_compat _ _ _ E).
    apply binary_normalize_rounds; [ unfold ez; lia | exact HR ].
Qed.

Lemma SFadd_rounds (x y : spec_float) :
  valid_binary x = true -> valid_binary y = true ->
  SFfinite x = true -> SFfinite y = true ->
  Qabs (SF2Q x + SF2Q y) <= 2 ^ 1022 ->
  SFrounds (SF2Q x + SF2Q y) (SF64add x y).
Proof.
  intros Vx Vy Fx Fy HR.
  destruct x as [sx | sx | | sx mx ex], y as [sy | sy | | sy my ey]; try discriminate.
  - apply SFrounds_exact; [ destruct sx, sy; reflexivity | ].
    destruct sx, sy; cbn; reflexivity.
  - apply SFrounds_exact; [ reflexivity | ].
    unfold SF64add, SFadd. cbn [SF2Q]. ring.
  - apply SFrounds_exact; [ reflexivity | ].
    unfold SF64add, SFadd. cbn [SF2Q]. ring.
  - apply valid_finite in Vx, Vy. destruct Vx as [Cx Ex], Vy as [Cy Ey].
    unfold SF64add, SFadd.
    set (ez := Z.min ex ey).
    assert (E : inject_Z (cond_Zopp sx (Zpos (fst (shl_align mx ex ez)))
                          + cond_Zopp sy (Zpos (fst (shl_align my ey ez)))) * 2 ^ ez
                == SF2Q (S754_finite sx mx ex) + SF2Q (S754_finite sy my ey)).
    { rewrite inject_Z_plus.
      rewrite <- (aligned_value sx mx ex ez), <- (aligned_value sy my ey ez)
        by (unfold ez; lia).
      ring. }
    rewrite <- E in HR. apply (SFrounds_compat _ _ _ E).
    apply binary_normalize_rounds; [ unfold ez; lia | exact HR ].
Qed.

(** ** Comparison *)

Lemma canonical_lt (m1 m2 : positive) (e1 e2 : Z) :
  Z.max (Zpos (digits2_pos m1) + e1 - 53) (-1074) = e1 ->
  Z.max (Zpos (digits2_pos m2) + e2 - 53) (-1074) = e2 ->
  (e1 < e2)%Z ->
  inject_Z (Zpos m1) * 2 ^ e1 < inject_Z (Zpos m2) * 2 ^ e2.
Proof.
  intros C1 C2 Hlt.
  pose proof (value_bounds m1 e1) as [_ H1].
  pose proof (value_bounds m2 e2) as [H2 _].
  assert (H : 2 ^ (Zpos (digits2_pos m1) + e1) <= 2 ^ (Zpos (digits2_pos m2) - 1 + e2))
    by (apply pow2_le; lia).
  lra.
Qed.

Lemma compare_pos_spec (m1 m2 : positive) (e1 e2 : Z) :
  Z.max (Zpos (digits2_pos m1) + e1 - 53) (-1074) = e1 ->
  Z.max (Zpos (digits2_pos m2) + e2 - 53) (-1074) = e2 ->
  match (match (e1 ?= e2)%Z with
         | Lt => Lt
         | Gt => Gt
         | Eq => Pos.compare_cont Eq m1 m2
         end) with
  | Lt => inject_Z (Zpos m1) * 2 ^ e1 < inject_Z (Zpos m2) * 2 ^ e2
  | Eq => inject_Z (Zpos m1) * 2 ^ e1 == inject_Z (Zpos m2) * 2 ^ e2
  | Gt => inject_Z (Zpos m2) * 2 ^ e2 < inject_Z (Zpos m1) * 2 ^ e1
  end.
Proof.
  intros C1 C2.
  destruct (Z.compare_spec e1 e2) as [He | He | He].
  - subst e2. change (Pos.compare_cont Eq m1 m2) with (Pos.compare m1 m2).
    pose proof (pow2_pos e1) as Hp.
    destruct (Pos.compare_spec m1 m2) as [Hm | Hm | Hm].
    + subst m2. reflexivity.
    + apply Qmult_lt_compat_r; [ exact Hp | ]. rewrite <- Zlt_Qlt. lia.
    + apply Qmult_lt_compat_r; [ exact Hp | ]. rewrite <- Zlt_Qlt. lia.
  - apply canonical_lt; assumption.
  - apply canonical_lt; assumption.
Qed.

Lemma SFltb_spec (x y : spec_float) :
  valid_binary x = true -> valid_binary y = true ->
  SFfinite x = true -> SFfinite y = true ->
  (SFltb x y = true <-> SF2Q x < SF2Q y).
Proof.
  intros Vx Vy Fx Fy.
  destruct x as [sx | sx | | sx mx ex], y as [sy | sy | | sy my ey]; try discriminate.
  - cbn. split; [ discriminate | intros H; discriminate H ].
  - pose proof (value_bounds my ey) as [Hlo _].
    pose proof (pow2_pos (Zpos (digits2_pos my) - 1 + ey)).
    unfold SFltb, SFcompare. cbn [SF2Q].
    destruct sy; split; intros H'; try reflexivity; try discriminate H'; lra.
  - pose proof (value_bounds mx ex) as [Hlo _].
    pose proof (pow2_pos (Zpos (digits2_pos mx) - 1 + ex)).
    unfold SFltb, SFcompare. cbn [SF2Q].
    destruct sx; split; intros H'; try reflexivity; try discriminate H'; lra.
  - apply valid_finite in Vx, Vy. destruct Vx as [Cx _], Vy as [Cy _].
    pose proof (value_bounds mx ex) as [Hxlo _].
    pose proof (pow2_pos (Zpos (digits2_pos mx) - 1 + ex)).
    pose proof (value_bounds my ey) as [Hylo _].
    pose proof (pow2_pos (Zpos (digits2_pos my) - 1 + ey)).
    pose proof (compare_pos_spec mx my ex ey Cx Cy) as Hc.
    unfold SFltb, SFcompare. cbn [SF2Q].
    destruct sx, sy.
    + destruct (ex ?= ey)%Z; [ destruct (Pos.compare_cont Eq mx my) | | ];
        cbn [CompOpp];
        split; intros H'; try reflexivity; try discriminate H'; lra.
    + split; intros H'; try reflexivity; lra.
    + split; intros H'; try discriminate H'; lra.
    + destruct (ex ?= ey)%Z; [ destruct (Pos.compare_cont Eq mx my) | | ];
        split; intros H'; try reflexivity; try discriminate H'; lra.
Qed.

(** ** The grid of binary64 *)



(** ** The operations of binary64, on [float] *)

Lemma rounds_SFrounds (X : Q) (r : float) : rounds X r <-> SFrounds X (Prim2SF r).
Proof. reflexivity. Qed.

Lemma mul_rounds (x y : float) :
  finite x = true -> finite y = true ->
  F2Q x * F2Q y == 0 \/ inRange (F2Q x * F2Q y) ->
  rounds (F2Q x * F2Q y) (x * y).
Proof.
  intros Fx Fy HR. apply rounds_SFrounds. rewrite FloatAxioms.mul_spec.
  apply SFmul_rounds; auto using Prim2SF_valid.
Qed.

Lemma div_rounds (x y : float) :
  finite x = true -> finite y = true -> ~ F2Q y == 0 ->
  F2Q x == 0 \/ inRange (F2Q x / F2Q y) ->
  rounds (F2Q x / F2Q y) (x / y).
Proof.
  intros Fx Fy Hy HR. apply rounds_SFrounds. rewrite FloatAxioms.div_spec.
  apply SFdiv_rounds; auto using Prim2SF_valid.
Qed.

Lemma sub_rounds (x y : float) :
  finite x = true -> finite y = true ->
  Qabs (F2Q x - F2Q y) <= 2 ^ 1022 ->
  rounds (F2Q x - F2Q y) (x - y).
Proof.
  intros Fx Fy HR. apply rounds_SFrounds. rewrite FloatAxioms.sub_spec.
  apply SFsub_rounds; auto using Prim2SF_valid.
Qed.

Lemma add_rounds (x y : float) :
  finite x = true -> finite y = true ->
  Qabs (F2Q x + F2Q y) <= 2 ^ 1022 ->
  rounds (F2Q x + F2Q y) (x + y).
Proof.
  intros Fx Fy HR. apply rounds_SFrounds. rewrite FloatAxioms.add_spec.
  apply SFadd_rounds; auto using Prim2SF_valid.
Qed.

Lemma ltb_F2Q (x y : float) :
  finite x = true -> finite y = true ->
  ((x <? y)%float = true <-> F2Q x < F2Q y).
Proof.
  intros Fx Fy. rewrite FloatAxioms.ltb_spec. apply SFltb_spec; auto using Prim2SF_valid.
Qed.


(** ** Whole numbers *)

Lemma SF_of_Z (k : Z) :
  (0 <= k < 2 ^ 53)%Z ->
  SFfinite (binary_normalize prec emax k 0 false) = true
  /\ SF2Q (binary_normalize prec emax k 0 false) == inject_Z k.
Proof.
  intros Hk. destruct k as [| p | p]; [ split; reflexivity | | lia ].
  cbn [binary_normalize].
  assert (Hd : (Zpos (digits2_pos p) <= 53)%Z).
  { pose proof (digits2_pos_bounds p) as [Dlo _].
    assert (H : (2 ^ (Zpos (digits2_pos p) - 1) < 2 ^ 53)%Z) by lia.
    apply Z.pow_lt_mono_r_iff in H; lia. }
  destruct (binary_round_rounds false p 0) as (m' & e' & Hr & _ & _ & Hex).
  - lia.
  - change (2 ^ 0) with 1. rewrite Qmult_1_r.
    apply Qle_trans with (inject_Z (2 ^ 53)); [ rewrite <- Zle_Qle; lia | ].
    rewrite pow2_inject by lia. apply pow2_le. lia.
  - rewrite Hr. split; [ reflexivity | ].
    cbn [SF2Q]. rewrite (Hex Hd). change (2 ^ 0) with 1. ring.
Qed.

Lemma F2Q_float_of_Z (k : Z) :
  (- 2 ^ 53 < k < 2 ^ 53)%Z ->
  finite (float_of_Z k) = true /\ F2Q (float_of_Z k) == inject_Z k.
Proof.
  intros Hk.
  assert (Hnat : forall n : Z, (0 <= n < 2 ^ 53)%Z ->
             finite (of_uint63 (of_Z n)) = true
             /\ F2Q (of_uint63 (of_Z n)) == inject_Z n).
  { intros n Hn. unfold finite, F2Q.
    rewrite FloatAxioms.of_uint63_spec, of_Z_spec, Z.mod_small.
    - apply SF_of_Z. exact Hn.
    - split; [ lia | ]. apply Z.lt_trans with (2 ^ 53)%Z; [ lia | reflexivity ]. }
  unfold float_of_Z. destruct k as [| p | p].
  - apply (Hnat 0%Z). lia.
  - apply (Hnat (Zpos p)). lia.
  - destruct (Hnat (- Zneg p)%Z) as [Fn En]; [ cbn; lia | ].
    unfold finite, F2Q in *. rewrite FloatAxioms.opp_spec.
    destruct (Prim2SF (of_uint63 (of_Z (- Zneg p)))) as [s | s | | s m e];
      try discriminate Fn; cbn [SFopp SFfinite SF2Q negb] in *.
    + split; [ reflexivity | ].
      change (Zneg p) with (- Zpos p)%Z. rewrite inject_Z_opp.
      change (- Zneg p)%Z with (Zpos p) in En. rewrite <- En. ring.
    + split; [ reflexivity | ].
      change (Zneg p) with (- Zpos p)%Z. rewrite inject_Z_opp.
      change (- Zneg p)%Z with (Zpos p) in En. rewrite <- En.
      destruct s; cbn [negb]; ring.
Qed.

(** ** [Math.round] *)

Lemma roundUp_spec (s : bool) (m : positive) (e : Z) :
  Z.max (Zpos (digits2_pos m) + e - 53) (-1074) = e -> (e < 0)%Z ->
  (- 2 ^ 53 < roundUp s m e < 2 ^ 53)%Z
  /\ inject_Z (roundUp s m e) - (1 # 2) <= SF2Q (S754_finite s m e)
  /\ SF2Q (S754_finite s m e) < inject_Z (roundUp s m e) + (1 # 2).
Proof.
  intros Cx He. unfold roundUp.
  set (d := (- e)%Z). assert (Hd : (0 < d)%Z) by (unfold d; lia).
  replace (- e + 1)%Z with (d + 1)%Z by (unfold d; lia).
  set (a := (2 * cond_Zopp s (Zpos m) + 2 ^ d)%Z).
  set (b := (2 ^ (d + 1))%Z).
  assert (Hb : (0 < b)%Z) by (unfold b; apply Z.pow_pos_nonneg; lia).
  set (k := (a / b)%Z).
  pose proof (Z.mul_div_le a b Hb) as Klo.
  pose proof (Z.mul_succ_div_gt a b Hb) as Khi. fold k in Klo, Khi.
  assert (EX : SF2Q (S754_finite s m e) + (1 # 2) == inject_Z a / inject_Z b).
  { rewrite SF2Q_finite. unfold a, b.
    rewrite inject_Z_plus, inject_Z_mult, cond_Zopp_sgnQ, !pow2_inject by lia.
    rewrite pow2_succ. change (inject_Z 2) with 2.
    replace e with (- d)%Z by (unfold d; lia).
    rewrite Qpower_opp.
    pose proof (pow2_pos d). field. lra. }
  assert (Hbq : 0 < inject_Z b) by (apply inject_Z_pos; exact Hb).
  assert (Kq1 : inject_Z k <= inject_Z a / inject_Z b).
  { apply Qle_shift_div_l; [ exact Hbq | ].
    rewrite <- inject_Z_mult, <- Zle_Qle. lia. }
  assert (Kq2 : inject_Z a / inject_Z b < inject_Z k + 1).
  { apply Qlt_shift_div_r; [ exact Hbq | ].
    change 1 with (inject_Z 1). rewrite <- inject_Z_plus, <- inject_Z_mult, <- Zlt_Qlt.
    unfold Z.succ in Khi. lia. }
  set (ab := inject_Z a / inject_Z b) in *.
  split; [ | split; lra ].
  pose proof (value_bounds m e) as [Vlo Vhi].
  pose proof (pow2_pos (Zpos (digits2_pos m) - 1 + e)) as Vpos.
  assert (Hm : (Zpos (digits2_pos m) + e <= 52)%Z) by lia.
  assert (Hv : inject_Z (Zpos m) * 2 ^ e < 2 ^ 52).
  { apply Qlt_le_trans with (1 := Vhi). apply pow2_le. exact Hm. }
  change (2 ^ 52) with 4503599627370496 in Hv.
  rewrite SF2Q_finite in EX.
  set (v := inject_Z (Zpos m) * 2 ^ e) in *.
  assert (Hk : - 4503599627370496 - 1 < inject_Z k < 4503599627370496 + 1).
  { destruct s; cbn [sgnQ] in EX; lra. }
  destruct Hk as [Hk1 Hk2].
  change (- 4503599627370496 - 1) with (inject_Z (- 4503599627370497)) in Hk1.
  change (4503599627370496 + 1) with (inject_Z 4503599627370497) in Hk2.
  rewrite <- Zlt_Qlt in Hk1, Hk2.
  change (2 ^ 53)%Z with 9007199254740992%Z. lia.
Qed.

Lemma float_round_spec (x : float) :
  finite x = true ->
  exists k : Z,
    finite (float_round x) = true
    /\ F2Q (float_round x) == inject_Z k
    /\ inject_Z k - (1 # 2) <= F2Q x
    /\ F2Q x < inject_Z k + (1 # 2).
Proof.
  unfold finite, F2Q, float_round. intros Fx.
  pose proof (Prim2SF_valid x) as Vx.
  destruct (Prim2SF x) as [s | s | | s m e] eqn:Ex; try discriminate Fx.
  - exists 0%Z. rewrite Ex. cbn [SFfinite SF2Q]. change (inject_Z 0) with 0.
    repeat split; try reflexivity; lra.
  - apply valid_finite in Vx. destruct Vx as [Cx _].
    destruct (Z.leb_spec 0 e) as [He | He].
    + (* already whole *)
      exists (cond_Zopp s (Zpos m * 2 ^ e)). rewrite Ex.
      assert (E : SF2Q (S754_finite s m e) == inject_Z (cond_Zopp s (Zpos m * 2 ^ e))).
      { rewrite SF2Q_finite, cond_Zopp_sgnQ, inject_Z_mult, pow2_inject by exact He.
        reflexivity. }
      rewrite E. repeat split; try reflexivity; lra.
    + destruct (roundUp_spec s m e Cx He) as (Hk & Hlo & Hhi).
      exists (roundUp s m e).
      destruct (Z.eqb_spec (roundUp s m e) 0) as [E0 | Hk0].
      * rewrite E0 in *. destruct s; repeat split; try reflexivity; assumption.
      * destruct (F2Q_float_of_Z (roundUp s m e) Hk) as [Fr Er].
        unfold finite, F2Q in Fr, Er. auto.
Qed.

(** A whole number is rounded to itself. *)
Lemma float_round_of_Z (k : Z) :
  (- 2 ^ 53 < k < 2 ^ 53)%Z -> k <> 0%Z ->
  float_round (float_of_Z k) = float_of_Z k.
Proof.
  intros Hk Hk0. destruct (F2Q_float_of_Z k Hk) as [Fk Ek].
  unfold finite, F2Q in Fk, Ek. unfold float_round.
  pose proof (Prim2SF_valid (float_of_Z k)) as Vk.
  destruct (Prim2SF (float_of_Z k)) as [s | s | | s m e]; try reflexivity.
  apply valid_finite in Vk. destruct Vk as [Ck _].
  destruct (Z.leb_spec 0 e) as [He | He]; [ reflexivity | ].
  assert (E : roundUp s m e = k).
  { unfold roundUp. set (d := (- e)%Z). assert (Hd : (0 < d)%Z) by (unfold d; lia).
    replace (- e + 1)%Z with (d + 1)%Z by (unfold d; lia).
    assert (Em : cond_Zopp s (Zpos m) = (k * 2 ^ d)%Z).
    { apply inject_Z_injective.
      rewrite inject_Z_mult, pow2_inject, <- Ek, SF2Q_finite, cond_Zopp_sgnQ by lia.
      replace e with (- d)%Z by (unfold d; lia). rewrite Qpower_opp.
      pose proof (pow2_pos d). field. lra. }
    rewrite Em, Z.pow_add_r by lia. change (2 ^ 1)%Z with 2%Z.
    replace (2 * (k * 2 ^ d) + 2 ^ d)%Z with (k * (2 ^ d * 2) + 2 ^ d)%Z by ring.
    assert (Hp : (0 < 2 ^ d)%Z) by (apply Z.pow_pos_nonneg; lia).
    rewrite Z.div_add_l by lia. rewrite Z.div_small by lia. lia. }
  rewrite E. destruct (Z.eqb_spec k 0); [ contradiction | reflexivity ].
Qed.

(** Rounding twice is rounding once. *)
Lemma float_round_idempotent (x : float) :
  float_round (float_round x) = float_round x.
Proof.
  unfold float_round at 2 3.
  pose proof (Prim2SF_valid x) as Vx.
  destruct (Prim2SF x) as [s | s | | s m e] eqn:Ex;
    try (unfold float_round; rewrite Ex; reflexivity).
  destruct (Z.leb_spec 0 e) as [He | He].
  - unfold float_round. rewrite Ex.
    destruct (Z.leb_spec 0 e); [ reflexivity | lia ].
  - apply valid_finite in Vx. destruct Vx as [Cx _].
    destruct (roundUp_spec s m e Cx He) as (Hk & _).
    destruct (Z.eqb_spec (roundUp s m e) 0) as [E0 | Hk0].
    + destruct s; reflexivity.
    + apply float_round_of_Z; assumption.
Qed.

End Binary64Laws.

(** * The geometry on binary64 *)

Section Binary64Geometry.
Local Open Scope Q_scope.

(** ** Using the model *)

Lemma u53_num : u53 == 1 # 9007199254740992.
Proof. reflexivity. Qed.

Lemma rounds_within (X A : Q) (r : float) :
  rounds X r -> - A <= X <= A ->
  finite r = true
  /\ X - (1 # 9007199254740992) * A <= F2Q r
  /\ F2Q r <= X + (1 # 9007199254740992) * A.
Proof.
  intros [Fr Hr] HA. split; [ exact Fr | ].
  assert (HX : Qabs X <= A) by (apply Qabs_Qle_condition; exact HA).
  rewrite u53_num in Hr.
  apply Qabs_Qle_condition in Hr. destruct Hr as [H1 H2].
  split; lra.
Qed.

Lemma inRange_between (X : Q) :
  (1 # 1267650600228229401496703205376) <= X <= 1267650600228229401496703205376 \/
  (1 # 1267650600228229401496703205376) <= - X <= 1267650600228229401496703205376 ->
  inRange X.
Proof.
  assert (Hlo : 2 ^ (-1022) <= 1 # 1267650600228229401496703205376).
  { apply Qle_trans with (2 ^ (-100)); [ apply pow2_le; lia | ]. apply Qle_lteq. right. reflexivity. }
  assert (Hhi : 1267650600228229401496703205376 <= 2 ^ 1022).
  { apply Qle_trans with (2 ^ 100); [ | apply pow2_le; lia ]. apply Qle_lteq. right. reflexivity. }
  intros [H | H]; unfold inRange.
  - rewrite Qabs_pos by lra. split; lra.
  - rewrite Qabs_neg by lra. split; lra.
Qed.





(** ** The centre of the box, along one axis *)




(** ** Sides in pixels *)

Lemma pixelsUpTo_spec (limit : Q) (x : float) :
  pixelsUpTo limit x = true -> finite x = true /\ 1 <= F2Q x <= limit.
Proof.
  unfold pixelsUpTo. rewrite !andb_true_iff, !Qle_bool_iff. tauto.
Qed.

Lemma pixels_spec (x : float) :
  pixels x = true -> finite x = true /\ 1 <= F2Q x <= 4194304.
Proof. apply pixelsUpTo_spec. Qed.

(** The ratio of two sides and its binary64 quotient. *)
Lemma aspect_rounds (w h : float) :
  pixels w = true -> pixels h = true ->
  let rho := F2Q w / F2Q h in
  rho * F2Q h == F2Q w
  /\ (1 # 4194304) <= rho <= 4194304
  /\ finite (w / h)%float = true
  /\ rho - (1 # 9007199254740992) * rho <= F2Q (w / h)%float
  /\ F2Q (w / h)%float <= rho + (1 # 9007199254740992) * rho.
Proof.
  intros Hw Hh rho.
  apply pixels_spec in Hw, Hh. destruct Hw as [Fw Hw], Hh as [Fh Hh].
  assert (E : rho * F2Q h == F2Q w) by (unfold rho; field; lra).
  assert (Hrho : (1 # 4194304) <= rho <= 4194304).
  { unfold rho. split; [ apply Qle_shift_div_l | apply Qle_shift_div_r ]; lra. }
  split; [ exact E | ]. split; [ exact Hrho | ].
  apply rounds_within; [ | lra ].
  apply div_rounds; [ exact Fw | exact Fh | lra | right ].
  apply inRange_between. left. fold rho. lra.
Qed.

(** The painted width when the image is the narrower one: it keeps the
    proportion of the native width to the native height. *)
Lemma painted_width (bh nw nh : float) :
  pixels bh = true -> pixels nw = true -> pixels nh = true ->
  finite (bh * (nw / nh))%float = true
  /\ F2Q nw <= (1 + (4 # 9007199254740992)) * (F2Q nh / F2Q bh) * F2Q (bh * (nw / nh))%float
  /\ F2Q (bh * (nw / nh))%float <= 35184372088832.
Proof.
  intros Hbh Hnw Hnh.
  destruct (aspect_rounds nw nh Hnw Hnh) as (E & Hrho & Fa & Alo & Ahi).
  apply pixels_spec in Hbh, Hnw, Hnh.
  destruct Hbh as [Fbh Hbh], Hnw as [Fnw Hnw], Hnh as [Fnh Hnh].
  set (rho := F2Q nw / F2Q nh) in *.
  set (a := (nw / nh)%float) in *. set (A := F2Q a) in *.
  set (h := F2Q nh / F2Q bh).
  assert (Hh : h * F2Q bh == F2Q nh) by (unfold h; field; lra).
  assert (Hh0 : 0 < h) by (unfold h; apply Qlt_shift_div_l; lra).
  set (X := F2Q bh * A).
  assert (HXhi : X <= 4194304 * A).
  { unfold X. apply Qmult_le_compat_r; lra. }
  assert (HXlo : A <= X).
  { unfold X. setoid_replace A with (1 * A) at 1 by ring.
    apply Qmult_le_compat_r; lra. }
  destruct (rounds_within X X (bh * a)%float) as (Fr & Rlo & Rhi).
  { apply mul_rounds; [ exact Fbh | exact Fa | right ].
    fold A X. apply inRange_between. left. lra. }
  { lra. }
  set (r := (bh * a)%float) in *. set (R := F2Q r) in *.
  (* h * X = nh * A >= (1 - u) * nw *)
  assert (HP1 : (1 - (1 # 9007199254740992)) * F2Q nw <= h * X).
  { setoid_replace (h * X) with (F2Q nh * A) by (unfold X; rewrite <- Hh; ring).
    rewrite <- E.
    setoid_replace ((1 - (1 # 9007199254740992)) * (rho * F2Q nh))
      with (F2Q nh * (rho - (1 # 9007199254740992) * rho)) by ring.
    apply Qmult_le_l; lra. }
  assert (HP2 : h * (X - (1 # 9007199254740992) * X) <= h * R)
    by (apply Qmult_le_l; lra).
  assert (HP0 : 0 <= h * X) by (apply Qmult_le_0_compat; lra).
  repeat split; [ exact Fr | | lra ].
  setoid_replace ((1 + (4 # 9007199254740992)) * h * R)
    with ((1 + (4 # 9007199254740992)) * (h * R)) by ring.
  setoid_replace (h * (X - (1 # 9007199254740992) * X))
    with ((1 - (1 # 9007199254740992)) * (h * X)) in HP2 by ring.
  lra.
Qed.

(** The painted height when the image is the wider one. *)
Lemma painted_height (bw nw nh : float) :
  pixels bw = true -> pixels nw = true -> pixels nh = true ->
  finite (bw / (nw / nh))%float = true
  /\ F2Q nh <= (1 + (4 # 9007199254740992)) * (F2Q nw / F2Q bw) * F2Q (bw / (nw / nh))%float
  /\ F2Q (bw / (nw / nh))%float <= 35184372088832.
Proof.
  intros Hbw Hnw Hnh.
  destruct (aspect_rounds nw nh Hnw Hnh) as (E & Hrho & Fa & Alo & Ahi).
  apply pixels_spec in Hbw, Hnw, Hnh.
  destruct Hbw as [Fbw Hbw], Hnw as [Fnw Hnw], Hnh as [Fnh Hnh].
  set (rho := F2Q nw / F2Q nh) in *.
  set (a := (nw / nh)%float) in *. set (A := F2Q a) in *.
  assert (HA0 : 0 < A) by lra.
  set (g := F2Q nw / F2Q bw).
  assert (Hg : g * F2Q bw == F2Q nw) by (unfold g; field; lra).
  assert (Hg0 : 0 < g) by (unfold g; apply Qlt_shift_div_l; lra).
  set (X := F2Q bw / A).
  assert (HXA : X * A == F2Q bw) by (unfold X; field; lra).
  assert (HX0 : 0 < X) by (unfold X; apply Qlt_shift_div_l; lra).
  (* nh * A <= (1 + u) * nw *)
  assert (HnA : F2Q nh * A <= (1 + (1 # 9007199254740992)) * F2Q nw).
  { rewrite <- E.
    setoid_replace ((1 + (1 # 9007199254740992)) * (rho * F2Q nh))
      with (F2Q nh * (rho + (1 # 9007199254740992) * rho)) by ring.
    apply Qmult_le_l; lra. }
  (* hence nh <= (1 + u) * g * X *)
  assert (HnX : F2Q nh <= (1 + (1 # 9007199254740992)) * (g * X)).
  { apply Qmult_le_r with (z := A); [ exact HA0 | ].
    setoid_replace ((1 + (1 # 9007199254740992)) * (g * X) * A)
      with ((1 + (1 # 9007199254740992)) * (g * (X * A))) by ring.
    rewrite HXA, Hg. exact HnA. }
  assert (HXhi : X * ((1 - (1 # 9007199254740992)) * (1 # 4194304)) <= 4194304).
  { apply Qle_trans with (X * A); [ | rewrite HXA; lra ].
    apply Qmult_le_l; lra. }
  assert (HXlo : 1 <= X * ((1 + (1 # 9007199254740992)) * 4194304)).
  { apply Qle_trans with (X * A); [ rewrite HXA; lra | ].
    apply Qmult_le_l; lra. }
  destruct (rounds_within X X (bw / a)%float) as (Fr & Rlo & Rhi).
  { apply div_rounds; [ exact Fbw | exact Fa | fold A; lra | right ].
    fold A X. apply inRange_between. left. lra. }
  { lra. }
  set (r := (bw / a)%float) in *. set (R := F2Q r) in *.
  assert (HP2 : g * (X - (1 # 9007199254740992) * X) <= g * R)
    by (apply Qmult_le_l; lra).
  assert (HP0 : 0 <= g * X) by (apply Qmult_le_0_compat; lra).
  repeat split; [ exact Fr | | lra ].
  setoid_replace ((1 + (4 # 9007199254740992)) * g * R)
    with ((1 + (4 # 9007199254740992)) * (g * R)) by ring.
  setoid_replace (g * (X - (1 # 9007199254740992) * X))
    with ((1 - (1 # 9007199254740992)) * (g * X)) in HP2 by ring.
  lra.
Qed.




(** ** The default scale *)

Lemma F2Q_four : F2Q 4 == 4 /\ finite 4 = true.
Proof. split; reflexivity. Qed.

Lemma F2Q_quarter : F2Q 0.25 == 1 # 4 /\ finite 0.25 = true.
Proof. split; reflexivity. Qed.

(** A product or a quotient of two sides, as binary64 computes it. *)
Lemma mul_pixels (x y : float) :
  finite x = true -> finite y = true ->
  (1 # 1125899906842624) <= F2Q x <= 1125899906842624 ->
  (1 # 1125899906842624) <= F2Q y <= 1125899906842624 ->
  finite (x * y)%float = true
  /\ F2Q x * F2Q y - (1 # 9007199254740992) * (F2Q x * F2Q y) <= F2Q (x * y)%float
  /\ F2Q (x * y)%float <= F2Q x * F2Q y + (1 # 9007199254740992) * (F2Q x * F2Q y).
Proof.
  intros Fx Fy Hx Hy.
  set (X := F2Q x) in *. set (Y := F2Q y) in *.
  assert (Hlo : (1 # 1125899906842624) * (1 # 1125899906842624) <= X * Y).
  { apply Qle_trans with ((1 # 1125899906842624) * Y).
    - apply Qmult_le_l; lra.
    - apply Qmult_le_compat_r; lra. }
  assert (Hhi : X * Y <= 1125899906842624 * 1125899906842624).
  { apply Qle_trans with (1125899906842624 * Y).
    - apply Qmult_le_compat_r; lra.
    - apply Qmult_le_l; lra. }
  apply rounds_within; [ | lra ].
  apply mul_rounds; [ exact Fx | exact Fy | right ].
  apply inRange_between. left. fold X Y. lra.
Qed.

Lemma div_pixels (x y : float) :
  finite x = true -> finite y = true ->
  (1 # 1125899906842624) <= F2Q x <= 1125899906842624 ->
  (1 # 1125899906842624) <= F2Q y <= 1125899906842624 ->
  finite (x / y)%float = true
  /\ F2Q x / F2Q y - (1 # 9007199254740992) * (F2Q x / F2Q y) <= F2Q (x / y)%float
  /\ F2Q (x / y)%float <= F2Q x / F2Q y + (1 # 9007199254740992) * (F2Q x / F2Q y)
  /\ (1 # 1125899906842624) * (1 # 1125899906842624) <= F2Q x / F2Q y
  /\ F2Q x / F2Q y <= 1125899906842624 * 1125899906842624.
Proof.
  intros Fx Fy Hx Hy.
  set (X := F2Q x) in *. set (Y := F2Q y) in *.
  assert (Hlo : (1 # 1125899906842624) * (1 # 1125899906842624) <= X / Y).
  { apply Qle_shift_div_l; [ lra | ].
    apply Qle_trans with ((1 # 1125899906842624) * (1 # 1125899906842624) * 1125899906842624);
      [ apply Qmult_le_l; lra | lra ]. }
  assert (Hhi : X / Y <= 1125899906842624 * 1125899906842624).
  { apply Qle_shift_div_r; [ lra | ].
    apply Qle_trans with (1125899906842624 * 1125899906842624 * (1 # 1125899906842624));
      [ lra | apply Qmult_le_l; lra ]. }
  set (D := X / Y) in *.
  assert (H : finite (x / y)%float = true
              /\ D - (1 # 9007199254740992) * D <= F2Q (x / y)%float
              /\ F2Q (x / y)%float <= D + (1 # 9007199254740992) * D).
  { apply rounds_within; [ | lra ].
    apply div_rounds; [ exact Fx | exact Fy | fold Y; lra | right ].
    apply inRange_between. left. fold X Y D. lra. }
  tauto.
Qed.

(** Scaling an inequality by a positive factor. *)
Lemma between_scaled (lo x hi w : Q) :
  0 <= w -> lo <= x <= hi -> lo * w <= x * w <= hi * w.
Proof.
  intros Hw [H1 H2]. split; apply Qmult_le_compat_r; assumption.
Qed.

(** The default scale for a cutout [w] wide over a background rendered
    [W] wide, [(W / 4) / w]: times [w] it is a quarter of [W], up to three
    roundings. *)
Lemma baseScale_quarter (W w : float) :
  pixels W = true -> pixels w = true ->
  let s := (W / 4 / w)%float in
  finite s = true
  /\ Qabs (F2Q s * F2Q w - F2Q W / 4) <= (3 # 9007199254740992) * (F2Q W / 4)
  /\ (1 # 33554432) <= F2Q s <= 2097152.
Proof.
  intros HW Hw s. unfold s.
  apply pixels_spec in HW, Hw. destruct HW as [FW HW], Hw as [Fw Hw].
  destruct (div_pixels W 4 FW (proj2 F2Q_four)) as (Fq & Qlo & Qhi & _);
    [ lra | rewrite (proj1 F2Q_four); lra | ].
  set (q := (W / 4)%float) in *.
  assert (EW : F2Q W / F2Q 4 == F2Q W * (1 # 4)) by (rewrite (proj1 F2Q_four); field).
  rewrite EW in Qlo, Qhi.
  destruct (div_pixels q w Fq Fw) as (Fs & Slo & Shi & _); [ lra | lra | ].
  set (D := F2Q q / F2Q w) in *.
  assert (ED : D * F2Q w == F2Q q) by (unfold D; field; lra).
  assert (HD : (1 # 33554432) * (1 + (1 # 4)) <= D <= 1048577).
  { unfold D. split; [ apply Qle_shift_div_l | apply Qle_shift_div_r ]; lra. }
  pose proof (between_scaled _ _ _ (F2Q w) ltac:(lra) (conj Slo Shi)) as [S1 S2].
  setoid_replace ((D - (1 # 9007199254740992) * D) * F2Q w)
    with ((1 - (1 # 9007199254740992)) * (D * F2Q w)) in S1 by ring.
  setoid_replace ((D + (1 # 9007199254740992) * D) * F2Q w)
    with ((1 + (1 # 9007199254740992)) * (D * F2Q w)) in S2 by ring.
  rewrite ED in S1, S2.
  split; [ exact Fs | ]. split; [ | lra ].
  setoid_replace (F2Q W / 4) with (F2Q W * (1 # 4)) by field.
  apply Qabs_Qle_condition. split; lra.
Qed.

(** C8: when the cutout has loaded, it is stored and the scale is set to
    (W / 4) / naturalWidth, where W is
    [bgImage?.offsetWidth || container?.offsetWidth || 512] at that moment.
    While the composition view is not shown W is 512; when the background
    image is laid out with a nonzero width, the view is shown and W is
    that width; when its width is zero, W is the width of the container,
    or 512 if that is zero too.  For sides from 1 to 4194304 pixels,
    scale * naturalWidth is W / 4 up to a relative error of 2^-51. *)
Theorem default_scale_is_quarter_width (env : Browser float) (n : nat)
    (sys sys' : System float) :
  step env (CutoutLoads n) sys = Some sys' ->
  exists (resultSrc : string) (w h : float),
    decodeImage env resultSrc = Some (w, h)
    /\ extractedVehicle (app sys')
       = Some {| ev_src := resultSrc; ev_width := w; ev_height := h |}
    /\ vehicleScale (app sys') = (backgroundRenderWidth env / 4 / w)%float
    /\ (mounted (app sys) = false -> backgroundRenderWidth env = 512%float)
    /\ (forall bgImage : Element float,
          backgroundImageRef env = Some bgImage ->
          truthy (offsetWidth bgImage) = true ->
          mounted (app sys) = true
          /\ backgroundRenderWidth env = offsetWidth bgImage)
    /\ (forall bgImage container : Element float,
          backgroundImageRef env = Some bgImage ->
          truthy (offsetWidth bgImage) = false ->
          backgroundContainerRef env = Some container ->
          backgroundRenderWidth env
          = if truthy (offsetWidth container) then offsetWidth container else 512%float)
    /\ (pixels w = true -> pixels (backgroundRenderWidth env) = true ->
        Qabs (F2Q (vehicleScale (app sys')) * F2Q w - F2Q (backgroundRenderWidth env) / 4)
        <= (1 # 2251799813685248) * (F2Q (backgroundRenderWidth env) / 4)).
Proof.
  unfold step.
  destruct (refsConsistent env (app sys)) eqn:Hrefs; cbn [negb]; [ | discriminate ].
  destruct (pluck n (cutouts sys)) as [[resultSrc rest]| ]; [ | discriminate ].
  destruct (decodeImage env resultSrc) as [[w h]| ] eqn:Hdec; [ | discriminate ].
  intros E. injection E as <-. cbn [app extractedVehicle vehicleScale setVehicleScale
                                     setExtractedVehicle].
  exists resultSrc, w, h.
  unfold refsConsistent in Hrefs. apply andb_true_iff in Hrefs.
  destruct Hrefs as [Himg Hcont]. apply Bool.eqb_prop in Himg, Hcont.
  split; [ exact Hdec | ]. split; [ reflexivity | ]. split; [ reflexivity | ].
  split; [ | split; [ | split ] ].
  - intros Hm. rewrite Hm in Himg, Hcont. unfold backgroundRenderWidth.
    destruct (backgroundImageRef env); [ discriminate Himg | ].
    destruct (backgroundContainerRef env); [ discriminate Hcont | ].
    reflexivity.
  - intros bgImage Href Hw. rewrite Href in Himg. cbn [isSome] in Himg.
    split; [ symmetry; exact Himg | ].
    unfold backgroundRenderWidth. rewrite Href. cbn [option_map orElse].
    rewrite Hw. reflexivity.
  - intros bgImage container Href Hw Hcref.
    unfold backgroundRenderWidth. rewrite Href, Hcref. cbn [option_map orElse].
    rewrite Hw. reflexivity.
  - intros Hw HW.
    destruct (baseScale_quarter (backgroundRenderWidth env) w HW Hw) as (_ & Hq & _).
    unfold baseScale. cbn [div lit float_JsNumber].
    change (float_lit 4) with 4%float.
    eapply Qle_trans; [ exact Hq | ].
    apply pixels_spec in HW. destruct HW as [_ HW].
    setoid_replace (F2Q (backgroundRenderWidth env) / 4)
      with (F2Q (backgroundRenderWidth env) * (1 # 4)) by field.
    lra.
Qed.

(** ** The painted size *)

(** Contain-fit: for sides from 1 to 4194304 pixels the painted size is
    finite, one of its sides is exactly the side of the box, and the other
    exceeds the box by at most the rounding of two operations (2^-51 of the
    side of the box). *)
Theorem actualRendered_fits (boxWidth boxHeight nativeWidth nativeHeight : float) :
  pixels boxWidth = true -> pixels boxHeight = true ->
  pixels nativeWidth = true -> pixels nativeHeight = true ->
  let painted := actualRendered boxWidth boxHeight nativeWidth nativeHeight in
  finite (fst painted) = true /\ finite (snd painted) = true
  /\ F2Q (fst painted) <= (1 + (1 # 2251799813685248)) * F2Q boxWidth
  /\ F2Q (snd painted) <= (1 + (1 # 2251799813685248)) * F2Q boxHeight
  /\ (fst painted = boxWidth \/ snd painted = boxHeight).
Proof.
  intros Hbw Hbh Hnw Hnh painted. unfold painted, actualRendered.
  cbn [div mul gtb float_JsNumber].
  destruct (aspect_rounds nativeWidth nativeHeight Hnw Hnh) as (Ea & Hrho & Fa & Alo & Ahi).
  destruct (aspect_rounds boxWidth boxHeight Hbw Hbh) as (Ec & Hsig & Fc & Clo & Chi).
  destruct (painted_width boxHeight nativeWidth nativeHeight Hbh Hnw Hnh) as (Fw & _ & _).
  destruct (painted_height boxWidth nativeWidth nativeHeight Hbw Hnw Hnh) as (Fh & _ & _).
  pose proof (pixels_spec _ Hbw) as [Fbw Bw]. pose proof (pixels_spec _ Hbh) as [Fbh Bh].
  set (a := (nativeWidth / nativeHeight)%float) in *.
  set (c := (boxWidth / boxHeight)%float) in *.
  set (rho := F2Q nativeWidth / F2Q nativeHeight) in *.
  set (sigma := F2Q boxWidth / F2Q boxHeight) in *.
  set (A := F2Q a) in *. set (C := F2Q c) in *.
  set (BW := F2Q boxWidth) in *. set (BH := F2Q boxHeight) in *.
  assert (HA0 : 0 < A) by lra. assert (HC0 : 0 < C) by lra.
  destruct (PrimFloat.ltb c a) eqn:Hcmp; cbn [fst snd].
  - (* the image is the wider one *)
    apply ltb_F2Q in Hcmp; [ | exact Fc | exact Fa ]. fold A C in Hcmp.
    set (X := BW / A).
    assert (HXA : X * A == BW) by (unfold X; field; lra).
    assert (HX0 : 0 < X) by (unfold X; apply Qlt_shift_div_l; lra).
    assert (H1 : X * ((1 - (1 # 9007199254740992)) * sigma) <= X * A)
      by (apply Qmult_le_l; lra).
    assert (H2 : X * (1 - (1 # 9007199254740992)) <= BH).
    { apply Qmult_le_r with (z := sigma); [ lra | ].
      setoid_replace (X * (1 - (1 # 9007199254740992)) * sigma)
        with (X * ((1 - (1 # 9007199254740992)) * sigma)) by ring.
      setoid_replace (BH * sigma) with BW by (rewrite <- Ec; ring).
      lra. }
    assert (HXlo : 1 <= X * ((1 + (1 # 9007199254740992)) * 4194304)).
    { apply Qle_trans with (X * A); [ rewrite HXA; lra | ].
      apply Qmult_le_l; lra. }
    destruct (rounds_within X X (boxWidth / a)%float) as (_ & Rlo & Rhi).
    { apply div_rounds; [ exact Fbw | exact Fa | fold A; lra | right ].
      fold A BW X. apply inRange_between. left. lra. }
    { lra. }
    fold BW BH.
    split; [ exact Fbw | ]. split; [ exact Fh | ].
    split; [ lra | ]. split; [ lra | ]. left. reflexivity.
  - (* otherwise *)
    assert (Hle : A <= C).
    { destruct (Qlt_le_dec C A) as [H | H]; [ | exact H ].
      apply ltb_F2Q in H; [ | exact Fc | exact Fa ]. congruence. }
    set (X := BH * A).
    assert (H1 : X <= BH * ((1 + (1 # 9007199254740992)) * sigma)).
    { unfold X. apply Qmult_le_l; lra. }
    setoid_replace (BH * ((1 + (1 # 9007199254740992)) * sigma))
      with ((1 + (1 # 9007199254740992)) * BW) in H1 by (rewrite <- Ec; ring).
    assert (HXlo : A <= X).
    { unfold X. setoid_replace A with (1 * A) at 1 by ring.
      apply Qmult_le_compat_r; lra. }
    destruct (rounds_within X X (boxHeight * a)%float) as (_ & Rlo & Rhi).
    { apply mul_rounds; [ exact Fbh | exact Fa | right ].
      fold A BH X. apply inRange_between. left. lra. }
    { lra. }
    fold BW BH.
    split; [ exact Fw | ]. split; [ exact Fbh | ].
    split; [ lra | ]. split; [ lra | ]. right. reflexivity.
Qed.

(** ** The width at which the vehicle is drawn *)

Lemma scaled_sides (w h s : float) :
  pixels w = true -> pixels h = true ->
  finite s = true -> (1 # 33554432) <= F2Q s <= 2097152 ->
  finite (w * s)%float = true /\ finite (h * s)%float = true
  /\ Qabs (F2Q (w * s)%float - F2Q s * F2Q w) <= (1 # 9007199254740992) * (F2Q s * F2Q w)
  /\ Qabs (F2Q (h * s)%float * F2Q w - F2Q (w * s)%float * F2Q h)
     <= (1 # 1125899906842624) * (F2Q (w * s)%float * F2Q h).
Proof.
  intros Hw Hh Fs Hs.
  apply pixels_spec in Hw, Hh. destruct Hw as [Fw Hw], Hh as [Fh Hh].
  destruct (mul_pixels w s Fw Fs) as (Fws & WSlo & WShi); [ lra | lra | ].
  destruct (mul_pixels h s Fh Fs) as (Fhs & HSlo & HShi); [ lra | lra | ].
  set (W := F2Q w) in *. set (H := F2Q h) in *. set (S := F2Q s) in *.
  set (dw := F2Q (w * s)%float) in *. set (dh := F2Q (h * s)%float) in *.
  set (P := W * S * H).
  assert (HP0 : 0 <= P).
  { unfold P. apply Qmult_le_0_compat; [ apply Qmult_le_0_compat | ]; lra. }
  pose proof (between_scaled _ _ _ H ltac:(lra) (conj WSlo WShi)) as [A1 A2].
  pose proof (between_scaled _ _ _ W ltac:(lra) (conj HSlo HShi)) as [B1 B2].
  setoid_replace ((W * S - (1 # 9007199254740992) * (W * S)) * H)
    with ((1 - (1 # 9007199254740992)) * P) in A1 by (unfold P; ring).
  setoid_replace ((W * S + (1 # 9007199254740992) * (W * S)) * H)
    with ((1 + (1 # 9007199254740992)) * P) in A2 by (unfold P; ring).
  setoid_replace ((H * S - (1 # 9007199254740992) * (H * S)) * W)
    with ((1 - (1 # 9007199254740992)) * P) in B1 by (unfold P; ring).
  setoid_replace ((H * S + (1 # 9007199254740992) * (H * S)) * W)
    with ((1 + (1 # 9007199254740992)) * P) in B2 by (unfold P; ring).
  repeat split; try assumption.
  - apply Qabs_Qle_condition. split; lra.
  - apply Qabs_Qle_condition. split; lra.
Qed.

(** Upload, new background, drop, generate: with the default scale the
    vehicle is drawn a quarter of the background render width wide, in
    pixels of the native background, whatever the native width of the
    background is, and its aspect ratio is kept; both up to a relative
    error of 2^-50. *)
Theorem default_scale_draw_width (env1 env2 : Browser float) (st : AppState float)
    (subject bg : FileInfo float) (resultSrc : string) (w h clientX clientY : float)
    (c : Canvas float) :
  extractVehicle env1 subject = inl resultSrc ->
  decodeImage env1 resultSrc = Some (w, h) ->
  decodeImage env2 resultSrc = Some (w, h) ->
  pixels w = true -> pixels h = true -> pixels (backgroundRenderWidth env1) = true ->
  composite
    (handleGenerate env2
       (handleVehicleDrop env2 "extracted-vehicle" clientX clientY
          (handleBackgroundUpload bg (handleSubjectUpload env1 subject st))))
  = Some c ->
  exists (img : Image float) (dx dy dw dh : float),
    nth_error (cv_ops c) 1 = Some (DrawImage img dx dy (Some (dw, dh)))
    /\ Qabs (F2Q dw - F2Q (backgroundRenderWidth env1) / 4)
       <= (1 # 1125899906842624) * (F2Q (backgroundRenderWidth env1) / 4)
    /\ Qabs (F2Q dh * F2Q w - F2Q dw * F2Q h) <= (1 # 1125899906842624) * (F2Q dw * F2Q h).
Proof.
  intros Hext Hdec1 Hdec2 Hw Hh HW Hc.
  destruct (handleGenerate_composite env2 _ c Hc)
    as (bgImg & vehicleImg & [fx fy] & Hin & ->).
  remember (handleVehicleDrop env2 "extracted-vehicle" clientX clientY
              (handleBackgroundUpload bg (handleSubjectUpload env1 subject st)))
    as st' eqn:Est.
  assert (Hscale : vehicleScale st' = (backgroundRenderWidth env1 / 4 / w)%float).
  { subst st'. unfold handleVehicleDrop, handleSubjectUpload.
    rewrite Hext, Hdec1.
    destruct (backgroundContainerRef env2); reflexivity. }
  assert (Hev : extractedVehicle st'
                = Some {| ev_src := resultSrc; ev_width := w; ev_height := h |}).
  { subst st'. unfold handleVehicleDrop, handleSubjectUpload.
    rewrite Hext, Hdec1.
    destruct (backgroundContainerRef env2); reflexivity. }
  unfold composeInputs, vehicleSrcOf in Hin. rewrite Hev in Hin. cbn [ev_src] in Hin.
  destruct (resultSrc =? "")%string; [ discriminate | ].
  destruct (backgroundScene st') as [b| ]; [ | discriminate ].
  destruct (vehiclePosition st') as [pos| ]; [ | discriminate ].
  destruct (backgroundImageRef env2) as [renderedBg| ]; [ | discriminate ].
  destruct (decodeImage env2 (fi_base64 b)) as [[ow oh]| ]; [ | discriminate ].
  rewrite Hdec2 in Hin. injection Hin as <- <- _.
  rewrite Hscale.
  destruct (baseScale_quarter (backgroundRenderWidth env1) w HW Hw) as (Fs & Hq & Hs).
  set (s := (backgroundRenderWidth env1 / 4 / w)%float) in *.
  destruct (scaled_sides w h s Hw Hh Fs Hs) as (_ & _ & Hdw & Hasp).
  eexists. eexists. eexists. eexists. eexists.
  split; [ reflexivity | ].
  cbn [naturalWidth naturalHeight mul float_JsNumber].
  split; [ | exact Hasp ].
  apply pixels_spec in HW, Hw. destruct HW as [_ HW], Hw as [_ Hw].
  set (Wq := F2Q (backgroundRenderWidth env1) / 4) in *.
  assert (HWq : 0 <= Wq).
  { unfold Wq. setoid_replace (F2Q (backgroundRenderWidth env1) / 4)
      with (F2Q (backgroundRenderWidth env1) * (1 # 4)) by field. lra. }
  apply Qabs_Qle_condition in Hq, Hdw. apply Qabs_Qle_condition. split; lra.
Qed.

(** ** The overlay *)

Lemma overlay_sides (imgWidth overlayWidth overlayHeight : float) :
  pixels imgWidth = true -> pixels overlayWidth = true -> pixels overlayHeight = true ->
  let baseWidth := (imgWidth * 0.25)%float in
  let baseHeight := (baseWidth / (overlayWidth / overlayHeight))%float in
  Qabs (F2Q baseWidth - F2Q imgWidth / 4) <= (1 # 9007199254740992) * (F2Q imgWidth / 4)
  /\ Qabs (F2Q baseHeight * F2Q overlayWidth - F2Q baseWidth * F2Q overlayHeight)
     <= (1 # 1125899906842624) * (F2Q baseWidth * F2Q overlayHeight).
Proof.
  intros Hi How Hoh baseWidth baseHeight. unfold baseHeight, baseWidth.
  destruct (aspect_rounds overlayWidth overlayHeight How Hoh) as (Ea & Hrho & Fa & Alo & Ahi).
  apply pixels_spec in Hi, How, Hoh.
  destruct Hi as [Fi Hi], How as [Fow How], Hoh as [Foh Hoh].
  destruct (mul_pixels imgWidth 0.25 Fi (proj2 F2Q_quarter)) as (Fb & Blo & Bhi);
    [ lra | rewrite (proj1 F2Q_quarter); lra | ].
  rewrite (proj1 F2Q_quarter) in Blo, Bhi.
  set (b := (imgWidth * 0.25)%float) in *. set (B := F2Q b) in *.
  set (a := (overlayWidth / overlayHeight)%float) in *. set (A := F2Q a) in *.
  set (rho := F2Q overlayWidth / F2Q overlayHeight) in *.
  destruct (div_pixels b a Fb Fa) as (Fh & Hlo & Hhi & _); [ fold B; lra | fold A; lra | ].
  fold B A in Hlo, Hhi.
  set (X := B / A) in *.
  assert (HXA : X * A == B) by (unfold X; field; lra).
  assert (HX0 : 0 < X) by (unfold X; apply Qlt_shift_div_l; lra).
  set (OW := F2Q overlayWidth) in *. set (OH := F2Q overlayHeight) in *.
  set (P := X * OW).
  assert (HP0 : 0 <= P) by (unfold P; apply Qmult_le_0_compat; lra).
  (* baseHeight * ow is within u of P *)
  pose proof (between_scaled _ _ _ OW ltac:(lra) (conj Hlo Hhi)) as [H1 H2].
  setoid_replace ((X - (1 # 9007199254740992) * X) * OW)
    with ((1 - (1 # 9007199254740992)) * P) in H1 by (unfold P; ring).
  setoid_replace ((X + (1 # 9007199254740992) * X) * OW)
    with ((1 + (1 # 9007199254740992)) * P) in H2 by (unfold P; ring).
  (* and so is baseWidth * oh *)
  assert (EP : P == X * rho * OH) by (unfold P; rewrite <- Ea; ring).
  assert (HXrho : 0 <= X * OH) by (apply Qmult_le_0_compat; lra).
  pose proof (between_scaled _ _ _ (X * OH) HXrho (conj Alo Ahi)) as [G1 G2].
  setoid_replace ((rho - (1 # 9007199254740992) * rho) * (X * OH))
    with ((1 - (1 # 9007199254740992)) * P) in G1 by (rewrite EP; ring).
  setoid_replace ((rho + (1 # 9007199254740992) * rho) * (X * OH))
    with ((1 + (1 # 9007199254740992)) * P) in G2 by (rewrite EP; ring).
  setoid_replace (A * (X * OH)) with (B * OH) in G1 by (rewrite <- HXA; ring).
  setoid_replace (A * (X * OH)) with (B * OH) in G2 by (rewrite <- HXA; ring).
  split.
  - setoid_replace (F2Q imgWidth / 4) with (F2Q imgWidth * (1 # 4)) by field.
    apply Qabs_Qle_condition. split; lra.
  - apply Qabs_Qle_condition. split; lra.
Qed.

(** The overlay is shown exactly when [showOverlay] and [isInteractive]
    hold, a pin and overlay dimensions are given and the image width is
    positive.  It then sits on the pin; for sides from 1 to 4194304 pixels
    it is a quarter of the image wide up to one rounding, and has the
    aspect ratio of the overlay dimensions up to a relative error of
    2^-50. *)
Theorem overlay_geometry (cfg : DepthConfig float) (props : ImageDisplayProps float)
    (imgDims : float * float) :
  (overlayStyleWith cfg props imgDims <> None <->
   showOverlay props = true /\ isInteractive props = true
   /\ pinPosition props <> None /\ overlayDimensions props <> None
   /\ (0 <? fst imgDims)%float = true)
  /\ forall style : OverlayStyle float,
       overlayStyleWith cfg props imgDims = Some style ->
       exists (pin : PinPosition float) (overlayWidth overlayHeight : float),
         pinPosition props = Some pin
         /\ overlayDimensions props = Some (overlayWidth, overlayHeight)
         /\ ov_left style = pin_x pin /\ ov_top style = pin_y pin
         /\ (pixels (fst imgDims) = true -> pixels overlayWidth = true ->
             pixels overlayHeight = true ->
             Qabs (F2Q (ov_width style) - F2Q (fst imgDims) / 4)
             <= (1 # 9007199254740992) * (F2Q (fst imgDims) / 4)
             /\ Qabs (F2Q (ov_height style) * F2Q overlayWidth
                      - F2Q (ov_width style) * F2Q overlayHeight)
                <= (1 # 1125899906842624) * (F2Q (ov_width style) * F2Q overlayHeight)).
Proof.
  unfold overlayStyleWith. cbn [gtb lit float_JsNumber].
  change (float_lit 0) with 0%float.
  destruct (pinPosition props) as [pin| ];
    [ | split; [ split; [ intros H; contradiction | intros (_ & _ & H & _); contradiction ]
               | discriminate ] ].
  destruct (overlayDimensions props) as [[ow oh]| ];
    [ | split; [ split; [ intros H; contradiction | intros (_ & _ & _ & H & _); contradiction ]
               | discriminate ] ].
  destruct (showOverlay props), (isInteractive props),
    (PrimFloat.ltb 0 (fst imgDims)); cbn [andb];
    try (split; [ split; [ intros H; contradiction
                         | intros (H1 & H2 & _ & _ & H3); discriminate ]
                | discriminate ]).
  split.
  - split; [ intros _; repeat split; discriminate | intros _; discriminate ].
  - intros style E. injection E as <-. cbn [ov_left ov_top ov_width ov_height].
    exists pin, ow, oh. repeat split.
    + apply (overlay_sides (fst imgDims) ow oh); assumption.
    + apply (overlay_sides (fst imgDims) ow oh); assumption.
Qed.

(** ** The pin *)

(** One coordinate of the pin: whole, within half a pixel of the offset as
    the code computes it, which is itself the exact offset rounded once. *)
Lemma pin_axis (client origin : float) :
  finite client = true -> finite origin = true ->
  Qabs (F2Q client - F2Q origin) <= 2 ^ 1022 ->
  exists i : Z,
    finite (float_round (client - origin)) = true
    /\ F2Q (float_round (client - origin)) == inject_Z i
    /\ inject_Z i - (1 # 2) <= F2Q (client - origin)
    /\ F2Q (client - origin) < inject_Z i + (1 # 2)
    /\ Qabs (inject_Z i - (F2Q client - F2Q origin))
       <= (1 # 2) + (1 # 9007199254740992) * Qabs (F2Q client - F2Q origin).
Proof.
  intros Fc Fo HR.
  destruct (sub_rounds client origin Fc Fo HR) as [Fd Hd].
  destruct (float_round_spec (client - origin) Fd) as (i & Fr & Er & Hlo & Hhi).
  exists i. repeat split; try assumption.
  rewrite u53_num in Hd.
  set (X := F2Q client - F2Q origin) in *.
  set (D := F2Q (client - origin)) in *.
  set (E := (1 # 9007199254740992) * Qabs X) in *.
  apply Qabs_Qle_condition in Hd.
  apply Qabs_Qle_condition. split; lra.
Qed.

(** A click sets a pin exactly on an interactive image with a handler.
    Rounding the pin again leaves it unchanged.  For finite coordinates
    each coordinate of the pin is a whole number within half a pixel of the
    offset [clientX - rect.left] as binary64 computes it, hence within half
    a pixel and one rounding of the exact offset. *)
Theorem handleImageClick_rounds (hasOnSetPin isInteractive : bool)
    (clientX clientY : float) (rect : Element float) :
  (handleImageClick hasOnSetPin isInteractive clientX clientY rect <> None
   <-> hasOnSetPin = true /\ isInteractive = true)
  /\ forall pin : PinPosition float,
       handleImageClick hasOnSetPin isInteractive clientX clientY rect = Some pin ->
       mathRound (pin_x pin) = pin_x pin
       /\ mathRound (pin_y pin) = pin_y pin
       /\ (finite clientX = true -> finite (rect_left rect) = true ->
           Qabs (F2Q clientX - F2Q (rect_left rect)) <= 2 ^ 1022 ->
           exists i : Z,
             finite (pin_x pin) = true /\ F2Q (pin_x pin) == inject_Z i
             /\ inject_Z i - (1 # 2) <= F2Q (clientX - rect_left rect)%float
             /\ F2Q (clientX - rect_left rect)%float < inject_Z i + (1 # 2)
             /\ Qabs (inject_Z i - (F2Q clientX - F2Q (rect_left rect)))
                <= (1 # 2) + (1 # 9007199254740992)
                             * Qabs (F2Q clientX - F2Q (rect_left rect)))
       /\ (finite clientY = true -> finite (rect_top rect) = true ->
           Qabs (F2Q clientY - F2Q (rect_top rect)) <= 2 ^ 1022 ->
           exists j : Z,
             finite (pin_y pin) = true /\ F2Q (pin_y pin) == inject_Z j
             /\ inject_Z j - (1 # 2) <= F2Q (clientY - rect_top rect)%float
             /\ F2Q (clientY - rect_top rect)%float < inject_Z j + (1 # 2)
             /\ Qabs (inject_Z j - (F2Q clientY - F2Q (rect_top rect)))
                <= (1 # 2) + (1 # 9007199254740992)
                             * Qabs (F2Q clientY - F2Q (rect_top rect))).
Proof.
  unfold handleImageClick. split.
  - destruct hasOnSetPin, isInteractive; cbn [negb orb]; split;
      try (intros [? ?]; discriminate); try (intros N; now contradiction N);
      try discriminate; auto.
  - intros pin E.
    destruct hasOnSetPin, isInteractive; cbn [negb orb] in E; try discriminate E.
    injection E as <-.
    cbn [pin_x pin_y sub float_JsNumber mathRound float_JsRound].
    split; [ apply float_round_idempotent | ].
    split; [ apply float_round_idempotent | ].
    split; apply pin_axis.
Qed.

End Binary64Geometry.

(** * The geometry on binary64, checked *)

Section Binary64Runs.
Local Open Scope Q_scope.


(** C8, refuted as worded: when the vehicle is uploaded first, its cutout
    loads while no background is laid out; the scale is then derived from
    512 and not from the background, which is later laid out 400 wide: the
    vehicle is 128 wide at the default scale, a quarter of the background
    width is 100. *)
Lemma default_scale_subject_first :
  run Tour.subjectFirst initialSystem = Some Tour.early
  /\ extractedVehicle (app Tour.early) = Some Demo.car
  /\ backgroundRenderWidth Tour.studio = 400%float
  /\ (vehicleScale (app Tour.early) * ev_width Demo.car)%float = 128%float
  /\ (backgroundRenderWidth Tour.studio / 4)%float = 100%float
  /\ (vehicleScale (app Tour.early) * ev_width Demo.car)%float
     <> (backgroundRenderWidth Tour.studio / 4)%float.
Proof.
  repeat split; try reflexivity.
  intros E. discriminate (f_equal (fun x => PrimFloat.eqb x 100) E).
Defined.

(** The cutout of [Tour.arrive] loads in the studio, whose background image
    is laid out 400 wide. *)
Lemma default_scale_is_quarter_width_witness :
  exists (resultSrc : string) (w h : float),
    decodeImage Tour.studio resultSrc = Some (w, h)
    /\ extractedVehicle (app Tour.cut)
       = Some {| ev_src := resultSrc; ev_width := w; ev_height := h |}
    /\ vehicleScale (app Tour.cut) = (backgroundRenderWidth Tour.studio / 4 / w)%float
    /\ (mounted (app Tour.settled) = false -> backgroundRenderWidth Tour.studio = 512%float)
    /\ (forall bgImage : Element float,
          backgroundImageRef Tour.studio = Some bgImage ->
          truthy (offsetWidth bgImage) = true ->
          mounted (app Tour.settled) = true
          /\ backgroundRenderWidth Tour.studio = offsetWidth bgImage)
    /\ (forall bgImage container : Element float,
          backgroundImageRef Tour.studio = Some bgImage ->
          truthy (offsetWidth bgImage) = false ->
          backgroundContainerRef Tour.studio = Some container ->
          backgroundRenderWidth Tour.studio
          = if truthy (offsetWidth container) then offsetWidth container else 512%float)
    /\ (pixels w = true -> pixels (backgroundRenderWidth Tour.studio) = true ->
        Qabs (F2Q (vehicleScale (app Tour.cut)) * F2Q w
              - F2Q (backgroundRenderWidth Tour.studio) / 4)
        <= (1 # 2251799813685248) * (F2Q (backgroundRenderWidth Tour.studio) / 4)).
Proof.
  apply (default_scale_is_quarter_width Tour.studio 0 Tour.settled Tour.cut).
  reflexivity.
Defined.

(** A 7x25 image in a 7x25 box: binary64 paints it a hair wider than the
    box. *)
Lemma actualRendered_fits_witness :
  actualRendered 7%float 25%float 7%float 25%float = (7.0000000000000009%float, 25%float)
  /\ F2Q 7.0000000000000009 <= (1 + (1 # 2251799813685248)) * F2Q 7
  /\ F2Q 25 <= (1 + (1 # 2251799813685248)) * F2Q 25.
Proof.
  assert (E : actualRendered 7%float 25%float 7%float 25%float
              = (7.0000000000000009%float, 25%float)) by reflexivity.
  split; [ exact E | ].
  destruct (actualRendered_fits 7 25 7 25) as (_ & _ & Hw & Hh & _); try reflexivity.
  rewrite E in Hw, Hh. split; [ exact Hw | exact Hh ].
Defined.

(** A 93x41 cutout over a background laid out 1000 wide is drawn
    249.99999999999997 wide. *)
Lemma default_scale_draw_width_witness :
  nth_error (cv_ops Tour.hungCanvas) 1
  = Some (DrawImage {| img_src := "data:car"; naturalWidth := 93%float;
                       naturalHeight := 41%float |}
            375%float 194.89247311827958%float
            (Some (249.99999999999997%float, 110.21505376344085%float)))
  /\ exists (img : Image float) (dx dy dw dh : float),
       nth_error (cv_ops Tour.hungCanvas) 1 = Some (DrawImage img dx dy (Some (dw, dh)))
       /\ Qabs (F2Q dw - F2Q (backgroundRenderWidth Tour.gallery) / 4)
          <= (1 # 1125899906842624) * (F2Q (backgroundRenderWidth Tour.gallery) / 4)
       /\ Qabs (F2Q dh * F2Q 93 - F2Q dw * F2Q 41)
          <= (1 # 1125899906842624) * (F2Q dw * F2Q 41).
Proof.
  split; [ reflexivity | ].
  apply (default_scale_draw_width Tour.gallery Tour.gallery initialState
           Demo.subject Demo.background "data:car" 93 41 500 250 Tour.hungCanvas);
    reflexivity.
Defined.

(** The overlay of a 93x41 vehicle on an image laid out 400x200. *)
Lemma overlay_geometry_witness :
  exists style : OverlayStyle float,
    overlayStyleWith defaultDepthConfig Tour.hint (400%float, 200%float) = Some style
    /\ Qabs (F2Q (ov_width style) - F2Q 400 / 4) <= (1 # 9007199254740992) * (F2Q 400 / 4)
    /\ Qabs (F2Q (ov_height style) * F2Q 93 - F2Q (ov_width style) * F2Q 41)
       <= (1 # 1125899906842624) * (F2Q (ov_width style) * F2Q 41).
Proof.
  eexists. split; [ reflexivity | ].
  destruct (proj2 (overlay_geometry defaultDepthConfig Tour.hint (400%float, 200%float))
              _ eq_refl) as (pin & ow & oh & _ & Ho & _ & _ & H).
  injection Ho as <- <-. apply H; reflexivity.
Defined.

(** A click at x = 2 on an image that starts at 0.5 + 2^-53: the offset
    1.5 - 2^-53 is computed as 1.5, and the pin is set at 2. *)
Lemma handleImageClick_rounds_witness :
  handleImageClick true true 2%float 7%float Tour.nudged
  = Some {| pin_x := 2%float; pin_y := 7%float |}
  /\ F2Q 2 - F2Q (rect_left Tour.nudged) == 13510798882111487 # 9007199254740992
  /\ exists i : Z,
       F2Q 2 == inject_Z i
       /\ inject_Z i - (1 # 2) <= F2Q (2 - rect_left Tour.nudged)%float
       /\ F2Q (2 - rect_left Tour.nudged)%float < inject_Z i + (1 # 2)
       /\ Qabs (inject_Z i - (F2Q 2 - F2Q (rect_left Tour.nudged)))
          <= (1 # 2) + (1 # 9007199254740992)
                       * Qabs (F2Q 2 - F2Q (rect_left Tour.nudged)).
Proof.
  split; [ reflexivity | ]. split; [ reflexivity | ].
  destruct (proj2 (handleImageClick_rounds true true 2 7 Tour.nudged)
              {| pin_x := 2%float; pin_y := 7%float |} eq_refl)
    as (_ & _ & Hx & _).
  destruct Hx as (i & _ & Ei & Hlo & Hhi & Hd); try reflexivity.
  - vm_compute. discriminate.
  - exists i. cbn [pin_x] in Ei. auto.
Defined.

End Binary64Runs.
